(** * mininab: a minimal envelope-budgeting ledger (mininab.py, v0.9.2)

    A shallow embedding of [mininab.py] and the properties of its ledger
    engine.  The Python module keeps the whole ledger in one dictionary
    ([accounts], [categories], [month_summary], [category_month],
    [transactions]); every command receives that dictionary, mutates it in
    place and prints one line per outcome.  Here a command is a function
    from the state (and its arguments) to the new state and an [outcome]:
    what it printed, or the exception it raised.

    Conventions:
    - a Python [str] is a [string] whose characters are read as the code
      points 0..255; Python's [str.isspace], the regex classes [\s] and
      [\d] and case-insensitive matching are given on that range;
    - a Python [float] is a binary64 [float] of the kernel, so that sums
      round exactly as they do in CPython; the commands themselves are
      written over an interface [Amount], of which [float] is the instance
      the program runs;
    - a dictionary whose iteration order the program observes
      ([accounts], [categories]) is an association list in insertion
      order; the two month-keyed dictionaries are finite maps. *)

From Stdlib Require Import ZArith NArith Ascii String Bool Lia Floats Sorted.
From stdpp Require Import base option list gmap strings.

Set Warnings "-inexact-float".

Local Open Scope string_scope.
Local Open Scope list_scope.

(** ** Python strings *)

Module PyStr.

(** [str.isspace] on one character, and the regex class [\s]: the
    code points below 256 that Unicode classes as whitespace. *)
Definition isspace (c : ascii) : bool :=
  let n := N_of_ascii c in
  (((9 <=? n) && (n <=? 13)) || ((28 <=? n) && (n <=? 32))
   || (n =? 133) || (n =? 160))%N.

(** The regex class [\d] with the value [int] gives the digit: below
    code point 256 only the ASCII digits are decimal digits. *)
Definition digit (c : ascii) : option Z :=
  let n := N_of_ascii c in
  if ((48 <=? n) && (n <=? 57))%N then Some (Z.of_N n - 48)%Z else None.

(** [str.lower] on one character of a month name or separator: the
    ASCII capitals are the only characters below 256 that lower to an
    ASCII letter. *)
Definition lower (c : ascii) : ascii :=
  let n := N_of_ascii c in
  if ((65 <=? n) && (n <=? 90))%N then ascii_of_N (n + 32) else c.

Fixpoint lstrip (s : string) : string :=
  match s with
  | String c s' => if isspace c then lstrip s' else s
  | EmptyString => EmptyString
  end.

Fixpoint rstrip (s : string) : string :=
  match s with
  | EmptyString => EmptyString
  | String c s' =>
      match rstrip s' with
      | EmptyString => if isspace c then EmptyString else String c EmptyString
      | r => String c r
      end
  end.

(** [text.strip()] *)
Definition strip (s : string) : string := rstrip (lstrip s).

(** [spec.split(sep)] for a one-character separator: never empty. *)
Fixpoint split (sep : ascii) (s : string) : list string :=
  match s with
  | EmptyString => [EmptyString]
  | String c s' =>
      if Ascii.eqb c sep then EmptyString :: split sep s'
      else match split sep s' with
           | w :: ws => String c w :: ws
           | [] => [String c EmptyString]
           end
  end.

(** Decimal rendering of [n] on [width] digits, zero padded
    (the part of [n] above [10^width] is dropped; unused below). *)
Fixpoint zfill (width : nat) (n : Z) : string :=
  match width with
  | O => EmptyString
  | S w => zfill w (n / 10) ++ String (ascii_of_N (Z.to_N (n mod 10) + 48)) EmptyString
  end.

End PyStr.

(** ** [datetime.strptime] and [strftime], as far as [parse_month] uses them *)

Module Datetime.
Import PyStr.

(** [_strptime.LocaleTime.a_month] and [f_month] in the C locale:
    [calendar.month_abbr] and [calendar.month_name], lowered; index 0 is
    the empty name. *)
Definition a_month : list string :=
  [""; "jan"; "feb"; "mar"; "apr"; "may"; "jun";
   "jul"; "aug"; "sep"; "oct"; "nov"; "dec"].
Definition f_month : list string :=
  [""; "january"; "february"; "march"; "april"; "may"; "june";
   "july"; "august"; "september"; "october"; "november"; "december"].

(** [TimeRE.__seqToRE]: the names as regex alternatives, longest first;
    Python's sort is stable, so names of one length keep their order.
    [TimeRE] passes [a_month[1:]] and [f_month[1:]]. *)
Fixpoint insert_by_len (x : string) (l : list string) : list string :=
  match l with
  | [] => [x]
  | y :: l' =>
      if (String.length y <=? String.length x)%nat then x :: l
      else y :: insert_by_len x l'
  end.
Definition seqToRE (names : list string) : list string :=
  foldr insert_by_len [] names.

(** [list.index] *)
Fixpoint index (x : string) (l : list string) : Z :=
  match l with
  | [] => 0
  | y :: l' => if String.eqb x y then 0 else 1 + index x l'
  end%Z.

(** The regex a format compiles to ([TimeRE.pattern]), one token per
    directive, run of whitespace or literal character. *)
Inductive token :=
| Month_abbr            (* %b : (?P<b>jan|feb|...|dec) *)
| Month_full            (* %B : (?P<B>september|february|...|may) *)
| Year4                 (* %Y : (?P<Y>\d\d\d\d) *)
| Month_num             (* %m : (?P<m>1[0-2]|0[1-9]|[1-9]) *)
| Spaces                (* a run of whitespace in the format : \s+ *)
| Literal (c : ascii).  (* any other character, escaped *)

Definition directive (d : ascii) : option token :=
  if Ascii.eqb d "b" then Some Month_abbr
  else if Ascii.eqb d "B" then Some Month_full
  else if Ascii.eqb d "Y" then Some Year4
  else if Ascii.eqb d "m" then Some Month_num
  else None.

(** [in_ws]: the previous character of the format was whitespace (the
    run it belongs to has its [Spaces] already).  [None]: a directive
    outside the four above, for which [strptime] raises [ValueError]
    too (the formats of [parse_month] have none). *)
Fixpoint pattern (in_ws : bool) (fmt : string) : option (list token) :=
  match fmt with
  | EmptyString => Some []
  | String c fmt' =>
      if Ascii.eqb c "%" then
        match fmt' with
        | String d fmt'' =>
            match directive d, pattern false fmt'' with
            | Some t, Some p => Some (t :: p)
            | _, _ => None
            end
        | EmptyString => None
        end
      else if isspace c then
        match pattern true fmt' with
        | Some p => Some (if in_ws then p else Spaces :: p)
        | None => None
        end
      else
        match pattern false fmt' with
        | Some p => Some (Literal c :: p)
        | None => None
        end
  end.

(** The fields a match fills; [strptime] starts from year 1900, month 1. *)
Record fields := { f_year : Z; f_mon : Z }.
Definition defaults : fields := {| f_year := 1900; f_mon := 1 |}.

(** A literal of the pattern against the head of [s], ignoring case;
    the rest of [s] on success. *)
Fixpoint match_ci (lit s : string) : option string :=
  match lit, s with
  | EmptyString, _ => Some s
  | String a lit', String c s' =>
      if Ascii.eqb (lower c) (lower a) then match_ci lit' s' else None
  | String _ _, EmptyString => None
  end.

(** Backtracking, as [re.match] does it: an alternation takes the first
    alternative after which the rest of the pattern [k] matches. *)
Fixpoint first_alt {R} (alts : list string) (s : string)
    (k : string -> string -> option R) : option R :=
  match alts with
  | [] => None
  | a :: alts' =>
      match match_ci a s with
      | Some rest =>
          match k a rest with
          | Some r => Some r
          | None => first_alt alts' s k
          end
      | None => first_alt alts' s k
      end
  end.

(** [\s+] is greedy: it takes every whitespace character it can and
    gives them back one at a time while [k] fails. *)
Fixpoint spaces_plus {R} (s : string) (k : string -> option R) : option R :=
  match s with
  | String c s' =>
      if isspace c then
        match spaces_plus s' k with
        | Some r => Some r
        | None => k s'
        end
      else None
  | EmptyString => None
  end.

(** [\d\d\d\d] and [int] of the group. *)
Definition year4 (s : string) : option (Z * string) :=
  match s with
  | String c1 (String c2 (String c3 (String c4 rest))) =>
      match digit c1, digit c2, digit c3, digit c4 with
      | Some d1, Some d2, Some d3, Some d4 =>
          Some (d1 * 1000 + d2 * 100 + d3 * 10 + d4, rest)%Z
      | _, _, _, _ => None
      end
  | _ => None
  end.

(** [1[0-2]|0[1-9]|[1-9]]: the three alternatives in order. *)
Definition month_num {R} (s : string) (k : Z -> string -> option R) : option R :=
  let two :=
    match s with
    | String c1 (String c2 rest) =>
        match digit c1, digit c2 with
        | Some 1%Z, Some d => if (d <=? 2)%Z then k (10 + d)%Z rest else None
        | Some 0%Z, Some d => if (1 <=? d)%Z then k d rest else None
        | _, _ => None
        end
    | _ => None
    end in
  match two with
  | Some r => Some r
  | None =>
      match s with
      | String c1 rest =>
          match digit c1 with
          | Some d => if (1 <=? d)%Z then k d rest else None
          | None => None
          end
      | EmptyString => None
      end
  end.

(** [format_regex.match(data_string)]: the fields and the unmatched
    rest of the text. *)
Fixpoint re_match (p : list token) (s : string) (acc : fields)
    : option (fields * string) :=
  match p with
  | [] => Some (acc, s)
  | Month_abbr :: p' =>
      first_alt (seqToRE (tail a_month)) s (fun name rest =>
        re_match p' rest {| f_year := f_year acc; f_mon := index name a_month |})
  | Month_full :: p' =>
      first_alt (seqToRE (tail f_month)) s (fun name rest =>
        re_match p' rest {| f_year := f_year acc; f_mon := index name f_month |})
  | Year4 :: p' =>
      match year4 s with
      | Some (y, rest) => re_match p' rest {| f_year := y; f_mon := f_mon acc |}
      | None => None
      end
  | Month_num :: p' =>
      month_num s (fun m rest =>
        re_match p' rest {| f_year := f_year acc; f_mon := m |})
  | Spaces :: p' => spaces_plus s (fun rest => re_match p' rest acc)
  | Literal c :: p' =>
      match s with
      | String c' s' =>
          if Ascii.eqb (lower c') (lower c) then re_match p' s' acc else None
      | EmptyString => None
      end
  end.

(** [datetime.datetime.strptime(data, fmt)]: the date's year and month
    (the day is 1), or [None] when it raises [ValueError]: no match,
    unconverted data left, or a year or month [datetime] refuses
    ([MINYEAR = 1], so the text 0000 is no year). *)
Definition strptime (data fmt : string) : option (Z * Z) :=
  match pattern false fmt with
  | None => None
  | Some p =>
      match re_match p data defaults with
      | Some (f, EmptyString) =>
          if ((1 <=? f_year f) && (f_year f <=? 9999)
              && (1 <=? f_mon f) && (f_mon f <=? 12))%Z
          then Some (f_year f, f_mon f)
          else None
      | _ => None
      end
  end.

(** [d.strftime("%Y-%m")].  [strftime] hands the format to the C
    library, and glibc prints [%Y] as the plain decimal number of the
    year, without padding: a year below 1000 comes out on fewer than
    four digits ([datetime(987, 6, 1)] gives [987-06]).  [%m] is on two
    digits.  The years of a [datetime] are 1 to 9999. *)
Definition year_text (y : Z) : string :=
  if (y <? 10)%Z then zfill 1 y
  else if (y <? 100)%Z then zfill 2 y
  else if (y <? 1000)%Z then zfill 3 y
  else zfill 4 y.

Definition strftime_Ym (d : Z * Z) : string :=
  year_text (fst d) ++ "-" ++ zfill 2 (snd d).

End Datetime.

(** ** Exceptions and printed lines *)

Inductive exn :=
| UnrecognisedMonth (text : string)   (* ValueError(f"Unrecognised month format: {text!r}") *)
| NameError (name : string)           (* name '...' is not defined *)
| KeyError (key : string)
| AttributeError (ty attr : string)   (* '<ty>' object has no attribute '<attr>' *)
| RecursionError.                     (* maximum recursion depth exceeded *)

(** ** Utilities *)

(** The formats of [parse_month], in the order the loop tries them. *)
Definition month_formats : list string := ["%b %Y"; "%B %Y"; "%Y-%m"; "%Y/%m"].

(** The loop of [parse_month]: the first format [strptime] accepts. *)
Fixpoint try_formats (text : string) (fmts : list string) : option string :=
  match fmts with
  | [] => None
  | fmt :: fmts' =>
      match Datetime.strptime text fmt with
      | Some d => Some (Datetime.strftime_Ym d)
      | None => try_formats text fmts'
      end
  end.

Definition parse_month (text : string) : exn + string :=
  let text := PyStr.strip text in
  match try_formats text month_formats with
  | Some key => inr key
  | None => inl (UnrecognisedMonth text)
  end.

(** ** Money amounts

    The arithmetic the commands perform on amounts: [0.0], [+], [-],
    unary minus, [<] and [round(_, 2)]. *)

Class Amount (A : Type) := {
  a_zero : A;
  a_add : A -> A -> A;
  a_sub : A -> A -> A;
  a_neg : A -> A;
  a_lt : A -> A -> bool;
  a_round2 : A -> A
}.

Declare Scope amount_scope.
Delimit Scope amount_scope with amt.
Notation "0" := a_zero : amount_scope.
Infix "+" := a_add : amount_scope.
Infix "-" := a_sub : amount_scope.
Notation "- x" := (a_neg x) : amount_scope.
Infix "<?" := a_lt : amount_scope.

(** Python's [max(a, b)]: [b] replaces [a] only when [b > a]. *)
Definition py_max {A} `{Amount A} (a b : A) : A :=
  if (a <? b)%amt then b else a.

(** Exact arithmetic: what decimal amounts satisfy and binary floating
    point does not. *)
Class ExactAmount (A : Type) `{Amount A} : Prop := {
  a_add_assoc : forall x y z : A, (x + (y + z) = (x + y) + z)%amt;
  a_add_comm : forall x y : A, (x + y = y + x)%amt;
  a_add_0_l : forall x : A, (0 + x = x)%amt;
  a_sub_add_neg : forall x y : A, (x - y = x + (- y))%amt
}.

(** *** Python floats *)

Module PyFloat.
Local Open Scope Z_scope.

Definition finite (x : float) : bool :=
  match Prim2SF x with
  | S754_zero _ | S754_finite _ _ _ => true
  | S754_infinity _ | S754_nan => false
  end.

(** [num / den] rounded to the nearest integer, ties to even. *)
Definition div_half_even (num den : Z) : Z :=
  let q := num / den in
  match 2 * (num mod den) ?= den with
  | Lt => q
  | Gt => q + 1
  | Eq => if Z.even q then q else q + 1
  end.

(** The double nearest to [(-1)^s * n / d] (ties to even), [n >= 0]. *)
Definition nearest_double (s : bool) (n d : Z) : float :=
  match n with
  | Z0 => if s then (-0)%float else 0%float
  | _ =>
      let '(mz, ez, lz) := SFdiv_core_binary prec emax n 0 d 0 in
      SF2Prim (binary_round_aux prec emax s mz ez lz)
  end.

(** [round(x, 2)] ([float.__round__] with [ndigits = 2]): infinities
    and NaN round to themselves; a finite [x] is printed with two
    fractional digits, correctly rounded from its exact value with ties
    to even, and the decimal string is read back as the nearest
    double. *)
Definition round2 (x : float) : float :=
  match Prim2SF x with
  | S754_finite s m e =>
      let hundredths :=
        match e with
        | Zneg p => div_half_even (Zpos m * 100) (Z.pow_pos 2 p)
        | _ => Zpos m * 100 * 2 ^ e
        end in
      nearest_double s hundredths 100
  | _ => x
  end.

End PyFloat.

#[export] Instance float_amount : Amount float := {|
  a_zero := 0%float;
  a_add := PrimFloat.add;
  a_sub := PrimFloat.sub;
  a_neg := PrimFloat.opp;
  a_lt := PrimFloat.ltb;
  a_round2 := PyFloat.round2
|}.

(** *** Whole hundredths: an exact instance *)

#[export] Instance cents_amount : Amount Z := {|
  a_zero := 0%Z;
  a_add := Z.add;
  a_sub := Z.sub;
  a_neg := Z.opp;
  a_lt := Z.ltb;
  a_round2 := fun x => x
|}.

#[export] Instance cents_exact : ExactAmount Z.
Proof. split; simpl; intros; lia. Qed.

(** ** The ledger *)

(** One dictionary of [category_month[month]]. *)
Record CatEntry (A : Type) := {
  budgeted : A;
  activity : A;
  available : A
}.
Arguments budgeted {A} _.
Arguments activity {A} _.
Arguments available {A} _.
Arguments Build_CatEntry {A} _ _ _.

(** One dictionary of [transactions]. *)
Record Transaction (A : Type) := {
  tx_month : string;
  tx_account : option string;
  tx_category : option string;
  tx_amount : A
}.
Arguments tx_month {A} _.
Arguments tx_account {A} _.
Arguments tx_category {A} _.
Arguments tx_amount {A} _.
Arguments Build_Transaction {A} _ _ _ _.

(** The state dictionary.  [accounts] maps a name to its ["type"],
    [categories] a path to its ["parent"], both in insertion order;
    [month_summary] maps a month to its ["ready_to_assign"] (the only
    key the program ever stores there, and it stores it as soon as it
    creates the month's dictionary). *)
Record State (A : Type) := {
  accounts : list (string * string);
  categories : list (string * option string);
  month_summary : gmap string A;
  category_month : gmap string (gmap string (CatEntry A));
  transactions : list (Transaction A)
}.
Arguments accounts {A} _.
Arguments categories {A} _.
Arguments month_summary {A} _.
Arguments category_month {A} _.
Arguments transactions {A} _.
Arguments Build_State {A} _ _ _ _ _.

(** What a command prints, one constructor per [print]. *)
Inductive line (A : Type) :=
| Type_must_be_bank_or_credit
| Account_exists (name : string)
| Account_added (name typ : string)
| Category_added (path : string)
| Category_exists (path : string)
| Tbb_set (m : string) (amt : A)
| Category_not_found (cat : string)
| Account_not_found (acc : string)
| Budgeted (amt : A) (cat m : string)
| Spent (amt : A) (acc cat m : string)
| Both_accounts_must_exist
| Transferred (amt : A) (src dst m : string)
| Rolled_forward (f t : string) (overspend : A)
| Report_for (m : string)
| Text (s : string)                                 (* a fixed line of the report *)
| Account_line (name typ : string)
| Category_row (indented : string) (val : CatEntry A)
| Remaining_tbb (amt : A).
Arguments Type_must_be_bank_or_credit {A}.
Arguments Account_exists {A} _.
Arguments Account_added {A} _ _.
Arguments Category_added {A} _.
Arguments Category_exists {A} _.
Arguments Tbb_set {A} _ _.
Arguments Category_not_found {A} _.
Arguments Account_not_found {A} _.
Arguments Budgeted {A} _ _ _.
Arguments Spent {A} _ _ _ _.
Arguments Both_accounts_must_exist {A}.
Arguments Transferred {A} _ _ _ _.
Arguments Rolled_forward {A} _ _ _.
Arguments Report_for {A} _.
Arguments Text {A} _.
Arguments Account_line {A} _ _.
Arguments Category_row {A} _ _.
Arguments Remaining_tbb {A} _.

(** How a command ends: it returns after its prints, or it raises (what
    it printed before raising is not kept). *)
Inductive outcome (A : Type) :=
| Printed (out : list (line A))
| Raised (e : exn).
Arguments Printed {A} _.
Arguments Raised {A} _.

(** [key in d] for a dictionary kept as an association list. *)
Definition dict_in {V} (key : string) (d : list (string * V)) : bool :=
  existsb (fun kv => String.eqb key (fst kv)) d.

Definition set_accounts {A} (st : State A) (a : list (string * string)) : State A :=
  Build_State a (categories st) (month_summary st) (category_month st) (transactions st).
Definition set_categories {A} (st : State A) (c : list (string * option string)) : State A :=
  Build_State (accounts st) c (month_summary st) (category_month st) (transactions st).
Definition set_month_summary {A} (st : State A) (ms : gmap string A) : State A :=
  Build_State (accounts st) (categories st) ms (category_month st) (transactions st).
Definition set_category_month {A} (st : State A)
    (cm : gmap string (gmap string (CatEntry A))) : State A :=
  Build_State (accounts st) (categories st) (month_summary st) cm (transactions st).
(** [state.setdefault("transactions", []).append(tx)] *)
Definition append_transaction {A} (st : State A) (tx : Transaction A) : State A :=
  Build_State (accounts st) (categories st) (month_summary st) (category_month st)
    (transactions st ++ [tx]).

(** *** Persistence *)

(** The state [load_state] returns when it finds no file. *)
Definition fresh_state {A} : State A := Build_State [] [] ∅ ∅ [].

(** The two kinds of object the name [DATA] could hold: the module binds
    it to a [str]; [exists], [open] and [write_text] are methods of
    [pathlib.Path]. *)
Inductive pyobj :=
| PyStr (s : string)
| PyPath (p : string).

Definition DATA : pyobj := PyStr "mininab.json".

(** [load_state] with the object [data] for [DATA].  [file] is the
    state the file decodes to when there is one.  The first thing the
    function does with [data] is to call [data.exists()]. *)
Definition load_state_from {A} (data : pyobj) (file : option (State A)) : exn + State A :=
  match data with
  | PyStr _ => inl (AttributeError "str" "exists")
  | PyPath _ =>
      match file with
      | Some st => inr st
      | None => inr fresh_state
      end
  end.

Definition load_state {A} (file : option (State A)) : exn + State A :=
  load_state_from DATA file.

(** *** Utilities *)

Definition zero_entry {A} `{Amount A} : CatEntry A :=
  Build_CatEntry 0%amt 0%amt 0%amt.

(** [get_cat_entry]: both [setdefault]s, and the entry they end on.  The
    entry is the dictionary stored in the state: the caller's updates of
    it are [store_entry]. *)
Definition get_cat_entry {A} `{Amount A} (st : State A) (month cat : string)
    : CatEntry A * State A :=
  let cm := default ∅ (category_month st !! month) in
  let entry := default zero_entry (cm !! cat) in
  (entry, set_category_month st (<[month := <[cat := entry]> cm]> (category_month st))).

Definition store_entry {A} (st : State A) (month cat : string) (entry : CatEntry A)
    : State A :=
  let cm := default ∅ (category_month st !! month) in
  set_category_month st (<[month := <[cat := entry]> cm]> (category_month st)).

(** *** Commands *)

Definition cmd_acc {A} (st : State A) (name typ : string) : State A * outcome A :=
  if negb (String.eqb typ "bank" || String.eqb typ "credit") then
    (st, Printed [Type_must_be_bank_or_credit])
  else if dict_in name (accounts st) then
    (st, Printed [Account_exists name])
  else
    (set_accounts st (accounts st ++ [(name, typ)]), Printed [Account_added name typ]).

(** One turn of the loop of [cmd_cat] over [enumerate(parts)]; [n] is
    [len(parts)]. *)
Definition cat_step {A} (n : nat)
    (acc : list (string * option string) * string * option string * list (line A))
    (ip : nat * string)
    : list (string * option string) * string * option string * list (line A) :=
  let '(cats, full_path, parent_path, out) := acc in
  let '(i, part) := ip in
  let full_path :=
    ((if (0 <? i)%nat then full_path ++ ":" else full_path) ++ part)%string in
  if negb (dict_in full_path cats) then
    (cats ++ [(full_path, parent_path)], full_path, Some full_path,
     out ++ [Category_added full_path])
  else if (i =? n - 1)%nat then
    (cats, full_path, Some full_path, out ++ [Category_exists full_path])
  else
    (cats, full_path, Some full_path, out).

Definition cmd_cat {A} (st : State A) (spec : string) : State A * outcome A :=
  let parts := map PyStr.strip (PyStr.split ":" spec) in
  let '(cats, _, _, out) :=
    fold_left (cat_step (length parts)) (imap (fun i p => (i, p)) parts)
      (categories st, "", None, []) in
  (set_categories st cats, Printed out).

Definition cmd_tbb {A} `{Amount A} (st : State A) (mon : string) (amt : A)
    : State A * outcome A :=
  match parse_month mon with
  | inl e => (st, Raised e)
  | inr m =>
      (set_month_summary st (<[m := a_round2 amt]> (month_summary st)),
       Printed [Tbb_set m amt])
  end.

Definition cmd_bud {A} `{Amount A} (st : State A) (mon cat : string) (amt : A)
    : State A * outcome A :=
  match parse_month mon with
  | inl e => (st, Raised e)
  | inr m =>
      if negb (dict_in cat (categories st)) then
        (st, Printed [Category_not_found cat])
      else
        let '(entry, st) := get_cat_entry st m cat in
        let entry :=
          Build_CatEntry (budgeted entry + amt)%amt (activity entry)
            (available entry + amt)%amt in
        let st := store_entry st m cat entry in
        let st := append_transaction st (Build_Transaction m None (Some cat) amt) in
        (st, Printed [Budgeted amt cat m])
  end.

Definition cmd_spend {A} `{Amount A} (st : State A) (mon acc cat : string) (amt : A)
    : State A * outcome A :=
  match parse_month mon with
  | inl e => (st, Raised e)
  | inr m =>
      if negb (dict_in acc (accounts st)) then
        (st, Printed [Account_not_found acc])
      else if negb (dict_in cat (categories st)) then
        (st, Printed [Category_not_found cat])
      else
        let '(entry, st) := get_cat_entry st m cat in
        let entry :=
          Build_CatEntry (budgeted entry) (activity entry - amt)%amt
            (available entry - amt)%amt in
        let st := store_entry st m cat entry in
        let st :=
          append_transaction st (Build_Transaction m (Some acc) (Some cat) (- amt)%amt) in
        (st, Printed [Spent amt acc cat m])
  end.

Definition cmd_xfer {A} `{Amount A} (st : State A) (mon src dst : string) (amt : A)
    : State A * outcome A :=
  match parse_month mon with
  | inl e => (st, Raised e)
  | inr m =>
      if negb (dict_in src (accounts st)) || negb (dict_in dst (accounts st)) then
        (st, Printed [Both_accounts_must_exist])
      else
        let st := append_transaction st (Build_Transaction m (Some src) None (- amt)%amt) in
        let st := append_transaction st (Build_Transaction m (Some dst) None amt) in
        (st, Printed [Transferred amt src dst m])
  end.

(** [d.setdefault(month, {})] on [category_month]. *)
Definition setdefault_month {A} (month : string)
    (cm : gmap string (gmap string (CatEntry A))) : gmap string (gmap string (CatEntry A)) :=
  match cm !! month with
  | Some _ => cm
  | None => <[month := ∅]> cm
  end.

(** One turn of the loop of [cmd_roll] for category [c].  [from_month]
    and [to_month] are the dictionaries stored under [f] and [t] (one and
    the same dictionary when [f = t]), so both are read from the store as
    it stands. *)
Definition roll_step {A} `{Amount A} (f t : string)
    (acc : gmap string (gmap string (CatEntry A)) * A) (c : string)
    : gmap string (gmap string (CatEntry A)) * A :=
  let '(cm, overspend) := acc in
  let from_month := default ∅ (cm !! f) in
  let av := match from_month !! c with
            | Some prev => available prev
            | None => 0%amt
            end in
  let carry := py_max av 0%amt in
  let overspend := if (av <? 0)%amt then (overspend + (- av))%amt else overspend in
  let to_month := default ∅ (cm !! t) in
  let dest := default zero_entry (to_month !! c) in
  let dest := Build_CatEntry (budgeted dest) (activity dest) (available dest + carry)%amt in
  (<[t := <[c := dest]> to_month]> cm, overspend).

Definition cmd_roll {A} `{Amount A} (st : State A) (frm to : string)
    : State A * outcome A :=
  match parse_month frm with
  | inl e => (st, Raised e)
  | inr f =>
      match parse_month to with
      | inl e => (st, Raised e)
      | inr t =>
          let cats := map fst (categories st) in
          let cm := setdefault_month t (setdefault_month f (category_month st)) in
          let '(cm, overspend) := fold_left (roll_step f t) cats (cm, 0%amt) in
          let st := set_category_month st cm in
          let ready := (default 0%amt (month_summary st !! t) - overspend)%amt in
          (set_month_summary st (<[t := ready]> (month_summary st)),
           Printed [Rolled_forward f t overspend])
      end
  end.

(** [sorted(names)]: insertion keeps it simple, and the names of one
    dictionary are distinct. *)
Fixpoint insert_sorted (x : string) (l : list string) : list string :=
  match l with
  | [] => [x]
  | y :: l' => if String.leb x y then x :: l else y :: insert_sorted x l'
  end.

(** [tree[parent]] in [sorted_categories], after the loop that sorts:
    the categories whose ["parent"] is [parent]. *)
Definition tree_children (cats : list (string * option string))
    (parent : option string) : list string :=
  foldr insert_sorted []
    (map fst (filter (fun kv => bool_decide (snd kv = parent)) cats)).

(** [sys.getrecursionlimit()]: the interpreter's default, which the
    module never changes.  A call that would make the stack deeper than
    this many frames raises [RecursionError]. *)
Definition recursion_limit : nat := 1000.

(** [visit(parent, indent)], with [frames] frames left on the stack
    for this call and the calls below it.  Every name of [tree[parent]]
    is appended to [result] and visited in turn, one frame deeper; the
    call that finds no frame left raises [RecursionError], which
    nothing in [sorted_categories] catches.  The value is what the call
    appends to [result]. *)
Fixpoint visit (frames : nat) (cats : list (string * option string))
    (parent : option string) (indent : string) : exn + list string :=
  match frames with
  | O => inl RecursionError
  | S frames' =>
      foldr
        (fun name rest =>
           match visit frames' cats (Some name) (indent ++ "  ")%string with
           | inl e => inl e
           | inr below =>
               match rest with
               | inl e => inl e
               | inr out => inr ((indent ++ name)%string :: below ++ out)
               end
           end)
        (inr []) (tree_children cats parent)
  end.

(** The frames [visit(None)] finds when [main] runs a command that
    calls [sorted_categories]: the module, [main], the command and
    [sorted_categories] are on the stack. *)
Definition visit_frames : nat := recursion_limit - 4.

Definition sorted_categories {A} (st : State A) : exn + list string :=
  visit visit_frames (categories st) None "".

(** The loop of [cmd_rep] over [sorted_categories(state)]: the rows and
    the running [total_bud]; [cm[c.lstrip()]] raises [KeyError]. *)
Fixpoint report_rows {A} `{Amount A} (cm : gmap string (CatEntry A))
    (names : list string) (total_bud : A) (out : list (line A))
    : exn + (A * list (line A)) :=
  match names with
  | [] => inr (total_bud, out)
  | c :: names' =>
      match cm !! PyStr.lstrip c with
      | None => inl (KeyError (PyStr.lstrip c))
      | Some val =>
          report_rows cm names' (total_bud + budgeted val)%amt (out ++ [Category_row c val])
      end
  end.

(** The statements of [cmd_rep] from its first [print] on, for a month
    key [m]. *)
Definition report {A} `{Amount A} (st : State A) (m : string) : State A * outcome A :=
  let head :=
    [Report_for m; Text "Accounts:"]
    ++ map (fun kv => Account_line (fst kv) (snd kv)) (accounts st)
    ++ [Text ""] in
  let cm :=
    fold_left
      (fun cm c => match cm !! c with
                   | Some _ => cm
                   | None => <[c := zero_entry]> cm
                   end)
      (map fst (categories st)) (default ∅ (category_month st !! m)) in
  let st := set_category_month st (<[m := cm]> (category_month st)) in
  match sorted_categories st with
  | inl e => (st, Raised e)
  | inr names =>
      match report_rows cm names 0%amt [] with
      | inl e => (st, Raised e)
      | inr (total_bud, rows) =>
          let tbb := default 0%amt (month_summary st !! m) in
          (st,
           Printed
             (head
              ++ [Text "Categories:"; Text "Category               Budg     Actv     Avail";
                  Text "--------------------------------------------------"]
              ++ rows
              ++ [Text "--------------------------------------------------";
                  Remaining_tbb (tbb - total_bud)%amt]))
      end
  end.

(** The value of the global name [m] when [cmd_rep] runs: the module
    never binds one. *)
Definition global_m : option string := None.

(** [cmd_rep]: its first statement after the log line is
    [print(f"Report for {m}\n")].  [m] is no parameter of [cmd_rep] and
    the body never assigns it ([parse_month(mon)] is not called here), so
    it is read as a global name; reading it raises [NameError] before
    the state is touched. *)
Definition cmd_rep {A} `{Amount A} (st : State A) (mon : string) : State A * outcome A :=
  match global_m with
  | Some m => report st m
  | None => (st, Raised (NameError "m"))
  end.

(** *** The command line *)

(** The sub-commands of [main] with their parsed arguments ([show], which
    only prints, apart). *)
Inductive command (A : Type) :=
| Acc (name typ : string)
| Cat (spec : string)
| Tbb (month : string) (amount : A)
| Bud (month category : string) (amount : A)
| Spend (month account category : string) (amount : A)
| Xfer (month src dst : string) (amount : A)
| Roll_forward (frm to : string)
| Rep (month : string).
Arguments Acc {A} _ _.
Arguments Cat {A} _.
Arguments Tbb {A} _ _.
Arguments Bud {A} _ _ _.
Arguments Spend {A} _ _ _ _.
Arguments Xfer {A} _ _ _ _.
Arguments Roll_forward {A} _ _.
Arguments Rep {A} _.

(** [fn(state, **args)] *)
Definition run_command {A} `{Amount A} (st : State A) (c : command A)
    : State A * outcome A :=
  match c with
  | Acc name typ => cmd_acc st name typ
  | Cat spec => cmd_cat st spec
  | Tbb mon amt => cmd_tbb st mon amt
  | Bud mon cat amt => cmd_bud st mon cat amt
  | Spend mon acc cat amt => cmd_spend st mon acc cat amt
  | Xfer mon src dst amt => cmd_xfer st mon src dst amt
  | Roll_forward frm to => cmd_roll st frm to
  | Rep mon => cmd_rep st mon
  end.

(** The state after a sequence of commands, each run on the state the
    one before left. *)
Definition run {A} `{Amount A} (st : State A) (cs : list (command A)) : State A :=
  fold_left (fun s c => fst (run_command s c)) cs st.

Definition is_roll_forward {A} (c : command A) : bool :=
  match c with
  | Roll_forward _ _ => true
  | _ => false
  end.

(** *** Reading the ledger *)

(** [cm.get(month, {}).get(cat)] *)
Definition lookup2 {A} (cm : gmap string (gmap string (CatEntry A)))
    (month cat : string) : option (CatEntry A) :=
  cm !! month ≫= (fun entries => entries !! cat).

Definition lookup_entry {A} (st : State A) (month cat : string) : option (CatEntry A) :=
  lookup2 (category_month st) month cat.

(** The entry of [(month, cat)], all zero while there is none. *)
Definition entry_at {A} `{Amount A} (st : State A) (month cat : string) : CatEntry A :=
  default zero_entry (lookup_entry st month cat).

(** The state after a successful [cmd_bud] or [cmd_spend] that leaves
    [entry] under [(month, cat)] and appends [tx]. *)
Definition updated {A} (st : State A) (month cat : string) (entry : CatEntry A)
    (tx : Transaction A) : State A :=
  Build_State (accounts st) (categories st) (month_summary st)
    (<[month := <[cat := entry]> (default ∅ (category_month st !! month))]>
       (category_month st))
    (transactions st ++ [tx]).

(** What [cmd_roll] reads for category [c] in the source month [f]: the
    available of its entry, 0 without one. *)
Definition source_available {A} `{Amount A} (st : State A) (f c : string) : A :=
  available (entry_at st f c).

(** The overspend [cmd_roll] accumulates over the categories, in their
    order: [-available] of every category whose source available is
    negative. *)
Definition overspend_of {A} `{Amount A} (st : State A) (f : string)
    (cats : list string) : A :=
  fold_left
    (fun o c =>
       if (source_available st f c <? 0)%amt
       then (o + (- source_available st f c))%amt else o)
    cats 0%amt.

(** An entry balances when its available is its budgeted plus its
    activity; a state, when all its entries do. *)
Definition balanced {A} `{Amount A} (st : State A) : Prop :=
  forall m c e, lookup_entry st m c = Some e ->
    available e = (budgeted e + activity e)%amt.

(** The loop of [cmd_roll] seen from a store [cm]: the source available
    of [c], the entry the turn for [c] leaves in the destination month,
    and the overspend after that turn. *)
Definition roll_available {A} `{Amount A} (f : string)
    (cm : gmap string (gmap string (CatEntry A))) (c : string) : A :=
  available (default zero_entry (lookup2 cm f c)).

Definition rolled_entry {A} `{Amount A} (f t : string)
    (cm : gmap string (gmap string (CatEntry A))) (c : string) : CatEntry A :=
  let d := default zero_entry (lookup2 cm t c) in
  Build_CatEntry (budgeted d) (activity d)
    (available d + py_max (roll_available f cm c) 0)%amt.

Definition roll_charge {A} `{Amount A} (f : string)
    (cm : gmap string (gmap string (CatEntry A))) (o : A) (c : string) : A :=
  if (roll_available f cm c <? 0)%amt then (o + (- roll_available f cm c))%amt else o.

(** *** Month texts *)

(** A character that lowers to a letter of a month name. *)
Definition letter (c : ascii) : bool :=
  let n := N_of_ascii (PyStr.lower c) in ((97 <=? n) && (n <=? 122))%N.

Definition starts_with_letter (a : string) : bool :=
  match a with
  | EmptyString => false
  | String y _ => letter y
  end.

(** How two literals stand to each other when both match, ignoring
    case, at the head of one text. *)
Inductive overlapping :=
| Clash
| Longer_right (t : string)   (* the second literal is the first followed by [t] *)
| Longer_left (t : string).   (* the first is the second followed by [t], not empty *)

Fixpoint overlap (a f : string) : overlapping :=
  match a, f with
  | EmptyString, _ => Longer_right f
  | String _ _, EmptyString => Longer_left a
  | String x a', String y f' =>
      if Ascii.eqb (PyStr.lower x) (PyStr.lower y) then overlap a' f' else Clash
  end.

(** The check of the fields and of the unconverted rest at the end of
    [strptime]. *)
Definition date_of (f : Datetime.fields) (rest : string) : option (Z * Z) :=
  match rest with
  | EmptyString =>
      if ((1 <=? Datetime.f_year f) && (Datetime.f_year f <=? 9999)
          && (1 <=? Datetime.f_mon f) && (Datetime.f_mon f <=? 12))%Z
      then Some (Datetime.f_year f, Datetime.f_mon f)
      else None
  | String _ _ => None
  end.

(** What an abbreviated and a full month name that match one text owe
    each other: the same month when they are the same literal, and a
    letter right after the shorter one otherwise. *)
Definition name_pair_ok (a f : string) : bool :=
  match overlap a f with
  | Clash => true
  | Longer_right EmptyString => (Datetime.index a Datetime.a_month =? Datetime.index f Datetime.f_month)%Z
  | Longer_right (String y _) => letter y
  | Longer_left _ => false
  end.

(** *** Month keys *)

(** A month key: what [strftime] prints for a year and a month
    [datetime] accepts. *)
Definition is_key (k : string) : Prop :=
  exists y mo : Z,
    (1 <= y <= 9999)%Z /\ (1 <= mo <= 12)%Z /\ k = Datetime.strftime_Ym (y, mo).

(** *** What one command does to the state *)

(** The store [cmd_roll] leaves, read entry by entry: the rolled entry
    for the categories in the destination month [t], the old entry
    everywhere else. *)
Definition roll_lookup {A} `{Amount A} (st : State A) (f t : string)
    (cm' : gmap string (gmap string (CatEntry A))) : Prop :=
  forall m c,
    lookup2 cm' m c =
    if String.eqb m t && dict_in c (categories st)
    then Some (rolled_entry f t (category_month st) c)
    else lookup_entry st m c.

(** The states a command can leave: the state it received (every error,
    and the report), or the one change of its success path. *)
Inductive effect {A} `{Amount A} (st : State A) : State A -> Prop :=
| Eff_none : effect st st
| Eff_acc (name typ : string) :
    typ = "bank" \/ typ = "credit" ->
    dict_in name (accounts st) = false ->
    effect st (set_accounts st (accounts st ++ [(name, typ)]))
| Eff_cat (spec : string) :
    effect st (fst (cmd_cat st spec))
| Eff_tbb (m : string) (amt : A) :
    is_key m ->
    effect st (set_month_summary st (<[m := a_round2 amt]> (month_summary st)))
| Eff_bud (m cat : string) (amt : A) :
    is_key m ->
    dict_in cat (categories st) = true ->
    effect st
      (updated st m cat
         (Build_CatEntry (budgeted (entry_at st m cat) + amt)%amt
            (activity (entry_at st m cat))
            (available (entry_at st m cat) + amt)%amt)
         (Build_Transaction m None (Some cat) amt))
| Eff_spend (m acc cat : string) (amt : A) :
    is_key m ->
    dict_in acc (accounts st) = true ->
    dict_in cat (categories st) = true ->
    effect st
      (updated st m cat
         (Build_CatEntry (budgeted (entry_at st m cat))
            (activity (entry_at st m cat) - amt)%amt
            (available (entry_at st m cat) - amt)%amt)
         (Build_Transaction m (Some acc) (Some cat) (- amt)%amt))
| Eff_xfer (m src dst : string) (amt : A) :
    is_key m ->
    dict_in src (accounts st) = true ->
    dict_in dst (accounts st) = true ->
    effect st
      (Build_State (accounts st) (categories st) (month_summary st) (category_month st)
         (transactions st
          ++ [Build_Transaction m (Some src) None (- amt)%amt;
              Build_Transaction m (Some dst) None amt]))
| Eff_roll (f t : string) (cm' : gmap string (gmap string (CatEntry A))) :
    is_key f ->
    is_key t ->
    roll_lookup st f t cm' ->
    effect st
      (Build_State (accounts st) (categories st)
         (<[t := (default 0%amt (month_summary st !! t)
                  - overspend_of st f (map fst (categories st)))%amt]>
            (month_summary st))
         cm' (transactions st)).

(** *** Category paths *)

(** The path the loop of [cmd_cat] builds at index [i] from the path so
    far and the next part. *)
Definition next_path (i : nat) (full part : string) : string :=
  ((if (0 <? i)%nat then full ++ ":" else full) ++ part)%string.

(** The paths the loop goes through from index [i] on. *)
Fixpoint cat_paths (i : nat) (full : string) (parts : list string) : list string :=
  match parts with
  | [] => []
  | part :: parts' =>
      next_path i full part :: cat_paths (S i) (next_path i full part) parts'
  end.

(** The number of colons of a path, and the indentation [visit] has
    reached [k] levels down. *)
Fixpoint colons (s : string) : nat :=
  match s with
  | EmptyString => 0
  | String c s' => (if Ascii.eqb c ":" then 1 else 0) + colons s'
  end.

Fixpoint pad (k : nat) : string :=
  match k with
  | O => ""
  | S k' => (pad k' ++ "  ")%string
  end.

(** A category without parent is a single part, without colon; the
    parent of any other category is a category itself, and the child's
    path is the parent's path, a colon and one more part, which has no
    colon either. *)
Definition parents_closed (cats : list (string * option string)) : Prop :=
  forall name parent,
    In (name, parent) cats ->
    match parent with
    | None => colons name = 0%nat
    | Some p =>
        dict_in p cats = true
        /\ exists part, colons part = 0%nat /\ name = (p ++ ":" ++ part)%string
    end.

(** *** Invariants of the ledger *)

(** A transaction whose month is a key and whose account and category,
    when it has them, are registered in [st]; it has one of the two. *)
Definition tx_ok {A} (st : State A) (tx : Transaction A) : Prop :=
  is_key (tx_month tx)
  /\ (forall a, tx_account tx = Some a -> dict_in a (accounts st) = true)
  /\ (forall c, tx_category tx = Some c -> dict_in c (categories st) = true)
  /\ (tx_account tx <> None \/ tx_category tx <> None).

(** Account names are distinct and every type is one of the two. *)
Definition accounts_ok {A} (st : State A) : Prop :=
  NoDup (map fst (accounts st))
  /\ Forall (fun kv => snd kv = "bank" \/ snd kv = "credit") (accounts st).

(** Entries and summaries sit under month keys, entries under
    registered categories. *)
Definition months_ok {A} (st : State A) : Prop :=
  (forall m c e, lookup_entry st m c = Some e ->
     is_key m /\ dict_in c (categories st) = true)
  /\ (forall m x, month_summary st !! m = Some x -> is_key m).

(** *** Outcomes *)

(** The outcomes that report a failure: an exception, or one of the
    lines a command prints before it returns early. *)
Definition failed {A} (o : outcome A) : bool :=
  match o with
  | Raised _ => true
  | Printed [Type_must_be_bank_or_credit] => true
  | Printed [Account_exists _] => true
  | Printed [Category_not_found _] => true
  | Printed [Account_not_found _] => true
  | Printed [Both_accounts_must_exist] => true
  | Printed _ => false
  end.

(** The lines [cmd_cat] prints. *)
Definition category_line {A} (l : line A) : bool :=
  match l with
  | Category_added _ | Category_exists _ => true
  | _ => false
  end.

(** *** The log replayed *)

(** The entry of [(m, c)] that the transactions of a log add up to,
    taken in order: one without account is a budget assignment and goes
    to budgeted and available, one with an account is a spend (its
    amount is negative) and goes to activity and available. *)
Definition replay_step {A} `{Amount A} (m c : string) (e : CatEntry A)
    (tx : Transaction A) : CatEntry A :=
  if String.eqb (tx_month tx) m && bool_decide (tx_category tx = Some c) then
    match tx_account tx with
    | None =>
        Build_CatEntry (budgeted e + tx_amount tx)%amt (activity e)
          (available e + tx_amount tx)%amt
    | Some _ =>
        Build_CatEntry (budgeted e) (activity e + tx_amount tx)%amt
          (available e + tx_amount tx)%amt
    end
  else e.

Definition replay {A} `{Amount A} (m c : string) (log : list (Transaction A))
    : CatEntry A :=
  fold_left (replay_step m c) log zero_entry.

(** *** The category tree *)

(** The names [visit] lists, without their indentation. *)
Fixpoint walk (depth : nat) (cats : list (string * option string))
    (parent : option string) : list string :=
  match depth with
  | O => []
  | S d => flat_map (fun name => name :: walk d cats (Some name)) (tree_children cats parent)
  end.

(** A text that does not begin with whitespace: [lstrip] leaves it. *)
Definition no_lead (s : string) : Prop :=
  match s with
  | String c _ => PyStr.isspace c = false
  | EmptyString => True
  end.

(** How [cmd_cat] builds the dictionary: every path is new when it is
    added; a root is one stripped part, a child is the path of a
    category added before, a colon and one part. *)
Inductive forest : list (string * option string) -> Prop :=
| forest_nil : forest []
| forest_root cats part :
    forest cats -> dict_in part cats = false ->
    no_lead part -> colons part = 0%nat ->
    forest (cats ++ [(part, None)])
| forest_child cats p part :
    forest cats -> dict_in (p ++ ":" ++ part) cats = false ->
    dict_in p cats = true -> colons part = 0%nat ->
    forest (cats ++ [((p ++ ":" ++ part)%string, Some p)]).

(** How often [q] is the parent [px]; how often a name of [l] is. *)
Definition hits (px q : option string) : nat :=
  if bool_decide (q = px) then 1 else 0.
Definition occurrences (px : option string) (l : list string) : nat :=
  sum_list (map (fun n => hits px (Some n)) l).

(** How many times the walk from [q] with [d] levels to go visits the
    parent [px] with a level left for its children. *)
Definition walk_hits (cats : list (string * option string)) (px : option string)
    (d : nat) (q : option string) : nat :=
  match d with
  | O => 0
  | S d' => hits px q + occurrences px (walk d' cats q)
  end.

(** A text of whitespace only: [lstrip] leaves nothing of it. *)
Definition blank (s : string) : Prop := PyStr.lstrip s = "".

(** *** The summary *)

(** The lines [cmd_show] prints. *)
Inductive show_line (A : Type) :=
| Show_text (s : string)
| Show_account (name typ : string)     (* f"  {name}: {info['type']}" *)
| Show_category (indented : string)    (* f"  {c}" *)
| Show_month (m : string) (ready : A). (* f"  {m}: {ready:.2f}" *)
Arguments Show_text {A} _.
Arguments Show_account {A} _ _.
Arguments Show_category {A} _.
Arguments Show_month {A} _ _.

(** [sorted(items)] for the items of a dictionary: tuples compare by
    their first component, the key, and no two items share a key. *)
Fixpoint insert_item {A} (x : string * A) (l : list (string * A)) : list (string * A) :=
  match l with
  | [] => [x]
  | y :: l' => if String.leb (fst x) (fst y) then x :: l else y :: insert_item x l'
  end.

Definition sorted_items {A} (d : gmap string A) : list (string * A) :=
  foldr insert_item [] (map_to_list d).

(** [cmd_show]: it reads the state and prints; [print("\nCategories:")]
    is an empty line and the heading.  The value is what it has printed
    and, when [sorted_categories] raises, the exception that ends it. *)
Definition cmd_show {A} (st : State A) : list (show_line A) * option exn :=
  let head :=
    [Show_text "Accounts:"]
    ++ map (fun kv => Show_account (fst kv) (snd kv)) (accounts st)
    ++ [Show_text ""; Show_text "Categories:"] in
  match sorted_categories st with
  | inl e => (head, Some e)
  | inr names =>
      (head
       ++ map Show_category names
       ++ [Show_text ""; Show_text "Month Summaries:"]
       ++ map (fun kv => Show_month (fst kv) (snd kv)) (sorted_items (month_summary st)),
       None)
  end.

(** The months among the lines of [cmd_show], with their amounts. *)
Definition shown_months {A} (out : list (show_line A)) : list (string * A) :=
  flat_map (fun l => match l with Show_month m x => [(m, x)] | _ => [] end) out.

(** The month of key [k1] is before the month of key [k2]. *)
Definition earlier (k1 k2 : string) : Prop :=
  exists y1 mo1 y2 mo2 : Z,
    (1 <= y1 <= 9999)%Z /\ (1 <= mo1 <= 12)%Z /\ k1 = Datetime.strftime_Ym (y1, mo1)
    /\ (1 <= y2 <= 9999)%Z /\ (1 <= mo2 <= 12)%Z /\ k2 = Datetime.strftime_Ym (y2, mo2)
    /\ (y1 < y2 \/ (y1 = y2 /\ mo1 < mo2))%Z.


(** The level a call [visit(parent, _)] lists: the roots are on level
    0, the children of a path with [k] colons on level [k + 1]. *)
Definition level (parent : option string) : nat :=
  match parent with
  | Some p => S (colons p)
  | None => 0
  end.

(** The line of a category in the listing: two spaces per colon of the
    path, then the path. *)
Definition indented (name : string) : string := (pad (colons name) ++ name)%string.

(** The calls of [visit] fit in [frames] frames: one for [visit(None)],
    and for a path with [k] colons the [k + 1] calls that lead to it
    and the call that looks for its children. *)
Definition nesting_fits (frames : nat) (cats : list (string * option string)) : bool :=
  (0 <? frames)%nat && forallb (fun kv => (colons (fst kv) + 2 <=? frames)%nat) cats.

(** ** Amounts that add without rounding *)

(** The value of a double in units of [2^-1074], the spacing of the
    smallest doubles: every finite double is a whole number of them. *)
Definition sf_units (x : spec_float) : option Z :=
  match x with
  | S754_zero _ => Some 0%Z
  | S754_finite s m e => Some (cond_Zopp s (Zpos m) * 2 ^ (e + 1074))%Z
  | S754_infinity _ | S754_nan => None
  end.

(** The double [x] is [n] times [2^u]. *)
Definition multiple_of (u : Z) (x : float) (n : Z) : Prop :=
  sf_units (Prim2SF x) = Some (n * 2 ^ (u + 1074))%Z.

(** The amounts a list of commands assigns and spends. *)
Definition amount_of {A} (c : command A) : list A :=
  match c with
  | Bud _ _ amt => [amt]
  | Spend _ _ _ amt => [amt]
  | _ => []
  end.
Definition amounts {A} (cs : list (command A)) : list A := flat_map amount_of cs.

(** The sum of the absolute values. *)
Definition magnitude (ns : list Z) : Z := foldr (fun n t => (Z.abs n + t)%Z) 0%Z ns.

(** Any double but [-0.0]. *)
Definition not_neg_zero (x : float) : Prop := Prim2SF x <> S754_zero true.

(** An entry whose fields are [nb], [na] and [nb + na] times [2^u] with
    [|nb| + |na| <= t], none of them [-0.0]. *)
Definition entry_within (u t : Z) (e : CatEntry float) : Prop :=
  exists nb na : Z,
    multiple_of u (budgeted e) nb /\ multiple_of u (activity e) na
    /\ multiple_of u (available e) (nb + na)
    /\ (Z.abs nb + Z.abs na <= t)%Z
    /\ not_neg_zero (budgeted e) /\ not_neg_zero (activity e)
    /\ not_neg_zero (available e).

(** A ledger all of whose entries are such. *)
Definition entries_within (u t : Z) (st : State float) : Prop :=
  forall m c e, lookup_entry st m c = Some e -> entry_within u t e.

(** * Properties *)

(** ** Texts *)

Lemma string_app_assoc (a b c : string) : ((a ++ b) ++ c = a ++ (b ++ c))%string.
Proof.
  induction a as [|x a IH]; [reflexivity|].
  change (String x ((a ++ b) ++ c) = String x (a ++ (b ++ c)))%string.
  f_equal. exact IH.
Qed.

(** ** Entries: lookups after an update *)

Lemma lookup_entry_updated_eq {A} (st : State A) m c e tx :
  lookup_entry (updated st m c e tx) m c = Some e.
Proof.
  unfold lookup_entry, lookup2, updated; simpl.
  rewrite lookup_insert_eq; simpl. apply lookup_insert_eq.
Qed.

Lemma lookup_entry_updated_ne {A} (st : State A) m c e tx m' c' :
  (m', c') <> (m, c) ->
  lookup_entry (updated st m c e tx) m' c' = lookup_entry st m' c'.
Proof.
  intros Hne. unfold lookup_entry, lookup2, updated; simpl.
  destruct (decide (m = m')) as [<-|Hm].
  - rewrite lookup_insert_eq; simpl.
    assert (c <> c') as Hc by (intros <-; apply Hne; reflexivity).
    rewrite lookup_insert_ne by exact Hc.
    destruct (category_month st !! m); simpl; [reflexivity|apply lookup_empty].
  - rewrite lookup_insert_ne by exact Hm. reflexivity.
Qed.

Lemma store_get_entry {A} `{Amount A} (st : State A) m c e' tx :
  append_transaction (store_entry (snd (get_cat_entry st m c)) m c e') tx
  = updated st m c e' tx.
Proof.
  unfold append_transaction, store_entry, get_cat_entry, updated,
    set_category_month; simpl.
  rewrite lookup_insert_eq; simpl.
  rewrite insert_insert_eq, insert_insert_eq. reflexivity.
Qed.

Lemma fst_get_cat_entry {A} `{Amount A} (st : State A) m c :
  fst (get_cat_entry st m c) = entry_at st m c.
Proof.
  unfold get_cat_entry, entry_at, lookup_entry, lookup2; simpl.
  destruct (category_month st !! m) as [cm|]; simpl; [reflexivity|].
  rewrite lookup_empty. reflexivity.
Qed.

(** ** [cmd_bud] and [cmd_spend] on their success path *)

Lemma cmd_bud_ok {A} `{Amount A} (st : State A) mon cat amt m :
  parse_month mon = inr m ->
  dict_in cat (categories st) = true ->
  cmd_bud st mon cat amt =
    (updated st m cat
       (Build_CatEntry (budgeted (entry_at st m cat) + amt)%amt
          (activity (entry_at st m cat))
          (available (entry_at st m cat) + amt)%amt)
       (Build_Transaction m None (Some cat) amt),
     Printed [Budgeted amt cat m]).
Proof.
  intros Hm Hc. unfold cmd_bud. rewrite Hm, Hc. cbn [negb].
  pose proof (fst_get_cat_entry st m cat) as Hfst.
  pose proof (fun e' tx => store_get_entry st m cat e' tx) as Hsnd.
  destruct (get_cat_entry st m cat) as [e st1]. cbn [fst snd] in Hfst, Hsnd.
  subst e. rewrite Hsnd. reflexivity.
Qed.

Lemma cmd_spend_ok {A} `{Amount A} (st : State A) mon acc cat amt m :
  parse_month mon = inr m ->
  dict_in acc (accounts st) = true ->
  dict_in cat (categories st) = true ->
  cmd_spend st mon acc cat amt =
    (updated st m cat
       (Build_CatEntry (budgeted (entry_at st m cat))
          (activity (entry_at st m cat) - amt)%amt
          (available (entry_at st m cat) - amt)%amt)
       (Build_Transaction m (Some acc) (Some cat) (- amt)%amt),
     Printed [Spent amt acc cat m]).
Proof.
  intros Hm Ha Hc. unfold cmd_spend. rewrite Hm, Ha, Hc. cbn [negb].
  pose proof (fst_get_cat_entry st m cat) as Hfst.
  pose proof (fun e' tx => store_get_entry st m cat e' tx) as Hsnd.
  destruct (get_cat_entry st m cat) as [e st1]. cbn [fst snd] in Hfst, Hsnd.
  subst e. rewrite Hsnd. reflexivity.
Qed.

(** C2. [cmd_spend] (record_spend).  With a valid month text [mon]
    (key [m]) and a registered account and category, the entry of
    [(m, cat)] keeps its budgeted and has its activity and its available
    each decreased by exactly [amt] (the entry counts as all zero when
    there is none yet), every other entry and the rest of the state are
    as before, and exactly one transaction, [{m, acc, cat, -amt}], is
    appended.  With an unknown account or an unknown category the state
    returned is the state received, whatever the month text, and the
    call reports the error: the month's [ValueError] when the text is
    no month, else the "not found" line of the account or, the account
    being known, of the category. *)
Theorem cmd_spend_spec {A} `{Amount A} (st : State A) (mon acc cat : string) (amt : A) :
  (forall m,
      parse_month mon = inr m ->
      dict_in acc (accounts st) = true ->
      dict_in cat (categories st) = true ->
      let st' := fst (cmd_spend st mon acc cat amt) in
      let e := entry_at st m cat in
      lookup_entry st' m cat =
        Some (Build_CatEntry (budgeted e) (activity e - amt)%amt (available e - amt)%amt)
      /\ (forall m' c', (m', c') <> (m, cat) ->
            lookup_entry st' m' c' = lookup_entry st m' c')
      /\ transactions st' =
           transactions st ++ [Build_Transaction m (Some acc) (Some cat) (- amt)%amt]
      /\ accounts st' = accounts st
      /\ categories st' = categories st
      /\ month_summary st' = month_summary st
      /\ snd (cmd_spend st mon acc cat amt) = Printed [Spent amt acc cat m])
  /\ (dict_in acc (accounts st) = false \/ dict_in cat (categories st) = false ->
      fst (cmd_spend st mon acc cat amt) = st
      /\ snd (cmd_spend st mon acc cat amt) =
           match parse_month mon with
           | inl e => Raised e
           | inr _ =>
               if dict_in acc (accounts st) then Printed [Category_not_found cat]
               else Printed [Account_not_found acc]
           end).
Proof.
  split.
  - intros m Hm Ha Hc. rewrite (cmd_spend_ok st mon acc cat amt m Hm Ha Hc); simpl.
    split; [apply lookup_entry_updated_eq|].
    split; [intros m' c' Hne; apply lookup_entry_updated_ne; exact Hne|].
    repeat split.
  - intros Hunknown. unfold cmd_spend.
    destruct (parse_month mon) as [e|m]; [split; reflexivity|].
    destruct (dict_in acc (accounts st)) eqn:Ha; simpl; [|split; reflexivity].
    destruct Hunknown as [Hf|Hf]; [discriminate Hf|].
    rewrite Hf; simpl. split; reflexivity.
Qed.

(** ** Sequences of commands *)

Lemma run_cons {A} `{Amount A} (st : State A) c cs :
  run st (c :: cs) = run (fst (run_command st c)) cs.
Proof. reflexivity. Qed.

Lemma run_app {A} `{Amount A} (st : State A) cs1 cs2 :
  run st (cs1 ++ cs2) = run (run st cs1) cs2.
Proof. unfold run. apply fold_left_app. Qed.

Lemma entry_at_updated_eq {A} `{Amount A} (st : State A) m c e tx :
  entry_at (updated st m c e tx) m c = e.
Proof. unfold entry_at. rewrite lookup_entry_updated_eq. reflexivity. Qed.

(** The entry of [(m, cat)] and the log after a run of [cmd_bud] calls
    into [(m, cat)], from any state. *)
Lemma run_bud_calls {A} `{Amount A} (cat m : string) (calls : list (string * A)) :
  forall st : State A,
    dict_in cat (categories st) = true ->
    Forall (fun ma => parse_month (fst ma) = inr m) calls ->
    let st' := run st (map (fun ma => Bud (fst ma) cat (snd ma)) calls) in
    budgeted (entry_at st' m cat)
      = fold_left a_add (map snd calls) (budgeted (entry_at st m cat))
    /\ activity (entry_at st' m cat) = activity (entry_at st m cat)
    /\ available (entry_at st' m cat)
      = fold_left a_add (map snd calls) (available (entry_at st m cat))
    /\ (calls <> [] -> is_Some (lookup_entry st' m cat))
    /\ transactions st'
      = transactions st
        ++ map (fun ma => Build_Transaction m None (Some cat) (snd ma)) calls.
Proof.
  induction calls as [|[mon a] calls IH]; intros st Hcat Hmon; cbn zeta.
  - cbn. rewrite app_nil_r. repeat split. intros Hne; contradiction Hne; reflexivity.
  - inversion Hmon as [|? ? Hm Hrest]; subst. cbn [fst] in Hm.
    cbn [map fst snd]. rewrite run_cons. cbn [run_command].
    rewrite (cmd_bud_ok st mon cat a m Hm Hcat). cbn [fst].
    set (st1 := updated st m cat _ _).
    assert (dict_in cat (categories st1) = true) as Hcat1 by exact Hcat.
    destruct (IH st1 Hcat1 Hrest) as (Hb & Hact & Hav & _ & Htx).
    rewrite Hb, Hact, Hav, Htx. unfold st1.
    rewrite entry_at_updated_eq. cbn [budgeted activity available fold_left].
    repeat split.
    + intros _. destruct calls as [|c calls].
      * cbn. rewrite lookup_entry_updated_eq. eexists; reflexivity.
      * destruct (IH st1 Hcat1 Hrest) as (_ & _ & _ & Hsome & _).
        apply Hsome. discriminate.
    + cbn [transactions updated]. rewrite <- app_assoc. reflexivity.
Qed.

(** C3. A sequence of [cmd_bud] (assign_to_category) calls with amounts
    a1..an, all into the registered category [cat] and, whatever the
    month texts, the same month [m], from a state whose [(m, cat)] entry
    is absent or all zero: afterwards the entry's available and its
    budgeted are both [((0 + a1) + a2) + ... + an], its activity is
    still zero, the entry exists as soon as there was one call, and the
    log has grown by exactly one transaction [{m, None, cat, ai}] per
    call, in order. *)
Theorem bud_sequence_sum {A} `{Amount A} (st : State A) (cat m : string)
    (calls : list (string * A)) :
  dict_in cat (categories st) = true ->
  Forall (fun ma => parse_month (fst ma) = inr m) calls ->
  lookup_entry st m cat = None \/ lookup_entry st m cat = Some zero_entry ->
  let st' := run st (map (fun ma => Bud (fst ma) cat (snd ma)) calls) in
  let total := fold_left a_add (map snd calls) 0%amt in
  available (entry_at st' m cat) = total
  /\ budgeted (entry_at st' m cat) = total
  /\ activity (entry_at st' m cat) = 0%amt
  /\ (calls <> [] ->
      lookup_entry st' m cat = Some (Build_CatEntry total 0%amt total))
  /\ transactions st'
     = transactions st
       ++ map (fun ma => Build_Transaction m None (Some cat) (snd ma)) calls.
Proof.
  intros Hcat Hmon Hzero st' total.
  assert (entry_at st m cat = zero_entry) as Hz.
  { unfold entry_at. destruct Hzero as [-> | ->]; reflexivity. }
  destruct (run_bud_calls cat m calls st Hcat Hmon) as (Hb & Hact & Hav & Hsome & Htx).
  fold st' in Hb, Hact, Hav, Hsome, Htx.
  rewrite Hz in Hb, Hact, Hav. cbn [zero_entry budgeted activity available] in Hb, Hact, Hav.
  fold total in Hb, Hav.
  repeat split; try assumption.
  intros Hne. destruct (Hsome Hne) as [e He].
  unfold entry_at in Hb, Hact, Hav. rewrite He in Hb, Hact, Hav |- *.
  destruct e as [b ac av]. simpl in Hb, Hact, Hav.
  rewrite Hb, Hact, Hav. reflexivity.
Qed.

Lemma bud_sequence_sum_witness :
  let st : State float := Build_State [] [("Food", None)] ∅ ∅ [] in
  let calls := [("Mar 2024", 0.1%float); ("2024/3", 0.2%float)] in
  let st' := run st (map (fun ma => Bud (fst ma) "Food" (snd ma)) calls) in
  let total := fold_left a_add (map snd calls) 0%amt in
  available (entry_at st' "2024-03" "Food") = total
  /\ budgeted (entry_at st' "2024-03" "Food") = total
  /\ activity (entry_at st' "2024-03" "Food") = 0%amt
  /\ (calls <> [] ->
      lookup_entry st' "2024-03" "Food" = Some (Build_CatEntry total 0%amt total))
  /\ transactions st'
     = transactions st
       ++ map (fun ma => Build_Transaction "2024-03" None (Some "Food") (snd ma)) calls.
Proof.
  intros st calls.
  apply (bud_sequence_sum st "Food" "2024-03" calls).
  - reflexivity.
  - repeat constructor.
  - left. reflexivity.
Defined.

Lemma cmd_spend_spec_witness :
  let st : State float := Build_State [("Checking", "bank")] [("Food", None)] ∅ ∅ [] in
  lookup_entry (fst (cmd_spend st "2024-03" "Checking" "Food" 50%float)) "2024-03" "Food"
    = Some (Build_CatEntry 0%float (0 - 50)%float (0 - 50)%float)
  /\ fst (cmd_spend st "2024-03" "Savings" "Food" 50%float) = st.
Proof.
  intros st. split.
  - destruct (cmd_spend_spec st "2024-03" "Checking" "Food" 50%float) as [Hok _].
    destruct (Hok "2024-03" eq_refl eq_refl eq_refl) as [He _]. exact He.
  - destruct (cmd_spend_spec st "2024-03" "Savings" "Food" 50%float) as [_ Herr].
    apply Herr. left. reflexivity.
Defined.

(** ** Transfers *)

Lemma cmd_xfer_ok {A} `{Amount A} (st : State A) mon src dst amt m :
  parse_month mon = inr m ->
  dict_in src (accounts st) = true ->
  dict_in dst (accounts st) = true ->
  cmd_xfer st mon src dst amt =
    (Build_State (accounts st) (categories st) (month_summary st) (category_month st)
       (transactions st
        ++ [Build_Transaction m (Some src) None (- amt)%amt;
            Build_Transaction m (Some dst) None amt]),
     Printed [Transferred amt src dst m]).
Proof.
  intros Hm Hs Hd. unfold cmd_xfer. rewrite Hm, Hs, Hd. cbn [negb orb].
  unfold append_transaction; cbn. rewrite <- app_assoc. reflexivity.
Qed.

Lemma float_neq (x y : float) : Prim2SF x <> Prim2SF y -> x <> y.
Proof. intros Hne ->. apply Hne. reflexivity. Qed.

(** A finite double and its negation add up to [+0.0]. *)
Lemma float_neg_add_cancel (x : float) :
  PyFloat.finite x = true -> (- x + x)%float = 0%float.
Proof.
  intros Hfin. apply Prim2SF_inj. rewrite add_spec, opp_spec.
  unfold PyFloat.finite in Hfin.
  destruct (Prim2SF x) as [s|s| |s m e]; try discriminate Hfin.
  - destruct s; reflexivity.
  - unfold SF64add, SFadd, SFopp, shl_align.
    rewrite Z.min_id, Z.sub_diag. cbn [fst].
    assert (cond_Zopp (negb s) (Z.pos m) + cond_Zopp s (Z.pos m) = 0)%Z as ->.
    { destruct s; cbn [negb cond_Zopp]; lia. }
    reflexivity.
Qed.

(** An infinity or NaN and its negation add up to NaN. *)
Lemma float_neg_add_nan (x : float) :
  PyFloat.finite x = false -> (- x + x)%float = nan.
Proof.
  intros Hfin. apply Prim2SF_inj. rewrite add_spec, opp_spec.
  unfold PyFloat.finite in Hfin.
  destruct (Prim2SF x) as [s|s| |s m e]; try discriminate Hfin.
  - destruct s; reflexivity.
  - reflexivity.
Qed.

(** C4, amended.  [cmd_xfer] (record_transfer) with a valid month text
    and two registered accounts leaves [category_month],
    [month_summary], [accounts] and [categories] as they were; all it
    does is to append two transactions, [-amt] against [src] and [amt]
    against [dst], both without category.  The two amounts are
    opposite; their float sum is zero when [amt] is finite, and NaN
    when it is an infinity or NaN, which the float parser of the
    command line lets through. *)
Theorem cmd_xfer_frame (st : State float) (mon src dst : string) (amt : float) (m : string) :
  parse_month mon = inr m ->
  dict_in src (accounts st) = true ->
  dict_in dst (accounts st) = true ->
  let st' := fst (cmd_xfer st mon src dst amt) in
  let tx_out := Build_Transaction m (Some src) None (- amt)%float in
  let tx_in := Build_Transaction m (Some dst) None amt in
  category_month st' = category_month st
  /\ month_summary st' = month_summary st
  /\ accounts st' = accounts st
  /\ categories st' = categories st
  /\ transactions st' = transactions st ++ [tx_out; tx_in]
  /\ tx_amount tx_out = (- tx_amount tx_in)%float
  /\ (tx_amount tx_out + tx_amount tx_in)%float
     = (if PyFloat.finite amt then 0 else nan)%float.
Proof.
  intros Hm Hs Hd. rewrite (cmd_xfer_ok st mon src dst amt m Hm Hs Hd).
  cbn [fst]. repeat split. cbn [tx_amount].
  destruct (PyFloat.finite amt) eqn:Hfin.
  - apply float_neg_add_cancel. exact Hfin.
  - apply float_neg_add_nan. exact Hfin.
Qed.

Lemma cmd_xfer_frame_witness :
  let st : State float :=
    Build_State [("Checking", "bank"); ("Visa", "credit")] [] ∅ ∅ [] in
  let st' := fst (cmd_xfer st "March 2024" "Checking" "Visa" 12.5%float) in
  let tx_out := Build_Transaction "2024-03" (Some "Checking") None (- 12.5)%float in
  let tx_in := Build_Transaction "2024-03" (Some "Visa") None 12.5%float in
  category_month st' = category_month st
  /\ month_summary st' = month_summary st
  /\ accounts st' = accounts st
  /\ categories st' = categories st
  /\ transactions st' = transactions st ++ [tx_out; tx_in]
  /\ tx_amount tx_out = (- tx_amount tx_in)%float
  /\ (tx_amount tx_out + tx_amount tx_in)%float = 0%float.
Proof.
  intros st.
  apply (cmd_xfer_frame st "March 2024" "Checking" "Visa" 12.5%float "2024-03");
    reflexivity.
Defined.

(** C4 as stated fails for the amount [inf], which [float] reads from
    the command line: the two transactions carry [-inf] and [inf], and
    their sum is NaN, not zero. *)
Lemma cmd_xfer_infinite_amount :
  let st : State float :=
    Build_State [("Checking", "bank"); ("Visa", "credit")] [] ∅ ∅ [] in
  let st' := fst (cmd_xfer st "March 2024" "Checking" "Visa" infinity) in
  parse_month "March 2024" = inr "2024-03"
  /\ dict_in "Checking" (accounts st) = true
  /\ dict_in "Visa" (accounts st) = true
  /\ transactions st'
     = [Build_Transaction "2024-03" (Some "Checking") None neg_infinity;
        Build_Transaction "2024-03" (Some "Visa") None infinity]
  /\ (neg_infinity + infinity)%float = nan
  /\ (neg_infinity + infinity)%float <> 0%float.
Proof.
  cbn zeta. repeat split; try (vm_compute; reflexivity).
  apply float_neq. vm_compute. discriminate.
Qed.

(** ** Categories *)

(** C8. [cmd_cat] (add_category) with ["A:B:C"] on a state without
    categories creates exactly [A], [A:B] and [A:B:C], in that order,
    with parents none, [A] and [A:B], and says so for each; run again on
    the state it left, it creates nothing (the state is returned as it
    is) and prints one line only, that the leaf [A:B:C] exists
    already. *)
Theorem cmd_cat_path_twice {A} (st : State A) :
  categories st = [] ->
  let first := cmd_cat st "A:B:C" in
  first =
    (set_categories st [("A", None); ("A:B", Some "A"); ("A:B:C", Some "A:B")],
     Printed [Category_added "A"; Category_added "A:B"; Category_added "A:B:C"])
  /\ cmd_cat (fst first) "A:B:C" = (fst first, Printed [Category_exists "A:B:C"]).
Proof.
  intros Hempty. unfold cmd_cat. rewrite Hempty. split; reflexivity.
Qed.

Lemma cmd_cat_path_twice_witness :
  let first := cmd_cat (@fresh_state float) "A:B:C" in
  first =
    (set_categories fresh_state
       [("A", None); ("A:B", Some "A"); ("A:B:C", Some "A:B")],
     Printed [Category_added "A"; Category_added "A:B"; Category_added "A:B:C"])
  /\ cmd_cat (fst first) "A:B:C" = (fst first, Printed [Category_exists "A:B:C"]).
Proof. apply (cmd_cat_path_twice (@fresh_state float)). reflexivity. Defined.

(** ** Persistence *)

(** C9. [load_state] without a state file: [DATA] is a [str], the call
    [DATA.exists()] raises [AttributeError], and no state is returned. *)
Theorem load_state_no_file {A} :
  @load_state A None = inl (AttributeError "str" "exists").
Proof. reflexivity. Qed.

(** With a [pathlib.Path] for [DATA] the same function returns the fresh
    state, its five collections empty. *)
Lemma load_state_from_path_no_file {A} (p : string) :
  @load_state_from A (PyPath p) None = inr (Build_State [] [] ∅ ∅ []).
Proof. reflexivity. Qed.

(** ** End to end *)

(** C6. The five commands of the scenario leave the entry
    [{budgeted: 200, activity: -50, available: 150}] for Food in 2024-03
    and 500 to assign.  The report for 2024-03 then raises [NameError]
    where it reads [m], having printed nothing and changed nothing.
    The rest of its body, run for the key 2024-03, ends on
    "Remaining TBB" [500 - 200 = 300]. *)
Theorem scenario_report_raises :
  let st : State float :=
    run fresh_state
      [Acc "Checking" "bank"; Cat "Food"; Tbb "2024-03" 500%float;
       Bud "2024-03" "Food" 200%float; Spend "2024-03" "Checking" "Food" 50%float] in
  lookup_entry st "2024-03" "Food" = Some (Build_CatEntry 200%float (-50)%float 150%float)
  /\ month_summary st !! "2024-03" = Some 500%float
  /\ cmd_rep st "2024-03" = (st, Raised (NameError "m"))
  /\ parse_month "2024-03" = inr "2024-03"
  /\ exists out,
       snd (report st "2024-03") = Printed out
       /\ last out = Some (Remaining_tbb 300%float).
Proof.
  cbn zeta. split; [vm_compute; reflexivity|]. split; [vm_compute; reflexivity|].
  split; [vm_compute; reflexivity|]. split; [vm_compute; reflexivity|].
  eexists. split; vm_compute; reflexivity.
Qed.

(** ** Rollover *)

Lemma lookup2_default {A} (cm : gmap string (gmap string (CatEntry A))) m c :
  default ∅ (cm !! m) !! c = lookup2 cm m c.
Proof.
  unfold lookup2. destruct (cm !! m); simpl; [reflexivity|apply lookup_empty].
Qed.

Lemma lookup2_setdefault_month {A} (cm : gmap string (gmap string (CatEntry A))) x m c :
  lookup2 (setdefault_month x cm) m c = lookup2 cm m c.
Proof.
  unfold setdefault_month. destruct (cm !! x) eqn:Hx; [reflexivity|].
  unfold lookup2. destruct (decide (x = m)) as [<-|Hne].
  - rewrite lookup_insert_eq, Hx; simpl. apply lookup_empty.
  - rewrite lookup_insert_ne by exact Hne. reflexivity.
Qed.

Lemma lookup2_insert_eq {A} (cm : gmap string (gmap string (CatEntry A))) m c e :
  lookup2 (<[m := <[c := e]> (default ∅ (cm !! m))]> cm) m c = Some e.
Proof. unfold lookup2. rewrite lookup_insert_eq; simpl. apply lookup_insert_eq. Qed.

Lemma lookup2_insert_ne {A} (cm : gmap string (gmap string (CatEntry A))) m c e m' c' :
  (m', c') <> (m, c) ->
  lookup2 (<[m := <[c := e]> (default ∅ (cm !! m))]> cm) m' c' = lookup2 cm m' c'.
Proof.
  intros Hne. destruct (decide (m = m')) as [<-|Hm].
  - assert (c <> c') as Hc by (intros <-; apply Hne; reflexivity).
    unfold lookup2 at 1. rewrite lookup_insert_eq; simpl.
    rewrite lookup_insert_ne by exact Hc. apply lookup2_default.
  - unfold lookup2. rewrite lookup_insert_ne by exact Hm. reflexivity.
Qed.

Lemma fold_left_pointwise {B C} (g h : B -> C -> B) (l : list C) :
  (forall b c, g b c = h b c) -> forall b, fold_left g l b = fold_left h l b.
Proof.
  intros Hgh. induction l as [|c l IH]; intros b; [reflexivity|].
  cbn [fold_left]. rewrite Hgh. apply IH.
Qed.

Section Roll.
Context {A : Type} `{Amount A} (f t : string).

Lemma roll_step_eq cm o c :
  roll_step f t (cm, o) c
  = (<[t := <[c := rolled_entry f t cm c]> (default ∅ (cm !! t))]> cm, roll_charge f cm o c).
Proof.
  unfold roll_step, rolled_entry, roll_charge, roll_available. rewrite !lookup2_default.
  destruct (lookup2 cm f c); reflexivity.
Qed.

Lemma roll_fold (cats : list string) :
  forall cm o,
    NoDup cats ->
    let r := fold_left (roll_step f t) cats (cm, o) in
    (forall c, In c cats -> lookup2 (fst r) t c = Some (rolled_entry f t cm c))
    /\ (forall m c, m <> t \/ ~ In c cats -> lookup2 (fst r) m c = lookup2 cm m c)
    /\ snd r = fold_left (roll_charge f cm) cats o.
Proof.
  induction cats as [|c cats IH]; intros cm o Hnd; cbn zeta.
  - cbn. split; [intros c []|]. split; reflexivity.
  - apply NoDup_cons in Hnd as [Hc Hnd]. rewrite list_elem_of_In in Hc.
    cbn [fold_left]. rewrite roll_step_eq.
    set (cm1 := <[t := <[c := rolled_entry f t cm c]> (default ∅ (cm !! t))]> cm).
    destruct (IH cm1 (roll_charge f cm o c) Hnd) as (Hin & Hout & Ho).
    assert (forall m c', (m, c') <> (t, c) -> lookup2 cm1 m c' = lookup2 cm m c') as Hstep.
    { intros m c' Hne. apply lookup2_insert_ne. exact Hne. }
    assert (forall c', c' <> c -> roll_available f cm1 c' = roll_available f cm c') as Hav.
    { intros c' Hne. unfold roll_available. rewrite Hstep; [reflexivity|congruence]. }
    split; [|split].
    + intros c' [<-|Hc'].
      * rewrite Hout by (right; exact Hc). apply lookup2_insert_eq.
      * rewrite (Hin c' Hc'). f_equal. unfold rolled_entry.
        assert (c' <> c) as Hne by (intros ->; exact (Hc Hc')).
        rewrite (Hav c' Hne), Hstep; [reflexivity|congruence].
    + intros m c' Hm. rewrite Hout.
      * apply Hstep. destruct Hm as [Hm|Hm]; [congruence|].
        intros [= _ ->]. apply Hm. left. reflexivity.
      * destruct Hm as [Hm|Hm]; [left; exact Hm|right].
        intros Hin'. apply Hm. right. exact Hin'.
    + rewrite Ho. cbn [fold_left]. clear -Hc Hav. revert Hc.
      generalize (roll_charge f cm o c) as o'. 
      induction cats as [|c' cats IHc]; intros o' Hc; [reflexivity|].
      cbn [fold_left]. 
      assert (c' <> c) as Hne by (intros ->; apply Hc; left; reflexivity).
      unfold roll_charge at 2 4. rewrite (Hav c' Hne). apply IHc.
      intros Hin. apply Hc. right. exact Hin.
Qed.

End Roll.

(** C1. [cmd_roll] (roll_forward) from month [f] to month [t], both
    given by valid texts, the category names being the distinct keys of
    [categories].  For every registered category [c] the destination
    entry [(t, c)] exists afterwards; its budgeted and activity are what
    they were (zero when the entry was absent) and its available has
    grown by [carry = max(available of (f, c), 0)], a missing source
    entry counting as available 0.  The destination's ready_to_assign
    ends at its old value minus the overspend, the sum over the
    categories, in their order, of [-available] for the negative source
    availables; a missing destination summary counts as 0, so that it
    ends at [0 - overspend]. *)
Theorem cmd_roll_spec {A} `{Amount A} (st : State A) (frm to f t : string) :
  parse_month frm = inr f ->
  parse_month to = inr t ->
  NoDup (map fst (categories st)) ->
  let st' := fst (cmd_roll st frm to) in
  let cats := map fst (categories st) in
  (forall c, In c cats ->
     let dest := entry_at st t c in
     let carry := py_max (source_available st f c) 0%amt in
     lookup_entry st' t c
     = Some (Build_CatEntry (budgeted dest) (activity dest) (available dest + carry)%amt))
  /\ month_summary st' !! t
     = Some (default 0%amt (month_summary st !! t) - overspend_of st f cats)%amt
  /\ (month_summary st !! t = None ->
      month_summary st' !! t = Some (0 - overspend_of st f cats)%amt).
Proof.
  intros Hf Ht Hnd st' cats.
  assert (Hms : month_summary st' !! t
     = Some (default 0%amt (month_summary st !! t) - overspend_of st f cats)%amt
     /\ forall c, In c cats ->
     lookup_entry st' t c
     = Some (Build_CatEntry (budgeted (entry_at st t c)) (activity (entry_at st t c))
          (available (entry_at st t c) + py_max (source_available st f c) 0%amt)%amt)).
  { unfold st', cmd_roll. rewrite Hf, Ht. fold cats.
    set (cm0 := setdefault_month t (setdefault_month f (category_month st))).
    destruct (roll_fold f t cats cm0 0%amt Hnd) as (Hin & _ & Ho).
    destruct (fold_left (roll_step f t) cats (cm0, 0%amt)) as [cm' o'].
    cbn [fst snd] in Hin, Ho. cbn [fst set_month_summary set_category_month month_summary].
    assert (forall m c, lookup2 cm0 m c = lookup_entry st m c) as H0.
    { intros m c. unfold cm0. rewrite !lookup2_setdefault_month. reflexivity. }
    split.
    - rewrite lookup_insert_eq. rewrite Ho. do 2 f_equal.
      unfold overspend_of, source_available, entry_at.
      apply fold_left_pointwise. intros o c.
      unfold roll_charge, roll_available. rewrite H0. reflexivity.
    - intros c Hc. unfold lookup_entry at 1.
      cbn [category_month set_month_summary set_category_month].
      rewrite (Hin c Hc).
      unfold rolled_entry, roll_available, source_available, entry_at.
      rewrite !H0. reflexivity. }
  destruct Hms as [Hms Hent].
  split; [exact Hent|]. split; [exact Hms|].
  intros Hnone. rewrite Hms, Hnone. reflexivity.
Qed.

Lemma cmd_roll_spec_witness :
  let st : State float :=
    run fresh_state
      [Acc "Checking" "bank"; Cat "Groceries"; Cat "Rent";
       Bud "2024-01" "Rent" 40%float;
       Spend "2024-01" "Checking" "Groceries" 15%float] in
  let st' := fst (cmd_roll st "Jan 2024" "February 2024") in
  lookup_entry st' "2024-02" "Rent"
    = Some (Build_CatEntry 0%float 0%float (0 + 40)%float)
  /\ lookup_entry st' "2024-02" "Groceries"
    = Some (Build_CatEntry 0%float 0%float (0 + 0)%float)
  /\ month_summary st' !! "2024-02" = Some (0 - (0 + 15))%float.
Proof.
  intros st.
  assert (NoDup (map fst (categories st))) as Hnd.
  { apply (bool_decide_unpack _). vm_compute. exact I. }
  destruct (cmd_roll_spec st "Jan 2024" "February 2024" "2024-01" "2024-02"
              eq_refl eq_refl Hnd) as (Hent & Hms & _).
  split; [|split].
  - exact (Hent "Rent" (or_intror (or_introl eq_refl))).
  - exact (Hent "Groceries" (or_introl eq_refl)).
  - exact Hms.
Defined.

(** ** The balance equation of an entry *)

(** A command other than the rollover either leaves [category_month]
    as it is, or is a successful [cmd_bud] or [cmd_spend] that moves the
    entry by the command's amount. *)
Lemma run_command_amounts {A} `{Amount A} (st : State A) (c : command A) :
  is_roll_forward c = false ->
  category_month (fst (run_command st c)) = category_month st
  \/ (exists m cat amt tx,
        let e := entry_at st m cat in
        amount_of c = [amt]
        /\ fst (run_command st c)
           = updated st m cat
               (Build_CatEntry (budgeted e + amt)%amt (activity e) (available e + amt)%amt) tx)
  \/ (exists m cat amt tx,
        let e := entry_at st m cat in
        amount_of c = [amt]
        /\ fst (run_command st c)
           = updated st m cat
               (Build_CatEntry (budgeted e) (activity e - amt)%amt (available e - amt)%amt) tx).
Proof.
  intros Hroll. destruct c as [name typ|spec|mon amt|mon cat amt|mon acc cat amt
                               |mon src dst amt|frm to|mon]; cbn [run_command].
  - left. unfold cmd_acc.
    destruct (negb _); [reflexivity|]. destruct (dict_in _ _); reflexivity.
  - left. unfold cmd_cat.
    destruct (fold_left _ _ _) as [[[cats ?] ?] out]. reflexivity.
  - left. unfold cmd_tbb. destruct (parse_month mon); reflexivity.
  - destruct (parse_month mon) as [e|m] eqn:Hm.
    { left. unfold cmd_bud. rewrite Hm. reflexivity. }
    destruct (dict_in cat (categories st)) eqn:Hc.
    + right. left. exists m, cat, amt, (Build_Transaction m None (Some cat) amt).
      cbn zeta. split; [reflexivity|].
      rewrite (cmd_bud_ok st mon cat amt m Hm Hc). reflexivity.
    + left. unfold cmd_bud. rewrite Hm, Hc. reflexivity.
  - destruct (parse_month mon) as [e|m] eqn:Hm.
    { left. unfold cmd_spend. rewrite Hm. reflexivity. }
    destruct (dict_in acc (accounts st)) eqn:Ha.
    2: { left. unfold cmd_spend. rewrite Hm, Ha. reflexivity. }
    destruct (dict_in cat (categories st)) eqn:Hc.
    + right. right.
      exists m, cat, amt, (Build_Transaction m (Some acc) (Some cat) (- amt)%amt).
      cbn zeta. split; [reflexivity|].
      rewrite (cmd_spend_ok st mon acc cat amt m Hm Ha Hc). reflexivity.
    + left. unfold cmd_spend. rewrite Hm, Ha, Hc. reflexivity.
  - left. unfold cmd_xfer. destruct (parse_month mon); [reflexivity|].
    destruct (_ || _); reflexivity.
  - discriminate Hroll.
  - left. reflexivity.
Qed.


Lemma balanced_entry_at {A} `{ExactAmount A} (st : State A) m c :
  balanced st ->
  available (entry_at st m c) = (budgeted (entry_at st m c) + activity (entry_at st m c))%amt.
Proof.
  intros Hb. unfold entry_at. destruct (lookup_entry st m c) as [e|] eqn:He; simpl.
  - apply (Hb m c e He).
  - symmetry. apply a_add_0_l.
Qed.

Lemma balanced_updated {A} `{Amount A} (st : State A) m c e tx :
  balanced st ->
  available e = (budgeted e + activity e)%amt ->
  balanced (updated st m c e tx).
Proof.
  intros Hb He m' c' e' Hlook.
  destruct (decide ((m', c') = (m, c))) as [[= -> ->]|Hne].
  - rewrite lookup_entry_updated_eq in Hlook. injection Hlook as <-. exact He.
  - rewrite lookup_entry_updated_ne in Hlook by exact Hne. apply (Hb m' c' e' Hlook).
Qed.

Lemma balanced_step {A} `{ExactAmount A} (st : State A) (c : command A) :
  is_roll_forward c = false ->
  balanced st -> balanced (fst (run_command st c)).
Proof.
  intros Hroll Hb.
  destruct (run_command_amounts st c Hroll) as [Hsame|[Hbud|Hspend]].
  - intros m cat e. unfold lookup_entry. rewrite Hsame. apply Hb.
  - destruct Hbud as (m & cat & amt & tx & _ & ->). cbn zeta.
    apply balanced_updated; [exact Hb|]. cbn [budgeted activity available].
    rewrite (balanced_entry_at st m cat Hb).
    set (b := budgeted _). set (a := activity _).
    rewrite <- (a_add_assoc b a amt), (a_add_comm a amt). apply a_add_assoc.
  - destruct Hspend as (m & cat & amt & tx & _ & ->). cbn zeta.
    apply balanced_updated; [exact Hb|]. cbn [budgeted activity available].
    rewrite (balanced_entry_at st m cat Hb).
    set (b := budgeted _). set (a := activity _).
    rewrite !a_sub_add_neg. symmetry. apply a_add_assoc.
Qed.

(** The bookkeeping itself keeps the equation: with an exact amount
    arithmetic (an associative and commutative [+] with [0 + x = x],
    and [x - y = x + (- y)]) every entry of every state that commands
    other than the rollover reach from the empty state has
    [available = budgeted + activity]. *)
Lemma balanced_reachable_exact {A} `{ExactAmount A} (cs : list (command A)) :
  forallb (fun c => negb (is_roll_forward c)) cs = true ->
  forall m c e,
    lookup_entry (run fresh_state cs) m c = Some e ->
    available e = (budgeted e + activity e)%amt.
Proof.
  intros Hcs. change (balanced (run (@fresh_state A) cs)).
  assert (balanced (@fresh_state A)) as Hinit.
  { intros m c e Hlook. unfold lookup_entry, lookup2 in Hlook; cbn in Hlook.
    rewrite lookup_empty in Hlook. discriminate Hlook. }
  revert Hinit. generalize (@fresh_state A) as st.
  induction cs as [|c cs IH]; intros st Hst; [exact Hst|].
  cbn [forallb] in Hcs. apply andb_true_iff in Hcs as [Hc Hcs].
  rewrite run_cons. apply (IH Hcs). apply balanced_step; [|exact Hst].
  apply negb_true_iff. exact Hc.
Qed.

(** Subtracting a double is adding its negation, bit for bit. *)
Lemma float_sub_add_opp (x y : float) : (x - y)%float = (x + - y)%float.
Proof.
  apply Prim2SF_inj. rewrite sub_spec, add_spec, opp_spec.
  unfold SF64sub, SF64add, SFsub, SFadd, SFopp.
  destruct (Prim2SF x) as [sx|sx| |sx mx ex], (Prim2SF y) as [sy|sy| |sy my ey];
    try reflexivity; destruct sx, sy; reflexivity.
Qed.

(** ** Float additions that do not round *)

Section Exact.
Local Open Scope Z_scope.

Lemma digits2_size (p : positive) : digits2_pos p = Pos.size p.
Proof. induction p as [p IH|p IH|]; cbn; rewrite ?IH; reflexivity. Qed.

Lemma digits2_log2 (p : positive) : Z.pos (digits2_pos p) = Z.log2 (Z.pos p) + 1.
Proof.
  rewrite digits2_size. destruct p as [p|p|]; cbn [Z.log2 Pos.size]; lia.
Qed.

Lemma iter_xO (m d : positive) : Z.pos (Pos.iter xO m d) = Z.pos m * 2 ^ Z.pos d.
Proof.
  induction d as [|d IH] using Pos.peano_ind.
  - cbn. lia.
  - rewrite Pos.iter_succ, Pos2Z.inj_xO, IH, Pos2Z.inj_succ, Z.pow_succ_r by lia. lia.
Qed.

Lemma iter_pos_nat {B} (f : B -> B) (p : positive) (x : B) :
  SpecFloat.iter_pos f p x = Nat.iter (Pos.to_nat p) f x.
Proof.
  revert x. induction p as [p IH|p IH|]; intros x; cbn [SpecFloat.iter_pos].
  - rewrite !IH, Pos2Nat.inj_xI.
    replace (2 * Pos.to_nat p)%nat with (Pos.to_nat p + Pos.to_nat p)%nat by lia.
    rewrite Nat.iter_succ_r, Nat.iter_add. reflexivity.
  - rewrite !IH, Pos2Nat.inj_xO.
    replace (2 * Pos.to_nat p)%nat with (Pos.to_nat p + Pos.to_nat p)%nat by lia.
    rewrite Nat.iter_add. reflexivity.
  - reflexivity.
Qed.

Lemma shr_1_even (m : Z) :
  0 <= m -> Z.even m = true ->
  shr_1 {| shr_m := m; shr_r := false; shr_s := false |}
  = {| shr_m := m / 2; shr_r := false; shr_s := false |}.
Proof.
  intros Hm Heven. destruct m as [|[p|p|]|p]; try discriminate Heven; try lia.
  - reflexivity.
  - cbn [shr_1 orb]. f_equal. rewrite Pos2Z.inj_xO, Z.mul_comm, Z.div_mul by lia.
    reflexivity.
Qed.

Lemma shr_exact (n : nat) (m : Z) :
  0 <= m -> (2 ^ Z.of_nat n | m) ->
  Nat.iter n shr_1 {| shr_m := m; shr_r := false; shr_s := false |}
  = {| shr_m := m / 2 ^ Z.of_nat n; shr_r := false; shr_s := false |}.
Proof.
  revert m. induction n as [|n IH]; intros m Hm Hdiv.
  - cbn. rewrite Z.div_1_r. reflexivity.
  - rewrite Nat.iter_succ_r.
    destruct Hdiv as [q Hq]. rewrite Nat2Z.inj_succ, Z.pow_succ_r in Hq by lia.
    assert (0 < 2 ^ Z.of_nat n) as Hpow by (apply Z.pow_pos_nonneg; lia).
    assert (0 <= q) as Hq0 by nia.
    rewrite shr_1_even; [|exact Hm|subst m; rewrite !Z.even_mul; cbn [Z.even];
                                     rewrite orb_true_l; apply orb_true_r].
    rewrite IH.
    + f_equal. rewrite Nat2Z.inj_succ, Z.pow_succ_r by lia.
      rewrite Z.div_div by lia. reflexivity.
    + apply Z.div_pos; lia.
    + exists q. subst m. replace (q * (2 * 2 ^ Z.of_nat n)) with (q * 2 ^ Z.of_nat n * 2) by lia.
      rewrite Z.div_mul by lia. reflexivity.
Qed.

Lemma fexp_eq (e : Z) : fexp prec emax e = Z.max (e - 53) (-1074).
Proof. reflexivity. Qed.

Lemma digits_scaled (m q : positive) (n : Z) :
  0 <= n -> Z.pos q * 2 ^ n = Z.pos m ->
  Z.pos (digits2_pos q) + n = Z.pos (digits2_pos m).
Proof.
  intros Hn Hq. rewrite !digits2_log2, <- Hq, Z.log2_mul_pow2 by lia. lia.
Qed.

(** Rounding a mantissa whose excess low bits are all zero only drops
    them. *)
Lemma round_aux_exact (s : bool) (mz : positive) (ez n : Z) :
  0 <= n ->
  fexp prec emax (Z.pos (digits2_pos mz) + ez) = ez + n ->
  (2 ^ n | Z.pos mz) ->
  ez + n <= 971 ->
  exists m',
    binary_round_aux prec emax s (Z.pos mz) ez loc_Exact = S754_finite s m' (ez + n)
    /\ Z.pos m' * 2 ^ n = Z.pos mz.
Proof.
  intros Hn Hfexp [q Hq] Hmax.
  assert (0 < 2 ^ n) as Hpow by (apply Z.pow_pos_nonneg; lia).
  assert (0 < q) as Hq0 by nia.
  destruct q as [|q|q]; try lia.
  exists q. split; [|symmetry; exact Hq].
  assert (shr (Build_shr_record (Z.pos mz) false false) ez n
          = (Build_shr_record (Z.pos q) false false, ez + n)) as Hshr.
  { destruct n as [|p|p]; try lia.
    - cbn [shr]. rewrite Z.pow_0_r, Z.mul_1_r in Hq. rewrite Hq, Z.add_0_r. reflexivity.
    - cbn [shr]. rewrite iter_pos_nat, shr_exact.
      + rewrite positive_nat_Z, Hq, Z.div_mul by lia. reflexivity.
      + lia.
      + rewrite positive_nat_Z. exists (Z.pos q). exact Hq. }
  unfold binary_round_aux, shr_fexp. cbn [Zdigits2 shr_record_of_loc].
  rewrite Hfexp. replace (ez + n - ez) with n by lia. rewrite Hshr.
  cbn [shr_m loc_of_shr_record round_nearest_even Zdigits2 shr_record_of_loc].
  replace (Z.pos (digits2_pos q) + (ez + n)) with (Z.pos (digits2_pos mz) + ez)
    by (pose proof (digits_scaled mz q n Hn (eq_sym Hq)); lia).
  rewrite Hfexp, Z.sub_diag. cbn [shr shr_m].
  replace (ez + n <=? emax - prec) with true; [reflexivity|].
  symmetry. apply Z.leb_le. change (emax - prec) with 971. exact Hmax.
Qed.

Lemma shl_align_value (mx : positive) (ex ez : Z) :
  ez <= ex ->
  Z.pos (fst (shl_align mx ex ez)) = Z.pos mx * 2 ^ (ex - ez)
  /\ snd (shl_align mx ex ez) = ez.
Proof.
  intros Hle. unfold shl_align. destruct (ez - ex) as [|p|p] eqn:Hd; try lia.
  - cbn [fst snd]. replace (ex - ez) with 0 by lia. rewrite Z.pow_0_r. lia.
  - cbn [fst snd]. rewrite iter_xO. replace (ex - ez) with (Z.pos p) by lia. lia.
Qed.

(** [binary_round] is exact on a value that is [N * 2^K] units with
    [N] below [2^53] and [K] in the exponent range. *)
Lemma binary_round_exact (s : bool) (m : positive) (e N K : Z) :
  -1074 <= e ->
  Z.pos m * 2 ^ (e + 1074) = N * 2 ^ K ->
  0 < N < 2 ^ 53 -> 0 <= K <= 2045 ->
  exists m' e',
    binary_round prec emax s m e = S754_finite s m' e'
    /\ -1074 <= e'
    /\ Z.pos m' * 2 ^ (e' + 1074) = Z.pos m * 2 ^ (e + 1074).
Proof.
  intros He Hval HN HK.
  set (d := Z.pos (digits2_pos m)).
  assert (Z.log2 (Z.pos m) + (e + 1074) = Z.log2 N + K) as Hlog.
  { rewrite (Z.add_comm (Z.log2 (Z.pos m))), (Z.add_comm (Z.log2 N)).
    rewrite <- !Z.log2_mul_pow2 by lia. rewrite Hval. reflexivity. }
  assert (Z.log2 N < 53) as HlogN by (apply Z.log2_lt_pow2; lia).
  assert (0 <= Z.log2 N) as HlogN0 by apply Z.log2_nonneg.
  assert (d = Z.log2 (Z.pos m) + 1) as Hd by apply digits2_log2.
  unfold binary_round. fold d. rewrite fexp_eq.
  set (T := Z.max (d + e - 53) (-1074)).
  destruct (Z.lt_ge_cases T e) as [Hlt|Hge].
  - destruct (shl_align_value m e T ltac:(lia)) as [Hm HT].
    destruct (shl_align m e T) as [mz ez]. cbn [fst snd] in Hm, HT. subst ez.
    destruct (round_aux_exact s mz T 0) as (m' & Hround & Hm').
    + lia.
    + rewrite fexp_eq, Z.add_0_r, digits2_log2, Hm, Z.log2_mul_pow2 by lia. fold T. lia.
    + exists (Z.pos mz). rewrite Z.pow_0_r. lia.
    + lia.
    + rewrite Z.add_0_r in Hround. exists m', T. split; [exact Hround|]. split; [lia|].
      rewrite Z.pow_0_r, Z.mul_1_r in Hm'. rewrite Hm', Hm, <- Z.mul_assoc, <- Z.pow_add_r by lia.
      f_equal. f_equal. lia.
  - assert (shl_align m e T = (m, e)) as ->.
    { unfold shl_align. destruct (T - e) eqn:Hd'; try reflexivity. lia. }
    assert (0 <= K - (e + 1074) \/ K - (e + 1074) < 0) as [Hj|Hj] by lia.
    + (* the mantissa carries the extra low zero bits *)
      assert (Z.pos m = N * 2 ^ (K - (e + 1074))) as HmN.
      { apply (Z.mul_reg_r _ _ (2 ^ (e + 1074))); [apply Z.pow_nonzero; lia|].
        rewrite Hval, <- Z.mul_assoc, <- Z.pow_add_r by lia. f_equal. f_equal. lia. }
      destruct (round_aux_exact s m e (T - e)) as (m' & Hround & Hm').
      * lia.
      * rewrite fexp_eq. fold d. fold T. lia.
      * exists (N * 2 ^ (K - (e + 1074) - (T - e))). rewrite HmN, <- Z.mul_assoc.
        rewrite <- Z.pow_add_r by lia. f_equal. f_equal. lia.
      * lia.
      * replace (e + (T - e)) with T in Hround by lia.
        exists m', T. split; [exact Hround|]. split; [lia|].
        rewrite <- Hm', <- Z.mul_assoc, <- Z.pow_add_r by lia. f_equal. f_equal. lia.
    + (* fewer than 53 bits: nothing to drop *)
      assert (Z.pos m <= N) as HmN.
      { assert (Z.pos m * 2 ^ (e + 1074 - K) = N) as <-.
        { apply (Z.mul_reg_r _ _ (2 ^ K)); [apply Z.pow_nonzero; lia|].
          rewrite <- Hval, <- Z.mul_assoc, <- Z.pow_add_r by lia. f_equal. f_equal. lia. }
        assert (0 < 2 ^ (e + 1074 - K)) by (apply Z.pow_pos_nonneg; lia). nia. }
      assert (Z.log2 (Z.pos m) <= Z.log2 N) by (apply Z.log2_le_mono; exact HmN).
      destruct (round_aux_exact s m e 0) as (m' & Hround & Hm').
      * lia.
      * rewrite fexp_eq. fold d. fold T. lia.
      * exists (Z.pos m). rewrite Z.pow_0_r. lia.
      * lia.
      * rewrite Z.add_0_r in Hround. exists m', e. split; [exact Hround|]. split; [lia|].
        rewrite Z.pow_0_r, Z.mul_1_r in Hm'. rewrite Hm'. reflexivity.
Qed.

Lemma binary_normalize_exact (M ez N K : Z) :
  -1074 <= ez ->
  M * 2 ^ (ez + 1074) = N * 2 ^ K ->
  Z.abs N < 2 ^ 53 -> 0 <= K <= 2045 ->
  sf_units (binary_normalize prec emax M ez false) = Some (M * 2 ^ (ez + 1074))
  /\ binary_normalize prec emax M ez false <> S754_zero true.
Proof.
  intros Hez Hval HN HK.
  assert (0 < 2 ^ (ez + 1074)) as Hp by (apply Z.pow_pos_nonneg; lia).
  assert (0 < 2 ^ K) as HpK by (apply Z.pow_pos_nonneg; lia).
  destruct M as [|p|p]; cbn [binary_normalize].
  - split; [reflexivity|discriminate].
  - destruct (binary_round_exact false p ez N K) as (m' & e' & -> & He' & Hm'); try lia.
    split; [|discriminate]. cbn [sf_units cond_Zopp]. f_equal. exact Hm'.
  - destruct (binary_round_exact true p ez (- N) K) as (m' & e' & -> & He' & Hm'); try lia.
    split; [|discriminate]. cbn [sf_units cond_Zopp]. f_equal. lia.
Qed.

Lemma valid_exponent (s : bool) (m : positive) (e : Z) :
  SpecFloat.valid_binary prec emax (S754_finite s m e) = true ->
  -1074 <= e /\ e = Z.max (Z.log2 (Z.pos m) + 1 + e - 53) (-1074).
Proof.
  cbn [SpecFloat.valid_binary]. unfold bounded, canonical_mantissa. intros H.
  apply andb_true_iff in H as [H _]. apply Z.eqb_eq in H.
  rewrite fexp_eq, digits2_log2 in H. lia.
Qed.

(** A double other than [-0.0] is determined by its value. *)
Lemma sf_units_inj (x y : spec_float) (v : Z) :
  SpecFloat.valid_binary prec emax x = true ->
  SpecFloat.valid_binary prec emax y = true ->
  x <> S754_zero true -> y <> S754_zero true ->
  sf_units x = Some v -> sf_units y = Some v -> x = y.
Proof.
  intros Hx Hy Hnx Hny Hvx Hvy.
  destruct x as [sx|sx| |sx mx ex], y as [sy|sy| |sy my ey]; try discriminate.
  - destruct sx, sy; congruence.
  - exfalso. apply valid_exponent in Hy as [Hy _].
    assert (0 < 2 ^ (ey + 1074)) by (apply Z.pow_pos_nonneg; lia).
    cbn [sf_units] in Hvx, Hvy. injection Hvx as <-. injection Hvy as Hvy.
    destruct sy; cbn [cond_Zopp] in Hvy; nia.
  - exfalso. apply valid_exponent in Hx as [Hx _].
    assert (0 < 2 ^ (ex + 1074)) by (apply Z.pow_pos_nonneg; lia).
    cbn [sf_units] in Hvx, Hvy. injection Hvy as <-. injection Hvx as Hvx.
    destruct sx; cbn [cond_Zopp] in Hvx; nia.
  - apply valid_exponent in Hx as [Hx Hcx]. apply valid_exponent in Hy as [Hy Hcy].
    assert (0 < 2 ^ (ex + 1074)) as Hpx by (apply Z.pow_pos_nonneg; lia).
    assert (0 < 2 ^ (ey + 1074)) as Hpy by (apply Z.pow_pos_nonneg; lia).
    cbn [sf_units] in Hvx, Hvy. injection Hvx as Hvx. injection Hvy as Hvy.
    assert (sx = sy) as <-.
    { destruct sx, sy; cbn [cond_Zopp] in Hvx, Hvy; try reflexivity; nia. }
    assert (Z.pos mx * 2 ^ (ex + 1074) = Z.pos my * 2 ^ (ey + 1074)) as Heq.
    { destruct sx; cbn [cond_Zopp] in Hvx, Hvy; lia. }
    assert (Z.log2 (Z.pos mx) + ex = Z.log2 (Z.pos my) + ey) as Hlog.
    { pose proof (f_equal Z.log2 Heq) as Hl.
      rewrite !Z.log2_mul_pow2 in Hl by lia. lia. }
    assert (ex = ey) as <- by lia.
    assert (Z.pos mx = Z.pos my) as Hm.
    { apply (Z.mul_reg_r _ _ (2 ^ (ex + 1074))); [lia|exact Heq]. }
    injection Hm as <-. reflexivity.
Qed.

Lemma SFadd_exact (x y : spec_float) (vx vy N K : Z) :
  SpecFloat.valid_binary prec emax x = true ->
  SpecFloat.valid_binary prec emax y = true ->
  x <> S754_zero true ->
  sf_units x = Some vx -> sf_units y = Some vy ->
  vx + vy = N * 2 ^ K -> Z.abs N < 2 ^ 53 -> 0 <= K <= 2045 ->
  sf_units (SFadd prec emax x y) = Some (vx + vy)
  /\ SFadd prec emax x y <> S754_zero true.
Proof.
  intros Hx Hy Hnx Hvx Hvy Hsum HN HK.
  destruct x as [sx|sx| |sx mx ex], y as [sy|sy| |sy my ey]; try discriminate.
  - destruct sx; [congruence|]. cbn [sf_units] in Hvx, Hvy.
    injection Hvx as <-. injection Hvy as <-.
    destruct sy; cbn; split; try reflexivity; discriminate.
  - destruct sx; [congruence|]. cbn [sf_units] in Hvx. injection Hvx as <-.
    cbn [SFadd]. split; [exact Hvy|discriminate].
  - cbn [sf_units] in Hvy. injection Hvy as <-. cbn [SFadd].
    rewrite Z.add_0_r. split; [exact Hvx|discriminate].
  - apply valid_exponent in Hx as [Hx _]. apply valid_exponent in Hy as [Hy _].
    cbn [sf_units] in Hvx, Hvy. injection Hvx as <-. injection Hvy as <-.
    cbn [SFadd]. cbv zeta.
    destruct (shl_align_value mx ex (Z.min ex ey) ltac:(lia)) as [-> _].
    destruct (shl_align_value my ey (Z.min ex ey) ltac:(lia)) as [-> _].
    set (ez := Z.min ex ey) in *.
    set (M := cond_Zopp sx (Z.pos mx * 2 ^ (ex - ez))
              + cond_Zopp sy (Z.pos my * 2 ^ (ey - ez))).
    assert (M * 2 ^ (ez + 1074)
            = cond_Zopp sx (Z.pos mx) * 2 ^ (ex + 1074)
              + cond_Zopp sy (Z.pos my) * 2 ^ (ey + 1074)) as HM.
    { unfold M. replace (ex + 1074) with ((ex - ez) + (ez + 1074)) by lia.
      replace (ey + 1074) with ((ey - ez) + (ez + 1074)) by lia.
      rewrite (Z.pow_add_r 2 (ex - ez) (ez + 1074)) by lia.
      rewrite (Z.pow_add_r 2 (ey - ez) (ez + 1074)) by lia.
      destruct sx, sy; cbn [cond_Zopp]; lia. }
    rewrite <- HM in Hsum |- *.
    apply (binary_normalize_exact M ez N K); [lia|exact Hsum|exact HN|exact HK].
Qed.

Lemma float_add_exact (u : Z) (x y : float) (nx ny : Z) :
  -1074 <= u <= 971 ->
  not_neg_zero x -> multiple_of u x nx -> multiple_of u y ny ->
  Z.abs (nx + ny) < 2 ^ 53 ->
  multiple_of u (x + y) (nx + ny) /\ not_neg_zero (x + y).
Proof.
  unfold multiple_of, not_neg_zero. intros Hu Hzx Hx Hy Hbound. rewrite add_spec.
  rewrite Z.mul_add_distr_r.
  apply (SFadd_exact (Prim2SF x) (Prim2SF y) _ _ (nx + ny) (u + 1074));
    try apply Prim2SF_valid; try assumption; lia.
Qed.

Lemma multiple_of_opp (u : Z) (y : float) (ny : Z) :
  multiple_of u y ny -> multiple_of u (- y) (- ny).
Proof.
  unfold multiple_of. rewrite opp_spec.
  destruct (Prim2SF y) as [s|s| |s m e]; cbn [SFopp sf_units]; try discriminate.
  - intros [= H]. f_equal. lia.
  - intros [= H]. f_equal. destruct s; cbn [negb cond_Zopp] in *; lia.
Qed.

Lemma float_sub_exact (u : Z) (x y : float) (nx ny : Z) :
  -1074 <= u <= 971 ->
  not_neg_zero x -> multiple_of u x nx -> multiple_of u y ny ->
  Z.abs (nx - ny) < 2 ^ 53 ->
  multiple_of u (x - y) (nx - ny) /\ not_neg_zero (x - y).
Proof.
  intros Hu Hzx Hx Hy Hbound. rewrite float_sub_add_opp.
  apply (float_add_exact u x (- y) nx (- ny)); try assumption.
  apply multiple_of_opp. exact Hy.
Qed.

Lemma entry_within_zero (u t : Z) : 0 <= t -> entry_within u t zero_entry.
Proof.
  intros Ht. exists 0, 0. unfold multiple_of, not_neg_zero.
  repeat split; try reflexivity; try discriminate. lia.
Qed.

Lemma entry_within_mono (u t t' : Z) (e : CatEntry float) :
  t <= t' -> entry_within u t e -> entry_within u t' e.
Proof.
  intros Hle (nb & na & Hb & Ha & Hv & Hbound & Hz). exists nb, na.
  repeat split; try tauto. lia.
Qed.

(** Within the bound no addition rounds, and the equation holds. *)
Lemma entry_within_balanced (u t : Z) (e : CatEntry float) :
  -1074 <= u <= 971 -> t < 2 ^ 53 ->
  entry_within u t e -> available e = (budgeted e + activity e)%float.
Proof.
  intros Hu Ht (nb & na & Hb & Ha & Hv & Hbound & Hzb & Hza & Hzv).
  destruct (float_add_exact u _ _ nb na Hu Hzb Hb Ha ltac:(lia)) as [Hsum Hzs].
  apply Prim2SF_inj.
  apply (sf_units_inj _ _ ((nb + na) * 2 ^ (u + 1074)));
    try apply Prim2SF_valid; assumption.
Qed.

Lemma entry_within_bud (u t : Z) (e : CatEntry float) (amt : float) (n : Z) :
  -1074 <= u <= 971 -> t + Z.abs n < 2 ^ 53 ->
  entry_within u t e -> multiple_of u amt n ->
  entry_within u (t + Z.abs n)
    (Build_CatEntry (budgeted e + amt)%float (activity e) (available e + amt)%float).
Proof.
  intros Hu Ht (nb & na & Hb & Ha & Hv & Hbound & Hzb & Hza & Hzv) Hamt.
  destruct (float_add_exact u _ _ nb n Hu Hzb Hb Hamt ltac:(lia)) as [Hb' Hzb'].
  destruct (float_add_exact u _ _ (nb + na) n Hu Hzv Hv Hamt ltac:(lia)) as [Hv' Hzv'].
  exists (nb + n), na. cbn [budgeted activity available].
  replace (nb + n + na) with (nb + na + n) by lia.
  repeat split; try assumption. lia.
Qed.

Lemma entry_within_spend (u t : Z) (e : CatEntry float) (amt : float) (n : Z) :
  -1074 <= u <= 971 -> t + Z.abs n < 2 ^ 53 ->
  entry_within u t e -> multiple_of u amt n ->
  entry_within u (t + Z.abs n)
    (Build_CatEntry (budgeted e) (activity e - amt)%float (available e - amt)%float).
Proof.
  intros Hu Ht (nb & na & Hb & Ha & Hv & Hbound & Hzb & Hza & Hzv) Hamt.
  destruct (float_sub_exact u _ _ na n Hu Hza Ha Hamt ltac:(lia)) as [Ha' Hza'].
  destruct (float_sub_exact u _ _ (nb + na) n Hu Hzv Hv Hamt ltac:(lia)) as [Hv' Hzv'].
  exists nb, (na - n). cbn [budgeted activity available].
  replace (nb + (na - n)) with (nb + na - n) by lia.
  repeat split; try assumption. lia.
Qed.

Lemma magnitude_nonneg (ns : list Z) : 0 <= magnitude ns.
Proof. induction ns as [|n ns IH]; cbn [magnitude foldr]; [lia|]. fold (magnitude ns). lia. Qed.

Lemma magnitude_app (ns ns' : list Z) : magnitude (ns ++ ns') = magnitude ns + magnitude ns'.
Proof.
  induction ns as [|n ns IH]; [reflexivity|].
  cbn [magnitude foldr app]. fold (magnitude (ns ++ ns')). fold (magnitude ns). lia.
Qed.
End Exact.

Section Whole.
Local Open Scope Z_scope.

Lemma entries_within_mono (u t t' : Z) (st : State float) :
  t <= t' -> entries_within u t st -> entries_within u t' st.
Proof. intros Hle Hst m c e Hlook. apply (entry_within_mono u t); [exact Hle|]. apply (Hst m c e Hlook). Qed.

Lemma entries_within_entry_at (u t : Z) (st : State float) (m c : string) :
  0 <= t -> entries_within u t st -> entry_within u t (entry_at st m c).
Proof.
  intros Ht Hst. unfold entry_at. destruct (lookup_entry st m c) as [e|] eqn:He; cbn [default].
  - apply (Hst m c e He).
  - apply entry_within_zero. exact Ht.
Qed.

Lemma entries_within_updated (u t : Z) (st : State float) m c e tx :
  entries_within u t st -> entry_within u t e -> entries_within u t (updated st m c e tx).
Proof.
  intros Hst He m' c' e' Hlook.
  destruct (decide ((m', c') = (m, c))) as [[= -> ->]|Hne].
  - rewrite lookup_entry_updated_eq in Hlook. injection Hlook as <-. exact He.
  - rewrite lookup_entry_updated_ne in Hlook by exact Hne. apply (Hst m' c' e' Hlook).
Qed.

Lemma entries_within_step (u t : Z) (st : State float) (c : command float) (ns : list Z) :
  -1074 <= u <= 971 -> 0 <= t ->
  is_roll_forward c = false ->
  Forall2 (multiple_of u) (amount_of c) ns ->
  t + magnitude ns < 2 ^ 53 ->
  entries_within u t st ->
  entries_within u (t + magnitude ns) (fst (run_command st c)).
Proof.
  intros Hu Ht Hroll Hns Hbound Hst.
  pose proof (magnitude_nonneg ns) as Hmag.
  destruct (run_command_amounts st c Hroll) as [Hsame|[Hbud|Hspend]].
  - intros m cat e. unfold lookup_entry. rewrite Hsame.
    apply (entries_within_mono u t); [lia|exact Hst].
  - destruct Hbud as (m & cat & amt & tx & Hamt & ->). cbn zeta in *.
    rewrite Hamt in Hns.
    apply Forall2_cons_inv_l in Hns as (n & ns' & Hn & Hnil & ->).
    apply Forall2_nil_inv_l in Hnil as ->.
    cbn [magnitude foldr] in *. rewrite Z.add_0_r in *.
    apply entries_within_updated.
    + apply (entries_within_mono u t); [lia|exact Hst].
    + apply entry_within_bud; try assumption.
      apply entries_within_entry_at; assumption.
  - destruct Hspend as (m & cat & amt & tx & Hamt & ->). cbn zeta in *.
    rewrite Hamt in Hns.
    apply Forall2_cons_inv_l in Hns as (n & ns' & Hn & Hnil & ->).
    apply Forall2_nil_inv_l in Hnil as ->.
    cbn [magnitude foldr] in *. rewrite Z.add_0_r in *.
    apply entries_within_updated.
    + apply (entries_within_mono u t); [lia|exact Hst].
    + apply entry_within_spend; try assumption.
      apply entries_within_entry_at; assumption.
Qed.

Lemma entries_within_run (u : Z) (cs : list (command float)) :
  -1074 <= u <= 971 ->
  forallb (fun c => negb (is_roll_forward c)) cs = true ->
  forall (ns : list Z) (t : Z) (st : State float),
    0 <= t ->
    Forall2 (multiple_of u) (amounts cs) ns ->
    t + magnitude ns < 2 ^ 53 ->
    entries_within u t st ->
    entries_within u (t + magnitude ns) (run st cs).
Proof.
  intros Hu. induction cs as [|c cs IH]; intros Hcs ns t st Ht Hns Hbound Hst.
  - apply Forall2_nil_inv_l in Hns as ->. cbn [magnitude foldr]. rewrite Z.add_0_r. exact Hst.
  - cbn [forallb] in Hcs. apply andb_true_iff in Hcs as [Hc Hcs].
    apply negb_true_iff in Hc.
    change (amounts (c :: cs)) with (amount_of c ++ amounts cs) in Hns.
    apply Forall2_app_inv_l in Hns as (ns1 & ns2 & Hns1 & Hns2 & ->).
    rewrite magnitude_app in *.
    pose proof (magnitude_nonneg ns1). pose proof (magnitude_nonneg ns2).
    rewrite run_cons, Z.add_assoc.
    apply (IH Hcs); [lia|exact Hns2|lia|].
    apply entries_within_step; try assumption. lia.
Qed.

(** C10, amended.  As long as every amount is a whole multiple of one
    power of two [2^u] (whole amounts: [u = 0]; quarters: [u = -2]) and
    the absolute values of the amounts given so far total less than
    [2^53 * 2^u], no float addition of the program rounds, and every
    entry of every state that commands other than the rollover reach
    from the empty state has [available = budgeted + activity] in the
    program's own float arithmetic. *)
Theorem balanced_reachable (u : Z) (cs : list (command float)) (ns : list Z) :
  forallb (fun c => negb (is_roll_forward c)) cs = true ->
  -1074 <= u <= 971 ->
  Forall2 (multiple_of u) (amounts cs) ns ->
  magnitude ns < 2 ^ 53 ->
  forall m c e,
    lookup_entry (run fresh_state cs) m c = Some e ->
    available e = (budgeted e + activity e)%float.
Proof.
  intros Hcs Hu Hns Hbound m c e Hlook.
  apply (entry_within_balanced u (0 + magnitude ns)); [exact Hu|lia|].
  apply (entries_within_run u cs Hu Hcs ns 0 fresh_state ltac:(lia) Hns ltac:(lia)) with (m := m) (c := c).
  - intros m' c' e' Hl. unfold lookup_entry, lookup2 in Hl; cbn in Hl.
    rewrite lookup_empty in Hl. discriminate Hl.
  - exact Hlook.
Qed.

Lemma balanced_reachable_witness :
  let cs : list (command float) :=
    [Cat "Food"; Acc "Checking" "bank"; Bud "2024-03" "Food" 200%float;
     Spend "2024-03" "Checking" "Food" 50.25%float; Bud "March 2024" "Food" 0.5%float] in
  Forall2 (multiple_of (-2)) (amounts cs) [800; 201; 2]
  /\ magnitude [800; 201; 2] < 2 ^ 53
  /\ lookup_entry (run fresh_state cs) "2024-03" "Food"
     = Some (Build_CatEntry 200.5%float (-50.25)%float 150.25%float)
  /\ 150.25%float = (200.5 + -50.25)%float.
Proof.
  intros cs.
  assert (Forall2 (multiple_of (-2)) (amounts cs) [800; 201; 2]) as Hns.
  { repeat constructor. }
  assert (magnitude [800; 201; 2] < 2 ^ 53) as Hbound by reflexivity.
  assert (lookup_entry (run fresh_state cs) "2024-03" "Food"
          = Some (Build_CatEntry 200.5%float (-50.25)%float 150.25%float)) as Hlook.
  { vm_compute. reflexivity. }
  split; [exact Hns|]. split; [exact Hbound|]. split; [exact Hlook|].
  exact (balanced_reachable (-2) cs [800; 201; 2] eq_refl ltac:(lia) Hns Hbound
           "2024-03" "Food" _ Hlook).
Defined.
End Whole.

(** C10 as stated fails in the program's arithmetic: after budgeting
    0.1, spending 0.3 and budgeting 0.2 the Food entry of 2024-03 holds
    budgeted 0.30000000000000004, activity -0.3 and available
    2.7755575615628914e-17, and budgeted + activity is
    5.551115123125783e-17. *)
Lemma balanced_float_counterexample :
  let cs : list (command float) :=
    [Cat "Food"; Acc "Checking" "bank"; Bud "2024-03" "Food" 0.1%float;
     Spend "2024-03" "Checking" "Food" 0.3%float; Bud "2024-03" "Food" 0.2%float] in
  forallb (fun c => negb (is_roll_forward c)) cs = true
  /\ exists e,
       lookup_entry (run fresh_state cs) "2024-03" "Food" = Some e
       /\ available e <> (budgeted e + activity e)%float.
Proof.
  split; [reflexivity|].
  eexists. split; [vm_compute; reflexivity|].
  apply float_neq. vm_compute. discriminate.
Qed.

(** ** What the ledger stores of an amount *)

(** C5, amended.  [cmd_tbb] stores [round(amt, 2)] as the month's
    ready_to_assign.  [cmd_bud] and [cmd_spend] do not round: the entry
    fields move by [amt] itself and the appended transaction carries
    [amt], respectively [-amt], as given. *)
Theorem stored_amounts {A} `{Amount A} (st : State A) (mon m : string) (amt : A) :
  parse_month mon = inr m ->
  month_summary (fst (cmd_tbb st mon amt)) !! m = Some (a_round2 amt)
  /\ (forall cat, dict_in cat (categories st) = true ->
        let st' := fst (cmd_bud st mon cat amt) in
        let e := entry_at st m cat in
        lookup_entry st' m cat
        = Some (Build_CatEntry (budgeted e + amt)%amt (activity e) (available e + amt)%amt)
        /\ transactions st'
           = transactions st ++ [Build_Transaction m None (Some cat) amt])
  /\ (forall acc cat,
        dict_in acc (accounts st) = true -> dict_in cat (categories st) = true ->
        let st' := fst (cmd_spend st mon acc cat amt) in
        let e := entry_at st m cat in
        lookup_entry st' m cat
        = Some (Build_CatEntry (budgeted e) (activity e - amt)%amt (available e - amt)%amt)
        /\ transactions st'
           = transactions st ++ [Build_Transaction m (Some acc) (Some cat) (- amt)%amt]).
Proof.
  intros Hm. split; [|split].
  - unfold cmd_tbb. rewrite Hm. cbn. apply lookup_insert_eq.
  - intros cat Hc. rewrite (cmd_bud_ok st mon cat amt m Hm Hc). cbn [fst].
    split; [apply lookup_entry_updated_eq|reflexivity].
  - intros acc cat Ha Hc. rewrite (cmd_spend_ok st mon acc cat amt m Hm Ha Hc). cbn [fst].
    split; [apply lookup_entry_updated_eq|reflexivity].
Qed.

Lemma stored_amounts_witness :
  let st : State float := Build_State [("Checking", "bank")] [("Food", None)] ∅ ∅ [] in
  month_summary (fst (cmd_tbb st "2024-03" 2.675%float)) !! "2024-03"
    = Some (a_round2 2.675%float)
  /\ a_round2 2.675%float = 2.67%float.
Proof.
  intros st. split; [|reflexivity].
  apply (stored_amounts st "2024-03" "2024-03" 2.675%float eq_refl).
Defined.

(** C5 as stated fails: [cmd_bud] with 0.125 stores 0.125, which two
    fractional digits do not hold ([round(0.125, 2)] is 0.12), in the
    two entry fields and in the transaction; [cmd_spend] likewise. *)
Lemma bud_stores_unrounded :
  let st : State float := Build_State [("Checking", "bank")] [("Food", None)] ∅ ∅ [] in
  let bud := fst (cmd_bud st "2024-03" "Food" 0.125%float) in
  let spend := fst (cmd_spend st "2024-03" "Checking" "Food" 0.125%float) in
  lookup_entry bud "2024-03" "Food"
    = Some (Build_CatEntry 0.125%float 0%float 0.125%float)
  /\ transactions bud = [Build_Transaction "2024-03" None (Some "Food") 0.125%float]
  /\ lookup_entry spend "2024-03" "Food"
    = Some (Build_CatEntry 0%float (-0.125)%float (-0.125)%float)
  /\ transactions spend
     = [Build_Transaction "2024-03" (Some "Checking") (Some "Food") (-0.125)%float]
  /\ a_round2 0.125%float = 0.12%float
  /\ a_round2 0.125%float <> 0.125%float
  /\ a_round2 (-0.125)%float <> (-0.125)%float.
Proof.
  cbn zeta. repeat split; try (vm_compute; reflexivity);
    apply float_neq; vm_compute; discriminate.
Qed.

(** ** Month keys *)

Section MonthKeys.
Import PyStr Datetime.


Lemma isspace_not_letter c : isspace c = true -> letter c = false.
Proof. destruct c as [[] [] [] [] [] [] [] []]; vm_compute; congruence. Qed.

Lemma digit_not_letter c d : digit c = Some d -> letter c = false.
Proof. destruct c as [[] [] [] [] [] [] [] []]; vm_compute; congruence. Qed.

Lemma lower_letter c y : lower c = lower y -> letter c = letter y.
Proof. unfold letter. intros ->. reflexivity. Qed.


Lemma overlap_sound a :
  forall f s r1 r2,
    match_ci a s = Some r1 -> match_ci f s = Some r2 ->
    match overlap a f with
    | Clash => False
    | Longer_right t => match_ci t r1 = Some r2
    | Longer_left t => match_ci t r2 = Some r1
    end.
Proof.
  induction a as [|x a IH]; intros f s r1 r2 H1 H2.
  - cbn in H1. injection H1 as <-. exact H2.
  - destruct f as [|y f].
    + cbn in H2. injection H2 as <-. exact H1.
    + destruct s as [|c s]; [discriminate H1|]. cbn in H1, H2. cbn [overlap].
      destruct (Ascii.eqb (lower c) (lower x)) eqn:Hx; [|discriminate H1].
      destruct (Ascii.eqb (lower c) (lower y)) eqn:Hy; [|discriminate H2].
      apply Ascii.eqb_eq in Hx, Hy. rewrite <- Hx, <- Hy, Ascii.eqb_refl.
      exact (IH f s r1 r2 H1 H2).
Qed.

Lemma first_alt_inv {R} (alts : list string) (s : string)
    (k : string -> string -> option R) (r : R) :
  first_alt alts s k = Some r ->
  exists a rest, In a alts /\ match_ci a s = Some rest /\ k a rest = Some r.
Proof.
  induction alts as [|a alts IH]; [discriminate|]. cbn [first_alt].
  destruct (match_ci a s) as [rest|] eqn:Ha.
  - destruct (k a rest) as [r'|] eqn:Hk.
    + intros [= <-]. exists a, rest. repeat split; [left; reflexivity|exact Ha|exact Hk].
    + intros Hrest. destruct (IH Hrest) as (a' & rest' & Hin & Hm & Hk').
      exists a', rest'. repeat split; [right; exact Hin|exact Hm|exact Hk'].
  - intros Hrest. destruct (IH Hrest) as (a' & rest' & Hin & Hm & Hk').
    exists a', rest'. repeat split; [right; exact Hin|exact Hm|exact Hk'].
Qed.

(** The tail [\s+(\d\d\d\d)] of the two formats with a month name. *)
Lemma spaces_plus_map {R S} (g : R -> S) (k : string -> option R) s :
  spaces_plus s (fun rest => option_map g (k rest)) = option_map g (spaces_plus s k).
Proof.
  induction s as [|c s IH]; [reflexivity|]. cbn [spaces_plus].
  destruct (isspace c); [|reflexivity]. rewrite IH.
  destruct (spaces_plus s k); reflexivity.
Qed.

Lemma spaces_plus_head {R} (k : string -> option R) s r :
  spaces_plus s k = Some r -> exists c s', s = String c s' /\ isspace c = true.
Proof.
  destruct s as [|c s']; [discriminate|]. cbn [spaces_plus].
  destruct (isspace c) eqn:Hc; [|discriminate]. intros _. exists c, s'.
  split; [reflexivity|exact Hc].
Qed.

Lemma spaces_plus_ext {R} (k1 k2 : string -> option R) s :
  (forall rest, k1 rest = k2 rest) -> spaces_plus s k1 = spaces_plus s k2.
Proof.
  intros Hk. induction s as [|c s IH]; [reflexivity|]. cbn [spaces_plus].
  rewrite IH, Hk. reflexivity.
Qed.

Lemma re_match_spaces_year s acc :
  re_match [Spaces; Year4] s acc
  = option_map (fun yr => ({| f_year := fst yr; f_mon := f_mon acc |}, snd yr))
      (spaces_plus s year4).
Proof.
  cbn [re_match]. rewrite <- spaces_plus_map. apply spaces_plus_ext.
  intros rest. destruct (year4 rest) as [[y rest']|]; reflexivity.
Qed.

(** *** What a text that a format accepts looks like *)


Lemma strptime_unfold data fmt :
  strptime data fmt
  = match pattern false fmt with
    | None => None
    | Some p =>
        match re_match p data defaults with
        | Some (f, rest) => date_of f rest
        | None => None
        end
    end.
Proof.
  unfold strptime, date_of. destruct (pattern false fmt) as [p|]; [|reflexivity].
  destruct (re_match p data defaults) as [[f [|c rest]]|]; reflexivity.
Qed.

Lemma date_of_inv f rest d :
  date_of f rest = Some d -> rest = EmptyString /\ d = (f_year f, f_mon f).
Proof.
  unfold date_of. destruct rest; [|discriminate].
  destruct (_ && _)%bool; [|discriminate]. intros [= <-]. split; reflexivity.
Qed.

(** A format made of a month name from [names], whitespace and a year. *)
Lemma named_format_inv (names : list string) s d :
  match
    first_alt (seqToRE (tail names)) s (fun name rest =>
      re_match [Spaces; Year4] rest
        {| f_year := f_year defaults; f_mon := index name names |})
  with
  | Some (f, rest) => date_of f rest
  | None => None
  end = Some d ->
  exists a rest y,
    In a (seqToRE (tail names)) /\ match_ci a s = Some rest
    /\ spaces_plus rest year4 = Some (y, EmptyString)
    /\ d = (y, index a names).
Proof.
  destruct (first_alt _ s _) as [[f rest']|] eqn:Hfirst; [|discriminate].
  intros Hd. apply date_of_inv in Hd as [-> ->].
  apply first_alt_inv in Hfirst as (a & rest & Hin & Hm & Hk).
  rewrite re_match_spaces_year in Hk.
  destruct (spaces_plus rest year4) as [[y r]|] eqn:Hy; [|discriminate Hk].
  cbn in Hk. injection Hk as <- ->.
  exists a, rest, y. repeat split; assumption.
Qed.

Lemma strptime_abbr_inv s d :
  strptime s "%b %Y" = Some d ->
  exists a rest y,
    In a (seqToRE (tail a_month)) /\ match_ci a s = Some rest
    /\ spaces_plus rest year4 = Some (y, EmptyString)
    /\ d = (y, index a a_month).
Proof. rewrite strptime_unfold. apply named_format_inv. Qed.

Lemma strptime_full_inv s d :
  strptime s "%B %Y" = Some d ->
  exists a rest y,
    In a (seqToRE (tail f_month)) /\ match_ci a s = Some rest
    /\ spaces_plus rest year4 = Some (y, EmptyString)
    /\ d = (y, index a f_month).
Proof. rewrite strptime_unfold. apply named_format_inv. Qed.

(** A format made of a year, the separator [sep] and a month number. *)
Lemma numeric_format_inv (sep : ascii) s d :
  match re_match [Year4; Literal sep; Month_num] s defaults with
  | Some (f, rest) => date_of f rest
  | None => None
  end = Some d ->
  exists y c rest, year4 s = Some (y, String c rest) /\ lower c = lower sep.
Proof.
  cbn [re_match]. destruct (year4 s) as [[y [|c rest]]|]; try discriminate.
  destruct (Ascii.eqb (lower c) (lower sep)) eqn:Hc; [|discriminate].
  intros _. exists y, c, rest. split; [reflexivity|]. apply Ascii.eqb_eq. exact Hc.
Qed.

Lemma strptime_dash_inv s d :
  strptime s "%Y-%m" = Some d ->
  exists y c rest, year4 s = Some (y, String c rest) /\ lower c = "-"%char.
Proof. rewrite strptime_unfold. apply (numeric_format_inv "-"). Qed.

Lemma strptime_slash_inv s d :
  strptime s "%Y/%m" = Some d ->
  exists y c rest, year4 s = Some (y, String c rest) /\ lower c = "/"%char.
Proof. rewrite strptime_unfold. apply (numeric_format_inv "/"). Qed.

(** *** The formats never disagree on a text *)


Lemma name_pairs_ok a f :
  In a (seqToRE (tail a_month)) -> In f (seqToRE (tail f_month)) ->
  name_pair_ok a f = true.
Proof.
  intros Ha Hf.
  assert (forallb (fun a => forallb (name_pair_ok a) (seqToRE (tail f_month)))
            (seqToRE (tail a_month)) = true) as Hall by (vm_compute; reflexivity).
  rewrite forallb_forall in Hall. specialize (Hall a Ha).
  rewrite forallb_forall in Hall. exact (Hall f Hf).
Qed.

Lemma abbr_full_agree s d1 d2 :
  strptime s "%b %Y" = Some d1 -> strptime s "%B %Y" = Some d2 -> d1 = d2.
Proof.
  intros H1 H2.
  apply strptime_abbr_inv in H1 as (a & r1 & y1 & Ha & Hm1 & Hy1 & ->).
  apply strptime_full_inv in H2 as (f & r2 & y2 & Hf & Hm2 & Hy2 & ->).
  pose proof (name_pairs_ok a f Ha Hf) as Hok.
  pose proof (overlap_sound a f s r1 r2 Hm1 Hm2) as Hov.
  unfold name_pair_ok in Hok.
  destruct (overlap a f) as [|[|y t]|t]; [contradiction| | |discriminate Hok].
  - cbn in Hov. injection Hov as <-. rewrite Hy1 in Hy2. injection Hy2 as <-.
    apply Z.eqb_eq in Hok. rewrite Hok. reflexivity.
  - exfalso. destruct (spaces_plus_head _ _ _ Hy1) as (c & r' & -> & Hc).
    cbn in Hov. destruct (Ascii.eqb (lower c) (lower y)) eqn:Hcy; [|discriminate Hov].
    apply Ascii.eqb_eq in Hcy. apply lower_letter in Hcy.
    rewrite (isspace_not_letter c Hc), Hok in Hcy. discriminate Hcy.
Qed.

Lemma match_ci_head a s rest :
  match_ci a s = Some rest ->
  match a with
  | EmptyString => True
  | String y _ => exists c s', s = String c s' /\ letter c = letter y
  end.
Proof.
  destruct a as [|y a]; [trivial|]. destruct s as [|c s']; [discriminate|]. cbn.
  destruct (Ascii.eqb (lower c) (lower y)) eqn:Hc; [|discriminate]. intros _.
  exists c, s'. split; [reflexivity|]. apply lower_letter, Ascii.eqb_eq, Hc.
Qed.


Lemma named_head s d :
  strptime s "%b %Y" = Some d \/ strptime s "%B %Y" = Some d ->
  exists c s', s = String c s' /\ letter c = true.
Proof.
  assert (forall names a rest,
            forallb starts_with_letter (seqToRE (tail names)) = true ->
            In a (seqToRE (tail names)) -> match_ci a s = Some rest ->
            exists c s', s = String c s' /\ letter c = true) as Hgen.
  { intros names a rest Hall Ha Hm. rewrite forallb_forall in Hall.
    specialize (Hall a Ha). apply match_ci_head in Hm.
    destruct a as [|y a]; [discriminate Hall|].
    destruct Hm as (c & s' & -> & Hc). exists c, s'. split; [reflexivity|].
    rewrite Hc. exact Hall. }
  intros [H|H].
  - apply strptime_abbr_inv in H as (a & rest & y & Ha & Hm & _).
    apply (Hgen a_month a rest); [vm_compute; reflexivity|exact Ha|exact Hm].
  - apply strptime_full_inv in H as (a & rest & y & Ha & Hm & _).
    apply (Hgen f_month a rest); [vm_compute; reflexivity|exact Ha|exact Hm].
Qed.

Lemma year4_head s y rest :
  year4 s = Some (y, rest) -> exists c s', s = String c s' /\ letter c = false.
Proof.
  destruct s as [|c1 [|c2 [|c3 [|c4 s']]]]; try discriminate. cbn.
  destruct (digit c1) as [d1|] eqn:Hd1; [|discriminate]. intros _.
  exists c1. eexists. split; [reflexivity|]. apply (digit_not_letter c1 d1 Hd1).
Qed.

Lemma numeric_head s d :
  strptime s "%Y-%m" = Some d \/ strptime s "%Y/%m" = Some d ->
  exists c s', s = String c s' /\ letter c = false.
Proof.
  intros [H|H].
  - apply strptime_dash_inv in H as (y & c & rest & Hy & _). apply (year4_head s _ _ Hy).
  - apply strptime_slash_inv in H as (y & c & rest & Hy & _). apply (year4_head s _ _ Hy).
Qed.

Lemma named_numeric_clash s d1 d2 :
  strptime s "%b %Y" = Some d1 \/ strptime s "%B %Y" = Some d1 ->
  strptime s "%Y-%m" = Some d2 \/ strptime s "%Y/%m" = Some d2 ->
  False.
Proof.
  intros H1 H2.
  apply named_head in H1 as (c & s' & -> & Hc).
  apply numeric_head in H2 as (c' & s'' & [= <- <-] & Hc').
  rewrite Hc in Hc'. discriminate Hc'.
Qed.

Lemma dash_slash_clash s d1 d2 :
  strptime s "%Y-%m" = Some d1 -> strptime s "%Y/%m" = Some d2 -> False.
Proof.
  intros H1 H2.
  apply strptime_dash_inv in H1 as (y & c & rest & Hy & Hc).
  apply strptime_slash_inv in H2 as (y' & c' & rest' & Hy' & Hc').
  rewrite Hy in Hy'. injection Hy' as <- <- <-. rewrite Hc in Hc'. discriminate Hc'.
Qed.

Lemma strptime_agree s fmt1 fmt2 d1 d2 :
  In fmt1 month_formats -> In fmt2 month_formats ->
  strptime s fmt1 = Some d1 -> strptime s fmt2 = Some d2 -> d1 = d2.
Proof.
  intros Hf1 Hf2 H1 H2. unfold month_formats in Hf1, Hf2. cbn [In] in Hf1, Hf2.
  destruct Hf1 as [<-|[<-|[<-|[<-|[]]]]]; destruct Hf2 as [<-|[<-|[<-|[<-|[]]]]];
    try (rewrite H1 in H2; injection H2 as <-; reflexivity);
    try exact (abbr_full_agree s d1 d2 H1 H2);
    try (symmetry; exact (abbr_full_agree s d2 d1 H2 H1));
    try (exfalso; exact (dash_slash_clash s d1 d2 H1 H2));
    try (exfalso; exact (dash_slash_clash s d2 d1 H2 H1));
    exfalso;
    first [ apply (named_numeric_clash s d1 d2); auto; fail
          | apply (named_numeric_clash s d2 d1); auto ].
Qed.

(** *** The loop over the formats *)

Lemma try_formats_first s fmts :
  (forall f1 f2 d1 d2, In f1 fmts -> In f2 fmts ->
     strptime s f1 = Some d1 -> strptime s f2 = Some d2 -> d1 = d2) ->
  forall fmt d, In fmt fmts -> strptime s fmt = Some d ->
    try_formats s fmts = Some (strftime_Ym d).
Proof.
  induction fmts as [|f fmts IH]; intros Hagree fmt d Hin Hd; [destruct Hin|].
  cbn [try_formats]. destruct (strptime s f) as [d'|] eqn:Hf.
  - rewrite (Hagree f fmt d' d (or_introl eq_refl) Hin Hf Hd). reflexivity.
  - destruct Hin as [->|Hin]; [rewrite Hd in Hf; discriminate Hf|].
    apply (IH (fun f1 f2 d1 d2 H1 H2 => Hagree f1 f2 d1 d2 (or_intror H1) (or_intror H2))
              fmt d Hin Hd).
Qed.

Lemma try_formats_none s fmts :
  (forall fmt, In fmt fmts -> strptime s fmt = None) -> try_formats s fmts = None.
Proof.
  induction fmts as [|f fmts IH]; intros Hnone; [reflexivity|].
  cbn [try_formats]. rewrite (Hnone f (or_introl eq_refl)).
  apply IH. intros fmt Hin. apply Hnone. right. exact Hin.
Qed.

Lemma try_formats_priority s fmts key :
  try_formats s fmts = Some key <->
  exists before fmt after d,
    fmts = before ++ fmt :: after
    /\ Forall (fun f => strptime s f = None) before
    /\ strptime s fmt = Some d
    /\ key = strftime_Ym d.
Proof.
  induction fmts as [|f fmts IH]; cbn [try_formats].
  - split; [discriminate|]. intros (before & fmt & after & d & Heq & _).
    destruct before; discriminate Heq.
  - destruct (strptime s f) as [d'|] eqn:Hf; split.
    + intros [= <-]. exists [], f, fmts, d'. repeat split; [constructor|exact Hf].
    + intros (before & fmt & after & d & Heq & Hnone & Hd & ->).
      destruct before as [|f0 before]; cbn in Heq; injection Heq as <- ->.
      * rewrite Hd in Hf. injection Hf as <-. reflexivity.
      * inversion Hnone as [|? ? Hf0 _]; subst. rewrite Hf0 in Hf. discriminate Hf.
    + intros Hrest. apply IH in Hrest as (before & fmt & after & d & -> & Hnone & Hd & ->).
      exists (f :: before), fmt, after, d.
      repeat split; [constructor; assumption|exact Hd].
    + intros (before & fmt & after & d & Heq & Hnone & Hd & ->).
      destruct before as [|f0 before]; cbn in Heq; injection Heq as <- ->.
      * rewrite Hd in Hf. discriminate Hf.
      * apply IH. inversion Hnone as [|? ? _ Hnone']; subst.
        exists before, fmt, after, d. repeat split; assumption.
Qed.

(** *** Texts the formats accept *)

(** The character of a decimal digit. *)
Lemma digit_char (d : Z) :
  (0 <= d < 10)%Z -> digit (ascii_of_N (Z.to_N d + 48)) = Some d.
Proof.
  intros Hd.
  assert (d = 0 \/ d = 1 \/ d = 2 \/ d = 3 \/ d = 4 \/ d = 5 \/ d = 6 \/ d = 7
          \/ d = 8 \/ d = 9)%Z as Hcases by lia.
  repeat (destruct Hcases as [->|Hcases]; [reflexivity|]). subst. reflexivity.
Qed.

Lemma digit_not_space c d : digit c = Some d -> isspace c = false.
Proof. destruct c as [[] [] [] [] [] [] [] []]; vm_compute; congruence. Qed.

Lemma zfill4_chars (y : Z) :
  zfill 4 y =
  String (ascii_of_N (Z.to_N (y / 10 / 10 / 10 mod 10) + 48))
    (String (ascii_of_N (Z.to_N (y / 10 / 10 mod 10) + 48))
       (String (ascii_of_N (Z.to_N (y / 10 mod 10) + 48))
          (String (ascii_of_N (Z.to_N (y mod 10) + 48)) EmptyString))).
Proof. reflexivity. Qed.

Lemma year4_zfill (y : Z) (rest : string) :
  (0 <= y <= 9999)%Z -> year4 (zfill 4 y ++ rest) = Some (y, rest).
Proof.
  intros Hy. rewrite zfill4_chars.
  change (String.append (String ?a (String ?b (String ?c (String ?d EmptyString)))) rest)
    with (String a (String b (String c (String d rest)))).
  cbn [year4].
  rewrite !digit_char by (apply Z.mod_pos_bound; lia).
  f_equal. f_equal.
  pose proof (Z.div_mod y 10 ltac:(lia)).
  pose proof (Z.div_mod (y / 10) 10 ltac:(lia)).
  pose proof (Z.div_mod (y / 10 / 10) 10 ltac:(lia)).
  pose proof (Z.mod_small (y / 10 / 10 / 10) 10) as Hsmall.
  assert (0 <= y / 10 / 10 / 10 < 10)%Z as Htop.
  { rewrite !Z.div_div by lia. split; [apply Z.div_pos; lia|].
    apply Z.div_lt_upper_bound; lia. }
  rewrite (Hsmall Htop). lia.
Qed.



Lemma date_in_range (y mo : Z) :
  (1 <= y <= 9999)%Z -> (1 <= mo <= 12)%Z ->
  date_of {| f_year := y; f_mon := mo |} "" = Some (y, mo).
Proof.
  intros Hy Hmo. unfold date_of. cbn [f_year f_mon].
  replace ((1 <=? y) && (y <=? 9999) && (1 <=? mo) && (mo <=? 12))%Z with true; [reflexivity|].
  symmetry. rewrite !andb_true_iff, !Z.leb_le. lia.
Qed.

Ltac month_cases mo Hmo :=
  let Hcases := fresh "Hcases" in
  assert (mo = 1 \/ mo = 2 \/ mo = 3 \/ mo = 4 \/ mo = 5 \/ mo = 6 \/ mo = 7
          \/ mo = 8 \/ mo = 9 \/ mo = 10 \/ mo = 11 \/ mo = 12)%Z as Hcases by lia;
  clear Hmo;
  repeat (destruct Hcases as [->|Hcases]); [..|subst mo].




Lemma month_num_tail (sep : ascii) (mo : Z) (acc : fields) :
  (1 <= mo <= 12)%Z ->
  re_match [Literal sep; Month_num] (String sep (zfill 2 mo)) acc
  = Some ({| f_year := f_year acc; f_mon := mo |}, EmptyString).
Proof.
  intros Hmo. cbn [re_match]. rewrite Ascii.eqb_refl.
  month_cases mo Hmo; reflexivity.
Qed.

Lemma strptime_numeric_text (sep : ascii) (y mo : Z) :
  (1 <= y <= 9999)%Z -> (1 <= mo <= 12)%Z ->
  re_match [Year4; Literal sep; Month_num] (zfill 4 y ++ String sep (zfill 2 mo)) defaults
  = Some ({| f_year := y; f_mon := mo |}, EmptyString).
Proof.
  intros Hy Hmo.
  change (re_match [Year4; Literal sep; Month_num]
            (zfill 4 y ++ String sep (zfill 2 mo)) defaults)
    with (match year4 (zfill 4 y ++ String sep (zfill 2 mo)) with
          | Some (y', rest) =>
              re_match [Literal sep; Month_num] rest
                {| f_year := y'; f_mon := f_mon defaults |}
          | None => None
          end).
  rewrite year4_zfill by lia. apply month_num_tail. exact Hmo.
Qed.

Lemma strptime_dash_text (y mo : Z) :
  (1 <= y <= 9999)%Z -> (1 <= mo <= 12)%Z ->
  strptime (zfill 4 y ++ "-" ++ zfill 2 mo) "%Y-%m" = Some (y, mo).
Proof.
  intros Hy Hmo. rewrite strptime_unfold.
  change (pattern false "%Y-%m") with (Some [Year4; Literal "-"%char; Month_num]).
  cbv iota. change ("-" ++ zfill 2 mo)%string with (String "-" (zfill 2 mo)).
  rewrite strptime_numeric_text by assumption. apply date_in_range; assumption.
Qed.


(** *** Texts that [strip] leaves alone *)

Lemma rstrip_app (a b : string) :
  rstrip b = b -> b <> "" -> rstrip (a ++ b) = (a ++ b)%string.
Proof.
  intros Hb Hne. induction a as [|c a IH]; [exact Hb|].
  change (rstrip (String c (a ++ b)) = String c (a ++ b)).
  cbn [rstrip]. rewrite IH. destruct (a ++ b)%string eqn:Hab; [|reflexivity].
  exfalso. destruct a; [exact (Hne Hab)|discriminate Hab].
Qed.

Lemma digit_char_not_space (d : Z) : isspace (ascii_of_N (Z.to_N (d mod 10) + 48)) = false.
Proof.
  apply (digit_not_space _ (d mod 10)), digit_char, Z.mod_pos_bound. lia.
Qed.

Lemma rstrip_zfill (w : nat) (n : Z) : rstrip (zfill (S w) n) = zfill (S w) n.
Proof.
  cbn [zfill]. apply rstrip_app; [|discriminate].
  cbn [rstrip]. rewrite digit_char_not_space. reflexivity.
Qed.

Lemma zfill_not_empty (w : nat) (n : Z) : zfill (S w) n <> "".
Proof. cbn [zfill]. destruct (zfill w (n / 10)); discriminate. Qed.

Lemma lstrip_zfill (w : nat) (n : Z) (rest : string) :
  lstrip (zfill (S w) n ++ rest) = (zfill (S w) n ++ rest)%string.
Proof.
  revert n rest. induction w as [|w IH]; intros n rest.
  - cbn [zfill]. change (lstrip (String (ascii_of_N (Z.to_N (n mod 10) + 48)) rest)
                         = String (ascii_of_N (Z.to_N (n mod 10) + 48)) rest).
    cbn [lstrip]. rewrite digit_char_not_space. reflexivity.
  - change (zfill (S (S w)) n)
      with (zfill (S w) (n / 10) ++ String (ascii_of_N (Z.to_N (n mod 10) + 48)) "")%string.
    rewrite string_app_assoc. apply IH.
Qed.


Lemma strip_numeric_text (sep : ascii) (y mo : Z) :
  strip (zfill 4 y ++ String sep (zfill 2 mo)) = (zfill 4 y ++ String sep (zfill 2 mo))%string.
Proof.
  unfold strip. rewrite lstrip_zfill. apply rstrip_app; [|discriminate].
  apply (rstrip_app (String sep "")); [apply rstrip_zfill|apply zfill_not_empty].
Qed.


(** Whatever format accepts the stripped text, its date gives the key. *)
Lemma parse_month_accepted (text fmt : string) (d : Z * Z) :
  In fmt month_formats -> strptime (strip text) fmt = Some d ->
  parse_month text = inr (strftime_Ym d).
Proof.
  intros Hin Hd. unfold parse_month.
  rewrite (try_formats_first (strip text) month_formats
             (strptime_agree (strip text)) fmt d Hin Hd).
  reflexivity.
Qed.

Lemma strftime_four_digits (y mo : Z) :
  (1000 <= y)%Z -> strftime_Ym (y, mo) = (zfill 4 y ++ "-" ++ zfill 2 mo)%string.
Proof.
  intros Hy. unfold strftime_Ym, year_text. cbn [fst snd].
  rewrite !(proj2 (Z.ltb_ge _ _)) by lia. reflexivity.
Qed.




End MonthKeys.

(** ** The keys of [categories] *)

Lemma dict_in_In {V} (key : string) (d : list (string * V)) :
  dict_in key d = true <-> In key (map fst d).
Proof.
  unfold dict_in. rewrite existsb_exists, in_map_iff. split.
  - intros (kv & Hin & Heq). apply String.eqb_eq in Heq. exists kv. split; [symmetry|]; assumption.
  - intros (kv & Heq & Hin). exists kv. split; [exact Hin|]. apply String.eqb_eq. symmetry. exact Heq.
Qed.

Lemma cat_step_nodup {A} (n : nat) acc (ip : nat * string) :
  NoDup (map fst (fst (fst (fst acc)))) ->
  NoDup (map fst (fst (fst (fst (@cat_step A n acc ip))))).
Proof.
  destruct acc as [[[cats full] parent] out], ip as [i part]. cbn [fst]. intros Hnd.
  unfold cat_step.
  destruct (dict_in _ cats) eqn:Hin; cbn [negb].
  - destruct (i =? n - 1)%nat; exact Hnd.
  - cbn [fst]. rewrite map_app. cbn [map fst].
    apply NoDup_app. split; [exact Hnd|]. split.
    + intros x Hx Hx'. apply list_elem_of_In in Hx, Hx'. destruct Hx' as [<-|[]].
      apply dict_in_In in Hx. rewrite Hx in Hin. discriminate Hin.
    + apply NoDup_singleton.
Qed.

Lemma cmd_cat_nodup {A} (st : State A) (spec : string) :
  NoDup (map fst (categories st)) ->
  NoDup (map fst (categories (fst (cmd_cat st spec)))).
Proof.
  intros Hnd. unfold cmd_cat.
  set (parts := map PyStr.strip (PyStr.split ":" spec)).
  assert (forall l acc,
            NoDup (map fst (fst (fst (fst acc)))) ->
            NoDup (map fst (fst (fst (fst
              (fold_left (@cat_step A (length parts)) l acc)))))) as Hfold.
  { induction l as [|ip l IH]; intros acc Hacc; [exact Hacc|].
    cbn [fold_left]. apply IH, cat_step_nodup, Hacc. }
  specialize (Hfold (imap (fun i p => (i, p)) parts) (categories st, "", None, []) Hnd).
  destruct (fold_left _ _ _) as [[[cats full] parent] out]. exact Hfold.
Qed.

Lemma run_command_categories {A} `{Amount A} (st : State A) (c : command A) :
  (forall spec, c <> Cat spec) ->
  categories (fst (run_command st c)) = categories st.
Proof.
  intros Hcat. destruct c as [name typ|spec|mon amt|mon cat amt|mon acc cat amt
                              |mon src dst amt|frm to|mon]; cbn [run_command].
  - unfold cmd_acc. destruct (negb _); [reflexivity|]. destruct (dict_in _ _); reflexivity.
  - contradiction (Hcat spec). reflexivity.
  - unfold cmd_tbb. destruct (parse_month mon); reflexivity.
  - unfold cmd_bud. destruct (parse_month mon); [reflexivity|].
    destruct (negb _); [reflexivity|]. destruct (get_cat_entry _ _ _) eqn:Hget.
    unfold get_cat_entry in Hget. injection Hget as <- <-. reflexivity.
  - unfold cmd_spend. destruct (parse_month mon); [reflexivity|].
    destruct (negb _); [reflexivity|]. destruct (negb _); [reflexivity|].
    destruct (get_cat_entry _ _ _) eqn:Hget.
    unfold get_cat_entry in Hget. injection Hget as <- <-. reflexivity.
  - unfold cmd_xfer. destruct (parse_month mon); [reflexivity|].
    destruct (_ || _); reflexivity.
  - unfold cmd_roll. destruct (parse_month frm); [reflexivity|].
    destruct (parse_month to); [reflexivity|].
    destruct (fold_left _ _ _). reflexivity.
  - reflexivity.
Qed.

(** The keys of [categories] are distinct in every state the commands
    reach from the empty one: what [cmd_roll_spec] asks of the state. *)
Lemma run_categories_nodup {A} `{Amount A} (cs : list (command A)) :
  NoDup (map fst (categories (run fresh_state cs))).
Proof.
  assert (NoDup (map fst (categories (@fresh_state A)))) as Hinit by constructor.
  revert Hinit. generalize (@fresh_state A) as st.
  induction cs as [|c cs IH]; intros st Hst; [exact Hst|].
  rewrite run_cons. apply IH.
  destruct c as [name typ|spec|mon amt|mon cat amt|mon acc cat amt
                 |mon src dst amt|frm to|mon];
    try (rewrite run_command_categories; [exact Hst|intros spec0; discriminate]).
  apply cmd_cat_nodup. exact Hst.
Qed.

(** * Further properties *)

(** ** The keys [parse_month] returns *)

Section Keys.
Import PyStr Datetime.

Lemma date_of_range f rest d :
  date_of f rest = Some d ->
  (1 <= fst d <= 9999)%Z /\ (1 <= snd d <= 12)%Z.
Proof.
  unfold date_of. destruct rest; [|discriminate].
  destruct (_ && _)%bool eqn:Hrange; [|discriminate]. intros [= <-]. cbn [fst snd].
  repeat (apply andb_true_iff in Hrange as [Hrange ?]). lia.
Qed.

Lemma strptime_range s fmt d :
  strptime s fmt = Some d -> (1 <= fst d <= 9999)%Z /\ (1 <= snd d <= 12)%Z.
Proof.
  rewrite strptime_unfold. destruct (pattern false fmt) as [p|]; [|discriminate].
  destruct (re_match p s defaults) as [[f rest]|]; [|discriminate].
  apply date_of_range.
Qed.

Lemma parse_month_is_key text k : parse_month text = inr k -> is_key k.
Proof.
  unfold parse_month. destruct (try_formats _ _) as [k'|] eqn:Htry; [|discriminate].
  intros [= <-]. apply try_formats_priority in Htry as (_ & fmt & _ & [y mo] & _ & _ & Hd & ->).
  apply strptime_range in Hd as [Hy Hmo]. cbn [fst snd] in Hy, Hmo.
  exists y, mo. split; [exact Hy|]. split; [exact Hmo|reflexivity].
Qed.

(** The key of a month from the year 1000 on is a month text. *)
Lemma parse_month_long_key (y mo : Z) :
  (1000 <= y <= 9999)%Z -> (1 <= mo <= 12)%Z ->
  strptime (strftime_Ym (y, mo)) "%Y-%m" = Some (y, mo)
  /\ parse_month (strftime_Ym (y, mo)) = inr (strftime_Ym (y, mo)).
Proof.
  intros Hy Hmo. rewrite strftime_four_digits by lia.
  assert (strptime (zfill 4 y ++ "-" ++ zfill 2 mo) "%Y-%m" = Some (y, mo)) as Hd
    by (apply strptime_dash_text; lia).
  split; [exact Hd|].
  rewrite <- (strftime_four_digits y mo) at 2 by lia.
  apply (parse_month_accepted _ "%Y-%m"); [do 2 right; left; reflexivity|].
  change ("-" ++ zfill 2 mo)%string with (String "-" (zfill 2 mo)) in Hd |- *.
  rewrite strip_numeric_text. exact Hd.
Qed.

(** The key of a month before the year 1000: the year on one, two or
    three digits. *)
Lemma short_key_chars (y mo : Z) :
  (1 <= y < 1000)%Z ->
  exists w, (w < 3)%nat /\ strftime_Ym (y, mo) = (zfill (S w) y ++ String "-" (zfill 2 mo))%string.
Proof.
  intros Hy. unfold strftime_Ym, year_text. cbn [fst snd].
  destruct (y <? 10)%Z; [exists 0%nat; split; [lia|reflexivity]|].
  destruct (y <? 100)%Z; [exists 1%nat; split; [lia|reflexivity]|].
  rewrite (proj2 (Z.ltb_lt _ _)) by lia. exists 2%nat. split; [lia|reflexivity].
Qed.

Lemma year4_short (w : nat) (y : Z) (rest : string) :
  (w < 3)%nat -> year4 (zfill (S w) y ++ String "-" rest) = None.
Proof.
  intros Hw. destruct w as [|[|[|w]]]; [| | |lia].
  - change (zfill 1 y ++ String "-" rest)%string
      with (String (ascii_of_N (Z.to_N (y mod 10) + 48)) (String "-" rest)).
    destruct rest as [|c3 [|c4 rest]]; [reflexivity|reflexivity|].
    cbn [year4]. rewrite digit_char by (apply Z.mod_pos_bound; lia). reflexivity.
  - change (zfill 2 y ++ String "-" rest)%string
      with (String (ascii_of_N (Z.to_N (y / 10 mod 10) + 48))
              (String (ascii_of_N (Z.to_N (y mod 10) + 48)) (String "-" rest))).
    destruct rest as [|c4 rest]; [reflexivity|].
    cbn [year4]. rewrite !digit_char by (apply Z.mod_pos_bound; lia). reflexivity.
  - change (zfill 3 y ++ String "-" rest)%string
      with (String (ascii_of_N (Z.to_N (y / 10 / 10 mod 10) + 48))
              (String (ascii_of_N (Z.to_N (y / 10 mod 10) + 48))
                 (String (ascii_of_N (Z.to_N (y mod 10) + 48)) (String "-" rest)))).
    cbn [year4]. rewrite !digit_char by (apply Z.mod_pos_bound; lia). reflexivity.
Qed.

(** The key of a month before the year 1000 is no month text. *)
Lemma parse_month_short_key (y mo : Z) :
  (1 <= y < 1000)%Z ->
  (String.length (strftime_Ym (y, mo)) < 7)%nat
  /\ parse_month (strftime_Ym (y, mo)) = inl (UnrecognisedMonth (strftime_Ym (y, mo))).
Proof.
  intros Hy. destruct (short_key_chars y mo Hy) as (w & Hw & ->).
  set (key := (zfill (S w) y ++ String "-" (zfill 2 mo))%string).
  split.
  { unfold key. destruct w as [|[|[|w]]]; [| | |lia]; apply Nat.ltb_lt; reflexivity. }
  assert (strip key = key) as Hstrip.
  { unfold strip, key. rewrite lstrip_zfill. apply rstrip_app; [|discriminate].
    apply (rstrip_app (String "-" "")); [apply rstrip_zfill|apply zfill_not_empty]. }
  assert (exists c s', key = String c s' /\ letter c = false) as (c & s' & Hkey & Hc).
  { unfold key. cbn [zfill].
    destruct (zfill w (y / 10)) as [|c0 s0] eqn:Hz.
    - eexists. eexists. split; [reflexivity|].
      apply (digit_not_letter _ (y mod 10)), digit_char, Z.mod_pos_bound. lia.
    - destruct w as [|w]; [discriminate Hz|]. cbn [zfill] in Hz.
      destruct (zfill w (y / 10 / 10)) as [|c1 s1] eqn:Hz1.
      + injection Hz as <- <-. eexists. eexists. split; [reflexivity|].
        apply (digit_not_letter _ (y / 10 mod 10)), digit_char, Z.mod_pos_bound. lia.
      + destruct w as [|w]; [discriminate Hz1|]. cbn [zfill] in Hz1.
        assert (w = 0%nat) as -> by lia. cbn [zfill] in Hz1.
        injection Hz1 as <- <-. injection Hz as <- <-.
        eexists. eexists. split; [reflexivity|].
        apply (digit_not_letter _ (y / 10 / 10 mod 10)), digit_char, Z.mod_pos_bound. lia. }
  unfold parse_month. rewrite Hstrip. rewrite try_formats_none; [reflexivity|].
  intros fmt Hin. unfold month_formats in Hin. cbn [In] in Hin.
  destruct (strptime key fmt) as [d|] eqn:Hd; [exfalso|reflexivity].
  destruct Hin as [<-|[<-|[<-|[<-|[]]]]].
  - destruct (named_head key d (or_introl Hd)) as (c' & s'' & Hkey' & Hc').
    rewrite Hkey in Hkey'. injection Hkey' as <- <-. congruence.
  - destruct (named_head key d (or_intror Hd)) as (c' & s'' & Hkey' & Hc').
    rewrite Hkey in Hkey'. injection Hkey' as <- <-. congruence.
  - apply strptime_dash_inv in Hd as (y' & c' & rest & Hy' & _).
    unfold key in Hy'. rewrite year4_short in Hy' by exact Hw. discriminate Hy'.
  - apply strptime_slash_inv in Hd as (y' & c' & rest & Hy' & _).
    unfold key in Hy'. rewrite year4_short in Hy' by exact Hw. discriminate Hy'.
Qed.

(** X1. Whatever text [parse_month] accepts, the key it returns is the
    key of a month of a year from 1 to 9999.  From the year 1000 on
    the key is [YYYY-MM], seven characters, and a fixed point: given
    back to [parse_month] it is returned unchanged.  Before the year
    1000 the key is shorter, and [parse_month] refuses it. *)
Theorem parse_month_key_shape (text k : string) :
  parse_month text = inr k ->
  exists y mo : Z,
    (1 <= y <= 9999)%Z /\ (1 <= mo <= 12)%Z /\ k = strftime_Ym (y, mo)
    /\ ((1000 <= y)%Z ->
        k = (zfill 4 y ++ "-" ++ zfill 2 mo)%string
        /\ String.length k = 7%nat /\ parse_month k = inr k)
    /\ ((y < 1000)%Z ->
        (String.length k < 7)%nat /\ parse_month k = inl (UnrecognisedMonth k)).
Proof.
  intros Hk. apply parse_month_is_key in Hk as (y & mo & Hy & Hmo & ->).
  exists y, mo. split; [exact Hy|]. split; [exact Hmo|]. split; [reflexivity|]. split.
  - intros Hlong. split; [apply strftime_four_digits; exact Hlong|]. split.
    + rewrite strftime_four_digits by exact Hlong. reflexivity.
    + apply parse_month_long_key; lia.
  - intros Hshort. apply parse_month_short_key. lia.
Qed.

Lemma parse_month_key_shape_witness :
  exists y mo : Z,
    (1 <= y <= 9999)%Z /\ (1 <= mo <= 12)%Z /\ "987-06" = strftime_Ym (y, mo)
    /\ ((1000 <= y)%Z ->
        "987-06" = (zfill 4 y ++ "-" ++ zfill 2 mo)%string
        /\ String.length "987-06" = 7%nat /\ parse_month "987-06" = inr "987-06")
    /\ ((y < 1000)%Z ->
        (String.length "987-06" < 7)%nat
        /\ parse_month "987-06" = inl (UnrecognisedMonth "987-06")).
Proof. apply (parse_month_key_shape "  jun 0987" "987-06"). reflexivity. Defined.

(** X2. The key of a month given back to [parse_month]: from the year
    1000 on it is accepted, in the format [%Y-%m], as the month it is
    the key of, and is returned unchanged; the key of a month before
    the year 1000 is refused. *)
Theorem parse_month_key_round_trip (y mo : Z) :
  (1 <= y <= 9999)%Z -> (1 <= mo <= 12)%Z ->
  parse_month (strftime_Ym (y, mo))
  = (if (1000 <=? y)%Z then inr (strftime_Ym (y, mo))
     else inl (UnrecognisedMonth (strftime_Ym (y, mo))))
  /\ strptime (strftime_Ym (y, mo)) "%Y-%m"
     = (if (1000 <=? y)%Z then Some (y, mo) else None).
Proof.
  intros Hy Hmo. destruct (1000 <=? y)%Z eqn:Hlong.
  - apply Z.leb_le in Hlong.
    destruct (parse_month_long_key y mo ltac:(lia) Hmo) as [Hd Hkey]. split; assumption.
  - apply Z.leb_gt in Hlong. split; [apply parse_month_short_key; lia|].
    destruct (short_key_chars y mo ltac:(lia)) as (w & Hw & ->).
    destruct (strptime _ "%Y-%m") as [d|] eqn:Hd; [exfalso|reflexivity].
    apply strptime_dash_inv in Hd as (y' & c' & rest & Hy' & _).
    rewrite year4_short in Hy' by exact Hw. discriminate Hy'.
Qed.

Lemma parse_month_key_round_trip_witness :
  (parse_month (strftime_Ym (2024, 3)%Z) = inr "2024-03"
   /\ strptime (strftime_Ym (2024, 3)%Z) "%Y-%m" = Some (2024, 3)%Z)
  /\ (parse_month (strftime_Ym (987, 6)%Z) = inl (UnrecognisedMonth "987-06")
      /\ strptime (strftime_Ym (987, 6)%Z) "%Y-%m" = None).
Proof.
  split.
  - apply (parse_month_key_round_trip 2024 3); lia.
  - apply (parse_month_key_round_trip 987 6); lia.
Defined.

End Keys.

(** ** One command at a time *)

Lemma rolled_entry_setdefault {A} `{Amount A} (f t : string) (st : State A) c :
  rolled_entry f t (setdefault_month t (setdefault_month f (category_month st))) c
  = rolled_entry f t (category_month st) c.
Proof.
  unfold rolled_entry, roll_available. rewrite !lookup2_setdefault_month. reflexivity.
Qed.

(** [cmd_roll] on its success path. *)
Lemma cmd_roll_ok {A} `{Amount A} (st : State A) (frm to f t : string) :
  parse_month frm = inr f ->
  parse_month to = inr t ->
  NoDup (map fst (categories st)) ->
  exists cm',
    roll_lookup st f t cm'
    /\ cmd_roll st frm to =
       (Build_State (accounts st) (categories st)
          (<[t := (default 0%amt (month_summary st !! t)
                   - overspend_of st f (map fst (categories st)))%amt]>
             (month_summary st))
          cm' (transactions st),
        Printed [Rolled_forward f t (overspend_of st f (map fst (categories st)))]).
Proof.
  intros Hf Ht Hnd. unfold cmd_roll. rewrite Hf, Ht.
  set (cats := map fst (categories st)).
  set (cm0 := setdefault_month t (setdefault_month f (category_month st))).
  destruct (roll_fold f t cats cm0 0%amt Hnd) as (Hin & Hout & Ho).
  destruct (fold_left (roll_step f t) cats (cm0, 0%amt)) as [cm' o'].
  cbn [fst snd] in Hin, Hout, Ho.
  assert (forall m c, lookup2 cm0 m c = lookup_entry st m c) as H0.
  { intros m c. unfold cm0. rewrite !lookup2_setdefault_month. reflexivity. }
  assert (o' = overspend_of st f cats) as ->.
  { rewrite Ho. unfold overspend_of, source_available, entry_at.
    apply fold_left_pointwise. intros o c.
    unfold roll_charge, roll_available. rewrite H0. reflexivity. }
  exists cm'. split; [|reflexivity].
  intros m c. destruct (String.eqb m t) eqn:Hm; cbn [andb].
  - apply String.eqb_eq in Hm as ->.
    destruct (dict_in c (categories st)) eqn:Hc.
    + apply dict_in_In in Hc. rewrite (Hin c Hc). f_equal. apply rolled_entry_setdefault.
    + rewrite Hout; [apply H0|]. right. intros Hc'. apply dict_in_In in Hc'.
      rewrite Hc' in Hc. discriminate Hc.
  - rewrite Hout; [apply H0|]. left. intros ->. rewrite String.eqb_refl in Hm.
    discriminate Hm.
Qed.

Lemma run_command_effect {A} `{Amount A} (st : State A) (c : command A) :
  NoDup (map fst (categories st)) ->
  effect st (fst (run_command st c)).
Proof.
  intros Hnd. destruct c as [name typ|spec|mon amt|mon cat amt|mon acc cat amt
                             |mon src dst amt|frm to|mon]; cbn [run_command].
  - unfold cmd_acc.
    destruct (String.eqb typ "bank" || String.eqb typ "credit") eqn:Htyp; cbn [negb];
      [|apply Eff_none].
    destruct (dict_in name (accounts st)) eqn:Hname; [apply Eff_none|].
    apply Eff_acc; [|exact Hname].
    apply orb_true_iff in Htyp as [Hb|Hc]; [left|right]; apply String.eqb_eq; assumption.
  - apply Eff_cat.
  - unfold cmd_tbb. destruct (parse_month mon) as [e|m] eqn:Hm; [apply Eff_none|].
    apply Eff_tbb. apply (parse_month_is_key mon m Hm).
  - destruct (parse_month mon) as [e|m] eqn:Hm.
    { unfold cmd_bud. rewrite Hm. apply Eff_none. }
    destruct (dict_in cat (categories st)) eqn:Hc.
    + rewrite (cmd_bud_ok st mon cat amt m Hm Hc).
      apply Eff_bud; [apply (parse_month_is_key mon m Hm)|exact Hc].
    + unfold cmd_bud. rewrite Hm, Hc. apply Eff_none.
  - destruct (parse_month mon) as [e|m] eqn:Hm.
    { unfold cmd_spend. rewrite Hm. apply Eff_none. }
    destruct (dict_in acc (accounts st)) eqn:Ha.
    2: { unfold cmd_spend. rewrite Hm, Ha. apply Eff_none. }
    destruct (dict_in cat (categories st)) eqn:Hc.
    + rewrite (cmd_spend_ok st mon acc cat amt m Hm Ha Hc).
      apply Eff_spend; [apply (parse_month_is_key mon m Hm)|exact Ha|exact Hc].
    + unfold cmd_spend. rewrite Hm, Ha, Hc. apply Eff_none.
  - destruct (parse_month mon) as [e|m] eqn:Hm.
    { unfold cmd_xfer. rewrite Hm. apply Eff_none. }
    destruct (dict_in src (accounts st)) eqn:Hs.
    2: { unfold cmd_xfer. rewrite Hm, Hs. apply Eff_none. }
    destruct (dict_in dst (accounts st)) eqn:Hd.
    + rewrite (cmd_xfer_ok st mon src dst amt m Hm Hs Hd).
      apply Eff_xfer; [apply (parse_month_is_key mon m Hm)|exact Hs|exact Hd].
    + unfold cmd_xfer. rewrite Hm, Hs, Hd. apply Eff_none.
  - destruct (parse_month frm) as [e|f] eqn:Hf.
    { unfold cmd_roll. rewrite Hf. apply Eff_none. }
    destruct (parse_month to) as [e|t] eqn:Ht.
    { unfold cmd_roll. rewrite Hf, Ht. apply Eff_none. }
    destruct (cmd_roll_ok st frm to f t Hf Ht Hnd) as (cm' & Hlook & ->).
    apply Eff_roll;
      [apply (parse_month_is_key frm f Hf)|apply (parse_month_is_key to t Ht)|exact Hlook].
  - apply Eff_none.
Qed.

(** ** Categories: the loop of [cmd_cat] *)

Lemma enumerate_cons {B} (k : nat) (x : B) (l : list B) :
  imap (fun i p => (k + i, p)) (x :: l) = (k, x) :: imap (fun i p => (S k + i, p)) l.
Proof.
  rewrite imap_cons. f_equal; [f_equal; lia|].
  apply imap_ext. intros i y _. cbn. f_equal. lia.
Qed.

Lemma dict_in_app {V} (key : string) (d d' : list (string * V)) :
  dict_in key (d ++ d') = dict_in key d || dict_in key d'.
Proof. unfold dict_in. apply existsb_app. Qed.

Lemma split_not_nil (sep : ascii) (s : string) : PyStr.split sep s <> [].
Proof.
  destruct s as [|c s]; cbn; [discriminate|].
  destruct (Ascii.eqb c sep); [discriminate|].
  destruct (PyStr.split sep s); discriminate.
Qed.

Lemma cat_step_eq {A} (n i : nat) cats full parent (out : list (line A)) part :
  cat_step n (cats, full, parent, out) (i, part) =
  let full' := next_path i full part in
  if dict_in full' cats then
    (cats, full', Some full',
     if (i =? n - 1)%nat then out ++ [Category_exists full'] else out)
  else
    (cats ++ [(full', parent)], full', Some full', out ++ [Category_added full']).
Proof.
  unfold cat_step, next_path. cbn zeta.
  destruct (dict_in _ cats); cbn [negb]; [|reflexivity].
  destruct (i =? n - 1)%nat; reflexivity.
Qed.

(** The first run: what the loop adds. *)
Lemma cat_loop_grows {A} (n : nat) (l : list string) :
  forall k cats full parent (out : list (line A)),
    let r := fold_left (cat_step n) (imap (fun i p => (k + i, p)) l)
               (cats, full, parent, out) in
    (exists added, fst (fst (fst r)) = cats ++ added)
    /\ Forall (fun p => dict_in p (fst (fst (fst r))) = true) (cat_paths k full l).
Proof.
  induction l as [|part l IH]; intros k cats full parent out; cbn zeta.
  - cbn. split; [exists []; symmetry; apply app_nil_r|constructor].
  - rewrite enumerate_cons. cbn [fold_left cat_paths]. rewrite cat_step_eq. cbn zeta.
    set (full' := next_path k full part).
    destruct (dict_in full' cats) eqn:Hin.
    + specialize (IH (S k) cats full' (Some full')
                    (if (k =? n - 1)%nat then out ++ [Category_exists full'] else out)).
      cbn zeta in IH. destruct IH as ((added & Hadd) & Hall).
      split; [exists added; exact Hadd|].
      constructor; [|exact Hall]. rewrite Hadd, dict_in_app, Hin. reflexivity.
    + assert (dict_in full' (cats ++ [(full', parent)]) = true) as Hin'.
      { rewrite dict_in_app. apply orb_true_iff. right. cbn.
        rewrite String.eqb_refl. reflexivity. }
      specialize (IH (S k) (cats ++ [(full', parent)]) full' (Some full')
                    (out ++ [Category_added full'])).
      cbn zeta in IH. destruct IH as ((added & Hadd) & Hall).
      split; [exists ((full', parent) :: added); rewrite Hadd, <- app_assoc; reflexivity|].
      constructor; [|exact Hall]. rewrite Hadd, dict_in_app, Hin'. reflexivity.
Qed.

(** A run over paths that are all there: nothing is added, and the
    last path is reported. *)
Lemma cat_loop_present {A} (n : nat) (l : list string) :
  forall k cats full parent (out : list (line A)),
    n = (k + length l)%nat ->
    Forall (fun p => dict_in p cats = true) (cat_paths k full l) ->
    let r := fold_left (cat_step n) (imap (fun i p => (k + i, p)) l)
               (cats, full, parent, out) in
    fst (fst (fst r)) = cats
    /\ snd r = out ++ match last (cat_paths k full l) with
                      | Some leaf => [Category_exists leaf]
                      | None => []
                      end.
Proof.
  induction l as [|part l IH]; intros k cats full parent out Hn Hall; cbn zeta.
  - cbn. split; [reflexivity|]. symmetry. apply app_nil_r.
  - rewrite enumerate_cons. cbn [fold_left cat_paths] in *. rewrite cat_step_eq. cbn zeta.
    apply Forall_cons in Hall as [Hin Hrest]. rewrite Hin.
    destruct l as [|part' l].
    + replace (k =? n - 1)%nat with true
        by (symmetry; apply Nat.eqb_eq; cbn [length] in Hn; lia).
      cbn. split; reflexivity.
    + replace (k =? n - 1)%nat with false
        by (symmetry; apply Nat.eqb_neq; cbn [length] in Hn; lia).
      specialize (IH (S k) cats (next_path k full part) (Some (next_path k full part)) out
                    ltac:(cbn [length] in Hn |- *; lia) Hrest).
      cbn zeta in IH. cbn [cat_paths] in IH |- *. rewrite last_cons_cons. exact IH.
Qed.

Lemma cat_paths_last (l : list string) :
  forall k full part,
    last (cat_paths k full (part :: l))
    = Some (next_path k full (String.concat ":" (part :: l))).
Proof.
  induction l as [|part' l IH]; intros k full part; [reflexivity|].
  cbn [cat_paths]. rewrite last_cons_cons.
  change (last (cat_paths (S k) (next_path k full part) (part' :: l))
          = Some (next_path k full (String.concat ":" (part :: part' :: l)))).
  rewrite IH. f_equal. unfold next_path. cbn [Nat.ltb Nat.leb].
  change (String.concat ":" (part :: part' :: l))
    with (part ++ ":" ++ String.concat ":" (part' :: l))%string.
  rewrite !string_app_assoc. reflexivity.
Qed.

Lemma cmd_cat_frame {A} (st : State A) (spec : string) :
  fst (cmd_cat st spec) = set_categories st (categories (fst (cmd_cat st spec))).
Proof.
  unfold cmd_cat. destruct (fold_left _ _ _) as [[[cats full] parent] out]. reflexivity.
Qed.

Lemma cmd_cat_grows {A} (st : State A) (spec : string) :
  let parts := map PyStr.strip (PyStr.split ":" spec) in
  let st' := fst (cmd_cat st spec) in
  (exists added, categories st' = categories st ++ added)
  /\ Forall (fun p => dict_in p (categories st') = true) (cat_paths 0 "" parts).
Proof.
  intros parts st'.
  pose proof (cat_loop_grows (A := A) (length parts) parts 0 (categories st) "" None [])
    as Hloop.
  cbn zeta in Hloop. unfold st', cmd_cat. fold parts.
  change (imap (fun i p => (i, p)) parts) with (imap (fun i p => (0 + i, p))%nat parts).
  destruct (fold_left _ _ _) as [[[cats full] parent] out]. exact Hloop.
Qed.

(** X3. [cmd_cat] is idempotent, for every spec and every state: after
    one call the leaf path (the stripped parts joined by colons) is a
    category, and a second call with the same spec returns the state
    exactly as the first left it and prints one line only, that the
    leaf already exists. *)
Theorem cmd_cat_idempotent {A} (st : State A) (spec : string) :
  let leaf := String.concat ":" (map PyStr.strip (PyStr.split ":" spec)) in
  let st1 := fst (cmd_cat st spec) in
  dict_in leaf (categories st1) = true
  /\ cmd_cat st1 spec = (st1, Printed [Category_exists leaf]).
Proof.
  intros leaf st1.
  destruct (cmd_cat_grows st spec) as (_ & Hall). fold st1 in Hall.
  set (parts := map PyStr.strip (PyStr.split ":" spec)) in *.
  assert (last (cat_paths 0 "" parts) = Some leaf) as Hlast.
  { unfold leaf. destruct parts as [|part l] eqn:Hparts.
    - exfalso. unfold parts in Hparts. apply map_eq_nil in Hparts.
      exact (split_not_nil _ _ Hparts).
    - rewrite cat_paths_last. reflexivity. }
  split.
  - apply last_Some in Hlast as (l' & Hl'). rewrite Hl' in Hall.
    apply Forall_app in Hall as [_ Hleaf]. apply Forall_inv in Hleaf. exact Hleaf.
  - pose proof (cat_loop_present (A := A) (length parts) parts 0 (categories st1) "" None []
                  eq_refl Hall) as Hloop.
    cbn zeta in Hloop. rewrite Hlast in Hloop.
    unfold cmd_cat at 1. fold parts.
    change (imap (fun i p => (i, p)) parts) with (imap (fun i p => (0 + i, p))%nat parts).
    destruct (fold_left _ _ _) as [[[cats full] parent] out].
    cbn [fst snd] in Hloop. destruct Hloop as [-> ->].
    cbn [app]. f_equal. unfold st1. rewrite cmd_cat_frame. reflexivity.
Qed.

(** ** Invariants of the reachable states *)

Lemma run_command_nodup {A} `{Amount A} (st : State A) (c : command A) :
  NoDup (map fst (categories st)) ->
  NoDup (map fst (categories (fst (run_command st c)))).
Proof.
  intros Hnd.
  destruct c as [name typ|spec|mon amt|mon cat amt|mon acc cat amt
                 |mon src dst amt|frm to|mon];
    try (rewrite run_command_categories; [exact Hnd|intros spec0; discriminate]).
  apply cmd_cat_nodup. exact Hnd.
Qed.

(** A property of the start state that every effect keeps holds after
    every run. *)
Lemma run_invariant {A} `{Amount A} (P : State A -> Prop) (cs : list (command A)) :
  (forall st st', NoDup (map fst (categories st)) -> P st -> effect st st' -> P st') ->
  forall st, NoDup (map fst (categories st)) -> P st -> P (run st cs).
Proof.
  intros Hstep. induction cs as [|c cs IH]; intros st Hnd HP; [exact HP|].
  rewrite run_cons. apply IH; [apply run_command_nodup; exact Hnd|].
  apply (Hstep st _ Hnd HP). apply run_command_effect. exact Hnd.
Qed.

Lemma effect_accounts {A} `{Amount A} (st st' : State A) :
  effect st st' ->
  accounts st' = accounts st
  \/ exists name typ,
       (typ = "bank" \/ typ = "credit") /\ dict_in name (accounts st) = false
       /\ accounts st' = accounts st ++ [(name, typ)].
Proof.
  intros [|name typ Htyp Hname|spec|m amt Hm|m cat amt Hm Hc|m acc cat amt Hm Ha Hc
          |m src dst amt Hm Hs Hd|f t cm' Hf Ht Hlook];
    try (left; reflexivity).
  - right. exists name, typ. repeat split; assumption.
  - left. rewrite cmd_cat_frame. reflexivity.
Qed.

Lemma effect_categories {A} `{Amount A} (st st' : State A) :
  effect st st' ->
  exists added, categories st' = categories st ++ added.
Proof.
  intros [|name typ Htyp Hname|spec|m amt Hm|m cat amt Hm Hc|m acc cat amt Hm Ha Hc
          |m src dst amt Hm Hs Hd|f t cm' Hf Ht Hlook];
    try (exists []; symmetry; apply app_nil_r).
  destruct (cmd_cat_grows st spec) as (Hadd & _). exact Hadd.
Qed.

Lemma effect_transactions {A} `{Amount A} (st st' : State A) :
  effect st st' ->
  exists new,
    transactions st' = transactions st ++ new
    /\ (length new <= 2)%nat
    /\ Forall (tx_ok st) new.
Proof.
  intros [|name typ Htyp Hname|spec|m amt Hm|m cat amt Hm Hc|m acc cat amt Hm Ha Hc
          |m src dst amt Hm Hs Hd|f t cm' Hf Ht Hlook];
    try (exists []; split; [symmetry; apply app_nil_r|split; [cbn; lia|constructor]]).
  - exists []. rewrite cmd_cat_frame.
    split; [symmetry; apply app_nil_r|split; [cbn; lia|constructor]].
  - eexists. split; [reflexivity|]. split; [cbn; lia|].
    constructor; [|constructor]. unfold tx_ok; cbn.
    split; [exact Hm|]. split; [discriminate|]. split; [|right; discriminate].
    intros c [= <-]. exact Hc.
  - eexists. split; [reflexivity|]. split; [cbn; lia|].
    constructor; [|constructor]. unfold tx_ok; cbn.
    split; [exact Hm|]. split; [intros a [= <-]; exact Ha|].
    split; [intros c [= <-]; exact Hc|left; discriminate].
  - eexists. split; [reflexivity|]. split; [cbn; lia|].
    constructor; [|constructor; [|constructor]]; unfold tx_ok; cbn.
    + split; [exact Hm|]. split; [intros a [= <-]; exact Hs|].
      split; [discriminate|left; discriminate].
    + split; [exact Hm|]. split; [intros a [= <-]; exact Hd|].
      split; [discriminate|left; discriminate].
Qed.

Lemma dict_in_grows {V} (key : string) (d added : list (string * V)) :
  dict_in key d = true -> dict_in key (d ++ added) = true.
Proof. intros Hin. rewrite dict_in_app, Hin. reflexivity. Qed.

Lemma accounts_ok_effect {A} `{Amount A} (st st' : State A) :
  accounts_ok st -> effect st st' -> accounts_ok st'.
Proof.
  intros [Hnd Htypes] Heff. unfold accounts_ok.
  destruct (effect_accounts st st' Heff) as [->|(name & typ & Htyp & Hname & ->)];
    [split; assumption|].
  split.
  - rewrite map_app. cbn [map fst]. apply NoDup_app. split; [exact Hnd|]. split.
    + intros x Hx Hx'. apply list_elem_of_In in Hx, Hx'. destruct Hx' as [<-|[]].
      apply dict_in_In in Hx. rewrite Hx in Hname. discriminate Hname.
    + apply NoDup_singleton.
  - apply Forall_app. split; [exact Htypes|]. constructor; [exact Htyp|constructor].
Qed.

Lemma tx_ok_effect {A} `{Amount A} (st st' : State A) (tx : Transaction A) :
  effect st st' -> tx_ok st tx -> tx_ok st' tx.
Proof.
  intros Heff (Hm & Ha & Hc & Hsome). unfold tx_ok.
  destruct (effect_categories st st' Heff) as (added & Hcats).
  split; [exact Hm|]. split; [|split; [|exact Hsome]].
  - intros a Htx. specialize (Ha a Htx).
    destruct (effect_accounts st st' Heff) as [->|(name & typ & _ & _ & ->)];
      [exact Ha|apply dict_in_grows; exact Ha].
  - intros c Htx. rewrite Hcats. apply dict_in_grows. exact (Hc c Htx).
Qed.

Lemma log_ok_effect {A} `{Amount A} (st st' : State A) :
  Forall (tx_ok st) (transactions st) -> effect st st' ->
  Forall (tx_ok st') (transactions st').
Proof.
  intros Hlog Heff.
  destruct (effect_transactions st st' Heff) as (new & -> & _ & Hnew).
  apply Forall_app. split.
  - eapply Forall_impl; [exact Hlog|]. intros tx. apply tx_ok_effect. exact Heff.
  - eapply Forall_impl; [exact Hnew|]. intros tx. apply tx_ok_effect. exact Heff.
Qed.

Lemma months_ok_effect {A} `{Amount A} (st st' : State A) :
  months_ok st -> effect st st' -> months_ok st'.
Proof.
  intros [Hent Hsum] Heff.
  destruct Heff as [|name typ Htyp Hname|spec|m amt Hm|m cat amt Hm Hc
                    |m acc cat amt Hm Ha Hc|m src dst amt Hm Hs Hd|f t cm' Hf Ht Hlook].
  - split; assumption.
  - split; assumption.
  - destruct (cmd_cat_grows st spec) as ((added & Hadd) & _).
    rewrite cmd_cat_frame in Hadd |- *. cbn [categories set_categories] in Hadd.
    split; [|exact Hsum]. intros m c e Hlook.
    destruct (Hent m c e Hlook) as [Hm Hc]. split; [exact Hm|].
    cbn [categories set_categories]. rewrite Hadd. apply dict_in_grows. exact Hc.
  - split; [exact Hent|]. intros m' x. cbn [month_summary set_month_summary].
    destruct (decide (m = m')) as [<-|Hne].
    + intros _. exact Hm.
    + rewrite lookup_insert_ne by exact Hne. apply Hsum.
  - split; [|exact Hsum]. intros m' c' e Hlook.
    destruct (decide ((m', c') = (m, cat))) as [[= -> ->]|Hne].
    + split; [exact Hm|exact Hc].
    + rewrite lookup_entry_updated_ne in Hlook by exact Hne. exact (Hent m' c' e Hlook).
  - split; [|exact Hsum]. intros m' c' e Hlook.
    destruct (decide ((m', c') = (m, cat))) as [[= -> ->]|Hne].
    + split; [exact Hm|exact Hc].
    + rewrite lookup_entry_updated_ne in Hlook by exact Hne. exact (Hent m' c' e Hlook).
  - split; assumption.
  - split.
    + intros m c e. unfold lookup_entry at 1. cbn [category_month categories].
      rewrite (Hlook m c).
      destruct (String.eqb m t && dict_in c (categories st)) eqn:Hcond; [|apply Hent].
      apply andb_true_iff in Hcond as [Hmt Hc].
      intros _. apply String.eqb_eq in Hmt as ->. split; [exact Ht|exact Hc].
    + intros m x. cbn [month_summary].
      destruct (decide (t = m)) as [<-|Hne].
      * intros _. exact Ht.
      * rewrite lookup_insert_ne by exact Hne. apply Hsum.
Qed.

Lemma fresh_state_nodup {A} : NoDup (map fst (categories (@fresh_state A))).
Proof. constructor. Qed.

(** X4. In every state the commands reach from the empty state the
    account names are distinct and every account's type is ["bank"] or
    ["credit"]. *)
Theorem accounts_ok_reachable {A} `{Amount A} (cs : list (command A)) :
  accounts_ok (run fresh_state cs).
Proof.
  apply (run_invariant accounts_ok cs).
  - intros st st' _. apply accounts_ok_effect.
  - apply fresh_state_nodup.
  - split; constructor.
Qed.

(** X6. In every reachable state every transaction of the log has a
    month key for month, names a registered account when it names an
    account and a registered category when it names a category, and
    names at least one of the two. *)
Theorem log_ok_reachable {A} `{Amount A} (cs : list (command A)) :
  Forall (tx_ok (run fresh_state cs)) (transactions (run fresh_state cs)).
Proof.
  apply (run_invariant (fun st => Forall (tx_ok st) (transactions st)) cs).
  - intros st st' _. apply log_ok_effect.
  - apply fresh_state_nodup.
  - constructor.
Qed.

(** X7. In every reachable state every entry of [category_month] sits
    under a month key and a registered category, and every month of
    [month_summary] is a month key. *)
Theorem months_ok_reachable {A} `{Amount A} (cs : list (command A)) :
  months_ok (run fresh_state cs).
Proof.
  apply (run_invariant months_ok cs).
  - intros st st' _. apply months_ok_effect.
  - apply fresh_state_nodup.
  - split.
    + intros m c e Hlook. unfold lookup_entry, lookup2 in Hlook. cbn in Hlook.
      rewrite lookup_empty in Hlook. discriminate Hlook.
    + intros m x Hlook. cbn in Hlook. rewrite lookup_empty in Hlook. discriminate Hlook.
Qed.

(** ** Nothing is taken back *)

(** X8. Accounts, categories and transactions only grow: after any run
    of commands from a state, what it had of each is still there, in
    the same order and unchanged, at the head of the list. *)
Theorem run_only_appends {A} `{Amount A} (st : State A) (cs : list (command A)) :
  NoDup (map fst (categories st)) ->
  accounts st `prefix_of` accounts (run st cs)
  /\ categories st `prefix_of` categories (run st cs)
  /\ transactions st `prefix_of` transactions (run st cs).
Proof.
  intros Hnd.
  apply (run_invariant
           (fun st' => accounts st `prefix_of` accounts st'
                       /\ categories st `prefix_of` categories st'
                       /\ transactions st `prefix_of` transactions st') cs);
    [|exact Hnd|repeat split; reflexivity].
  intros st1 st2 _ (Ha & Hc & Ht) Heff. split; [|split].
  - etransitivity; [exact Ha|].
    destruct (effect_accounts st1 st2 Heff) as [->|(name & typ & _ & _ & ->)];
      [reflexivity|apply prefix_app_r; reflexivity].
  - etransitivity; [exact Hc|].
    destruct (effect_categories st1 st2 Heff) as (added & ->).
    apply prefix_app_r. reflexivity.
  - etransitivity; [exact Ht|].
    destruct (effect_transactions st1 st2 Heff) as (new & -> & _).
    apply prefix_app_r. reflexivity.
Qed.

Lemma run_only_appends_witness :
  let st : State float :=
    Build_State [("Checking", "bank")] [("Food", None)] ∅ ∅
      [Build_Transaction "2024-03" None (Some "Food") 10%float] in
  let cs := [Acc "Visa" "credit"; Cat "Food:Out"; Spend "2024-03" "Visa" "Food" 4%float;
             Roll_forward "2024-03" "2024-04"] in
  accounts st `prefix_of` accounts (run st cs)
  /\ categories st `prefix_of` categories (run st cs)
  /\ transactions st `prefix_of` transactions (run st cs).
Proof.
  intros st cs. apply (run_only_appends st cs).
  apply (bool_decide_unpack _). vm_compute. exact I.
Defined.

(** ** Failures change nothing *)

Lemma cat_step_lines {A} (n : nat) acc (ip : nat * string) :
  forallb category_line (snd acc) = true ->
  forallb category_line (snd (@cat_step A n acc ip)) = true.
Proof.
  destruct acc as [[[cats full] parent] out], ip as [i part]. cbn [snd]. intros Hout.
  rewrite cat_step_eq. cbn zeta.
  destruct (dict_in _ cats); [destruct (i =? n - 1)%nat|]; cbn [snd];
    rewrite ?forallb_app, ?Hout; reflexivity.
Qed.

Lemma cmd_cat_lines {A} (st : State A) (spec : string) :
  exists out, snd (cmd_cat st spec) = Printed out /\ forallb category_line out = true.
Proof.
  unfold cmd_cat.
  set (parts := map PyStr.strip (PyStr.split ":" spec)).
  assert (forall l acc,
            forallb category_line (snd acc) = true ->
            forallb category_line
              (snd (fold_left (@cat_step A (length parts)) l acc)) = true) as Hfold.
  { induction l as [|ip l IH]; intros acc Hacc; [exact Hacc|].
    cbn [fold_left]. apply IH, cat_step_lines, Hacc. }
  specialize (Hfold (imap (fun i p => (i, p)) parts) (categories st, "", None, []) eq_refl).
  destruct (fold_left _ _ _) as [[[cats full] parent] out].
  exists out. split; [reflexivity|exact Hfold].
Qed.

(** X9. No command applies part of its effect: whenever a command ends
    in a failure (it raises, or it prints one of the error lines and
    returns), the state it leaves is exactly the state it was given. *)
Theorem failure_leaves_state {A} `{Amount A} (st : State A) (c : command A) :
  failed (snd (run_command st c)) = true ->
  fst (run_command st c) = st.
Proof.
  destruct c as [name typ|spec|mon amt|mon cat amt|mon acc cat amt
                 |mon src dst amt|frm to|mon]; cbn [run_command].
  - unfold cmd_acc. destruct (negb _); [reflexivity|].
    destruct (dict_in _ _); [reflexivity|discriminate].
  - destruct (cmd_cat_lines st spec) as (out & -> & Hout). cbn [snd]. intros Hfailed.
    exfalso. destruct out as [|l [|l' out]]; [discriminate Hfailed| |].
    + cbn in Hout. destruct l; discriminate.
    + destruct l; discriminate.
  - unfold cmd_tbb. destruct (parse_month mon); [reflexivity|discriminate].
  - destruct (parse_month mon) as [e|m] eqn:Hm.
    { unfold cmd_bud. rewrite Hm. reflexivity. }
    destruct (dict_in cat (categories st)) eqn:Hc.
    + rewrite (cmd_bud_ok st mon cat amt m Hm Hc). discriminate.
    + unfold cmd_bud. rewrite Hm, Hc. reflexivity.
  - destruct (parse_month mon) as [e|m] eqn:Hm.
    { unfold cmd_spend. rewrite Hm. reflexivity. }
    destruct (dict_in acc (accounts st)) eqn:Ha.
    2: { unfold cmd_spend. rewrite Hm, Ha. reflexivity. }
    destruct (dict_in cat (categories st)) eqn:Hc.
    + rewrite (cmd_spend_ok st mon acc cat amt m Hm Ha Hc). discriminate.
    + unfold cmd_spend. rewrite Hm, Ha, Hc. reflexivity.
  - unfold cmd_xfer. destruct (parse_month mon); [reflexivity|].
    destruct (_ || _); [reflexivity|discriminate].
  - unfold cmd_roll. destruct (parse_month frm); [reflexivity|].
    destruct (parse_month to); [reflexivity|].
    destruct (fold_left _ _ _). discriminate.
  - reflexivity.
Qed.

Lemma failure_leaves_state_witness :
  let st : State float := Build_State [("Checking", "bank")] [] ∅ ∅ [] in
  fst (run_command st (Xfer "2024-03" "Checking" "Savings" 5%float)) = st
  /\ fst (run_command st (Roll_forward "2024-03" "next month")) = st
  /\ fst (run_command st (Acc "Checking" "credit")) = st.
Proof.
  intros st. split; [|split].
  - apply (failure_leaves_state st (Xfer "2024-03" "Checking" "Savings" 5%float)).
    reflexivity.
  - apply (failure_leaves_state st (Roll_forward "2024-03" "next month")). reflexivity.
  - apply (failure_leaves_state st (Acc "Checking" "credit")). reflexivity.
Defined.

(** ** To-be-budgeted is set, not added *)

(** X10. [cmd_tbb] assigns: a second call for the same month, whatever
    the two month texts, leaves the state that the second call alone
    would have left.  That state differs from the one before in the
    month's ready_to_assign only, which is [round(amt, 2)] of the last
    amount: no other month changes and no transaction is logged. *)
Theorem cmd_tbb_overwrites {A} `{Amount A} (st : State A) (mon1 mon2 m : string)
    (amt1 amt2 : A) :
  parse_month mon1 = inr m ->
  parse_month mon2 = inr m ->
  let st2 := fst (cmd_tbb (fst (cmd_tbb st mon1 amt1)) mon2 amt2) in
  st2 = fst (cmd_tbb st mon2 amt2)
  /\ month_summary st2 !! m = Some (a_round2 amt2)
  /\ (forall m', m' <> m -> month_summary st2 !! m' = month_summary st !! m')
  /\ transactions st2 = transactions st
  /\ category_month st2 = category_month st.
Proof.
  intros H1 H2. unfold cmd_tbb. rewrite H1, H2. cbn.
  rewrite insert_insert_eq. repeat split.
  - apply lookup_insert_eq.
  - intros m' Hne. apply lookup_insert_ne. congruence.
Qed.

Lemma cmd_tbb_overwrites_witness :
  let st : State float := fresh_state in
  let st2 := fst (cmd_tbb (fst (cmd_tbb st "Mar 2024" 500%float)) "2024/03" 120.456%float) in
  st2 = fst (cmd_tbb st "2024/03" 120.456%float)
  /\ month_summary st2 !! "2024-03" = Some (a_round2 120.456%float)
  /\ (forall m', m' <> "2024-03" -> month_summary st2 !! m' = month_summary st !! m')
  /\ transactions st2 = transactions st
  /\ category_month st2 = category_month st.
Proof.
  apply (cmd_tbb_overwrites fresh_state "Mar 2024" "2024/03" "2024-03"); reflexivity.
Defined.

(** ** Rollover: what it leaves alone, and running it twice *)

(** X11. [cmd_roll] with valid month texts logs no transaction and
    leaves accounts and categories alone; outside the destination month
    [t] no entry and no ready_to_assign changes (so, between two
    different months, the source month is as it was), and in month [t]
    only the entries of registered categories change. *)
Theorem cmd_roll_frame {A} `{Amount A} (st : State A) (frm to f t : string) :
  parse_month frm = inr f ->
  parse_month to = inr t ->
  NoDup (map fst (categories st)) ->
  let st' := fst (cmd_roll st frm to) in
  transactions st' = transactions st
  /\ accounts st' = accounts st
  /\ categories st' = categories st
  /\ (forall m c, m <> t \/ dict_in c (categories st) = false ->
        lookup_entry st' m c = lookup_entry st m c)
  /\ (forall m, m <> t -> month_summary st' !! m = month_summary st !! m).
Proof.
  intros Hf Ht Hnd. destruct (cmd_roll_ok st frm to f t Hf Ht Hnd) as (cm' & Hlook & ->).
  cbn [fst]. repeat split.
  - intros m c Hmc. unfold lookup_entry at 1. cbn [category_month]. rewrite (Hlook m c).
    destruct Hmc as [Hm|Hc].
    + apply String.eqb_neq in Hm. rewrite Hm. reflexivity.
    + rewrite Hc, andb_false_r. reflexivity.
  - intros m Hm. cbn [month_summary]. apply lookup_insert_ne. congruence.
Qed.

Lemma cmd_roll_frame_witness :
  let st : State float :=
    run fresh_state
      [Acc "Checking" "bank"; Cat "Rent"; Bud "2024-01" "Rent" 40%float;
       Tbb "2024-01" 100%float] in
  let st' := fst (cmd_roll st "Jan 2024" "Feb 2024") in
  transactions st' = transactions st
  /\ accounts st' = accounts st
  /\ categories st' = categories st
  /\ (forall m c, m <> "2024-02" \/ dict_in c (categories st) = false ->
        lookup_entry st' m c = lookup_entry st m c)
  /\ (forall m, m <> "2024-02" -> month_summary st' !! m = month_summary st !! m).
Proof.
  intros st.
  apply (cmd_roll_frame st "Jan 2024" "Feb 2024" "2024-01" "2024-02");
    [reflexivity|reflexivity|].
  apply (bool_decide_unpack _). vm_compute. exact I.
Defined.

Lemma overspend_of_ext {A} `{Amount A} (st st' : State A) (f : string) (cats : list string) :
  (forall c, source_available st' f c = source_available st f c) ->
  overspend_of st' f cats = overspend_of st f cats.
Proof.
  intros Hsame. unfold overspend_of. apply fold_left_pointwise.
  intros o c. rewrite Hsame. reflexivity.
Qed.

(** X12. [cmd_roll] is not idempotent.  Run twice from month [f] to a
    different month [t], it adds each category's carry to the
    destination twice and deducts the overspend from the destination's
    ready_to_assign twice (both computed from the source month, which
    the first run left as it was). *)
Theorem cmd_roll_twice {A} `{Amount A} (st : State A) (frm to f t : string) :
  parse_month frm = inr f ->
  parse_month to = inr t ->
  f <> t ->
  NoDup (map fst (categories st)) ->
  let st2 := fst (cmd_roll (fst (cmd_roll st frm to)) frm to) in
  let overspend := overspend_of st f (map fst (categories st)) in
  (forall c, dict_in c (categories st) = true ->
     let dest := entry_at st t c in
     let carry := py_max (source_available st f c) 0%amt in
     lookup_entry st2 t c
     = Some (Build_CatEntry (budgeted dest) (activity dest)
               ((available dest + carry) + carry)%amt))
  /\ month_summary st2 !! t
     = Some ((default 0%amt (month_summary st !! t) - overspend) - overspend)%amt.
Proof.
  intros Hf Ht Hne Hnd.
  destruct (cmd_roll_ok st frm to f t Hf Ht Hnd) as (cm1 & Hlook1 & ->). cbn [fst].
  set (st1 := Build_State _ _ _ cm1 _).
  assert (forall c, lookup2 cm1 f c = lookup_entry st f c) as Hsrc.
  { intros c. rewrite (Hlook1 f c). apply String.eqb_neq in Hne. rewrite Hne. reflexivity. }
  assert (forall c, source_available st1 f c = source_available st f c) as Hav.
  { intros c. unfold source_available, entry_at, lookup_entry. cbn [category_month st1].
    rewrite Hsrc. reflexivity. }
  destruct (cmd_roll_ok st1 frm to f t Hf Ht Hnd) as (cm2 & Hlook2 & ->). cbn [fst].
  split.
  - intros c Hc. cbn zeta. unfold lookup_entry at 1. cbn [category_month].
    rewrite (Hlook2 t c). cbn [categories st1]. rewrite String.eqb_refl, Hc. cbn [andb].
    f_equal. unfold rolled_entry at 1. cbn [category_month st1].
    unfold roll_available at 1. rewrite Hsrc.
    rewrite (Hlook1 t c), String.eqb_refl, Hc. cbn [andb]. reflexivity.
  - cbn [month_summary st1 categories]. rewrite lookup_insert_eq.
    rewrite lookup_insert_eq. cbn. rewrite (overspend_of_ext st st1 f _ Hav). reflexivity.
Qed.

Lemma cmd_roll_twice_witness :
  let st : State float :=
    run fresh_state
      [Acc "Checking" "bank"; Cat "Groceries"; Cat "Rent";
       Bud "2024-01" "Rent" 40%float;
       Spend "2024-01" "Checking" "Groceries" 15%float] in
  let st2 := fst (cmd_roll (fst (cmd_roll st "2024-01" "2024-02")) "2024-01" "2024-02") in
  lookup_entry st2 "2024-02" "Rent"
    = Some (Build_CatEntry 0%float 0%float ((0 + 40) + 40)%float)
  /\ month_summary st2 !! "2024-02" = Some ((0 - (0 + 15)) - (0 + 15))%float.
Proof.
  intros st.
  assert (NoDup (map fst (categories st))) as Hnd.
  { apply (bool_decide_unpack _). vm_compute. exact I. }
  assert ("2024-01" <> "2024-02") as Hne by discriminate.
  destruct (cmd_roll_twice st "2024-01" "2024-02" "2024-01" "2024-02"
              eq_refl eq_refl Hne Hnd) as (Hent & Hms).
  split; [exact (Hent "Rent" eq_refl)|exact Hms].
Defined.

(** ** The log determines the entries *)

Lemma replay_snoc {A} `{Amount A} (m c : string) (log : list (Transaction A)) tx :
  replay m c (log ++ [tx]) = replay_step m c (replay m c log) tx.
Proof. unfold replay. rewrite fold_left_app. reflexivity. Qed.

Lemma replay_step_other {A} `{Amount A} (m c : string) (e : CatEntry A) tx :
  tx_month tx <> m \/ tx_category tx <> Some c -> replay_step m c e tx = e.
Proof.
  intros Hother. unfold replay_step.
  destruct (String.eqb (tx_month tx) m) eqn:Hm; cbn [andb]; [|reflexivity].
  apply String.eqb_eq in Hm. destruct Hother as [Hne|Hne]; [contradiction|].
  rewrite bool_decide_eq_false_2 by exact Hne. reflexivity.
Qed.

Lemma replay_step_this {A} `{Amount A} (m c : string) (e : CatEntry A) acc amt :
  replay_step m c e (Build_Transaction m acc (Some c) amt)
  = match acc with
    | None => Build_CatEntry (budgeted e + amt)%amt (activity e) (available e + amt)%amt
    | Some _ => Build_CatEntry (budgeted e) (activity e + amt)%amt (available e + amt)%amt
    end.
Proof.
  unfold replay_step. cbn [tx_month tx_category tx_account tx_amount].
  rewrite String.eqb_refl, bool_decide_eq_true_2 by reflexivity. reflexivity.
Qed.

Lemma entry_at_updated_ne {A} `{Amount A} (st : State A) m c e tx m' c' :
  (m', c') <> (m, c) -> entry_at (updated st m c e tx) m' c' = entry_at st m' c'.
Proof. intros Hne. unfold entry_at. rewrite lookup_entry_updated_ne by exact Hne. reflexivity. Qed.

(** One command other than the rollover keeps every entry equal to the
    replay of the log. *)
Lemma replay_step_command (st : State float) (c : command float) :
  is_roll_forward c = false ->
  (forall m cat, entry_at st m cat = replay m cat (transactions st)) ->
  forall m cat,
    entry_at (fst (run_command st c)) m cat
    = replay m cat (transactions (fst (run_command st c))).
Proof.
  intros Hroll Hinv m0 c0.
  destruct c as [name typ|spec|mon amt|mon cat amt|mon acc cat amt
                 |mon src dst amt|frm to|mon]; cbn [run_command].
  - unfold cmd_acc. destruct (negb _); [apply Hinv|].
    destruct (dict_in _ _); apply Hinv.
  - rewrite cmd_cat_frame. apply Hinv.
  - unfold cmd_tbb. destruct (parse_month mon); apply Hinv.
  - destruct (parse_month mon) as [e|m] eqn:Hm.
    { unfold cmd_bud. rewrite Hm. apply Hinv. }
    destruct (dict_in cat (categories st)) eqn:Hc.
    2: { unfold cmd_bud. rewrite Hm, Hc. apply Hinv. }
    rewrite (cmd_bud_ok st mon cat amt m Hm Hc). cbn [fst].
    cbn [transactions updated]. rewrite replay_snoc.
    destruct (decide ((m0, c0) = (m, cat))) as [[= -> ->]|Hne].
    + rewrite entry_at_updated_eq, replay_step_this, <- Hinv. reflexivity.
    + rewrite entry_at_updated_ne by exact Hne.
      rewrite replay_step_other; [apply Hinv|]. cbn.
      destruct (decide (m = m0)) as [->|Hm0]; [right|left; exact Hm0].
      intros [= ->]. apply Hne. reflexivity.
  - destruct (parse_month mon) as [e|m] eqn:Hm.
    { unfold cmd_spend. rewrite Hm. apply Hinv. }
    destruct (dict_in acc (accounts st)) eqn:Ha.
    2: { unfold cmd_spend. rewrite Hm, Ha. apply Hinv. }
    destruct (dict_in cat (categories st)) eqn:Hc.
    2: { unfold cmd_spend. rewrite Hm, Ha, Hc. apply Hinv. }
    rewrite (cmd_spend_ok st mon acc cat amt m Hm Ha Hc). cbn [fst].
    cbn [transactions updated]. rewrite replay_snoc.
    destruct (decide ((m0, c0) = (m, cat))) as [[= -> ->]|Hne].
    + rewrite entry_at_updated_eq, replay_step_this, <- Hinv.
      cbn [a_sub a_add a_neg float_amount]. rewrite !float_sub_add_opp. reflexivity.
    + rewrite entry_at_updated_ne by exact Hne.
      rewrite replay_step_other; [apply Hinv|]. cbn.
      destruct (decide (m = m0)) as [->|Hm0]; [right|left; exact Hm0].
      intros [= ->]. apply Hne. reflexivity.
  - destruct (parse_month mon) as [e|m] eqn:Hm.
    { unfold cmd_xfer. rewrite Hm. apply Hinv. }
    destruct (dict_in src (accounts st)) eqn:Hs.
    2: { unfold cmd_xfer. rewrite Hm, Hs. apply Hinv. }
    destruct (dict_in dst (accounts st)) eqn:Hd.
    2: { unfold cmd_xfer. rewrite Hm, Hs, Hd. apply Hinv. }
    rewrite (cmd_xfer_ok st mon src dst amt m Hm Hs Hd). cbn [fst transactions].
    change (transactions st ++ [?a; ?b]) with (transactions st ++ [a] ++ [b]).
    rewrite app_assoc, !replay_snoc.
    rewrite !replay_step_other by (right; discriminate).
    rewrite <- Hinv. reflexivity.
  - discriminate Hroll.
  - apply Hinv.
Qed.

(** X13. Without rollover the log determines the ledger: in every state
    that commands other than [roll-forward] reach from the empty state,
    every entry is what the transactions of its month and category add
    up to, in log order, in the program's float arithmetic: budget
    transactions into budgeted and available, spend transactions (whose
    amounts are negative) into activity and available; and a pair
    without transactions has no entry other than all zeros. *)
Theorem entries_replay_log (cs : list (command float)) :
  forallb (fun c => negb (is_roll_forward c)) cs = true ->
  forall m c,
    entry_at (run fresh_state cs) m c = replay m c (transactions (run fresh_state cs)).
Proof.
  assert (forall m c, entry_at (@fresh_state float) m c
                      = replay m c (transactions (@fresh_state float))) as Hinit.
  { intros m c. unfold entry_at, lookup_entry, lookup2. cbn. rewrite lookup_empty.
    reflexivity. }
  revert Hinit. generalize (@fresh_state float) as st.
  induction cs as [|c cs IH]; intros st Hst Hcs; [exact Hst|].
  cbn [forallb] in Hcs. apply andb_true_iff in Hcs as [Hc Hcs].
  rewrite run_cons. apply IH; [|exact Hcs].
  apply replay_step_command; [apply negb_true_iff; exact Hc|exact Hst].
Qed.

Lemma entries_replay_log_witness :
  let cs : list (command float) :=
    [Cat "Food"; Acc "Checking" "bank"; Bud "2024-03" "Food" 0.1%float;
     Spend "2024-03" "Checking" "Food" 0.3%float; Xfer "2024-03" "Checking" "Checking" 7%float;
     Bud "2024-03" "Food" 0.2%float] in
  entry_at (run fresh_state cs) "2024-03" "Food"
  = replay "2024-03" "Food" (transactions (run fresh_state cs)).
Proof. intros cs. apply (entries_replay_log cs). reflexivity. Defined.

(** ** The lazy accessor *)

(** X14. [get_cat_entry] returns the entry stored under [(month, cat)]
    and leaves it stored there.  Where there was an entry the state is
    exactly unchanged; where there was none, the all-zero entry is
    created, and nothing else in the state moves. *)
Theorem get_cat_entry_lazy {A} `{Amount A} (st : State A) (month cat : string) :
  let e := fst (get_cat_entry st month cat) in
  let st' := snd (get_cat_entry st month cat) in
  lookup_entry st' month cat = Some e
  /\ (forall m c, (m, c) <> (month, cat) -> lookup_entry st' m c = lookup_entry st m c)
  /\ (forall e0, lookup_entry st month cat = Some e0 -> e = e0 /\ st' = st)
  /\ (lookup_entry st month cat = None -> e = zero_entry)
  /\ st' = set_category_month st (category_month st').
Proof.
  cbn zeta. unfold get_cat_entry. cbn [fst snd].
  set (cm := default ∅ (category_month st !! month)).
  assert (cm !! cat = lookup_entry st month cat) as Hcm by apply lookup2_default.
  split; [|split; [|split; [|split]]].
  - unfold lookup_entry. cbn [category_month set_category_month]. apply lookup2_insert_eq.
  - intros m c Hne. unfold lookup_entry. cbn [category_month set_category_month].
    apply lookup2_insert_ne. exact Hne.
  - intros e0 He0. rewrite Hcm, He0. cbn. split; [reflexivity|].
    unfold set_category_month. destruct st as [a c ms cmap txs]. cbn in *. f_equal.
    unfold lookup_entry, lookup2 in He0. cbn in He0.
    destruct (cmap !! month) as [entries|] eqn:Hmonth; [|discriminate He0].
    cbn in He0. unfold cm. cbn. rewrite (insert_id entries cat e0 He0).
    apply insert_id. exact Hmonth.
  - intros Hnone. rewrite Hcm, Hnone. reflexivity.
  - reflexivity.
Qed.

(** ** The category listing *)

Lemma insert_sorted_perm (x : string) (l : list string) : insert_sorted x l ≡ₚ x :: l.
Proof.
  induction l as [|y l IH]; [reflexivity|]. cbn [insert_sorted].
  destruct (String.leb x y); [reflexivity|].
  rewrite IH. apply perm_swap.
Qed.

Lemma sorted_perm (l : list string) : foldr insert_sorted [] l ≡ₚ l.
Proof.
  induction l as [|x l IH]; [reflexivity|]. cbn [foldr].
  rewrite insert_sorted_perm, IH. reflexivity.
Qed.

Lemma tree_children_perm cats parent :
  tree_children cats parent
  ≡ₚ map fst (filter (fun kv => bool_decide (snd kv = parent)) cats).
Proof. apply sorted_perm. Qed.

Lemma tree_children_in cats parent name :
  name ∈ tree_children cats parent <-> (name, parent) ∈ cats.
Proof.
  rewrite tree_children_perm. split.
  - intros Hin. apply list_elem_of_In, in_map_iff in Hin as ([n q] & Hn & Hin).
    apply list_elem_of_In, list_elem_of_filter in Hin as [Hq Hin].
    apply bool_decide_unpack in Hq. cbn in Hn, Hq. subst. exact Hin.
  - intros Hin. apply list_elem_of_In, in_map_iff. exists (name, parent).
    split; [reflexivity|]. apply list_elem_of_In, list_elem_of_filter.
    split; [apply bool_decide_pack; reflexivity|exact Hin].
Qed.

Lemma tree_children_none cats parent :
  (forall name, (name, parent) ∉ cats) -> tree_children cats parent = [].
Proof.
  intros Hnone. destruct (tree_children cats parent) as [|name l] eqn:Hl; [reflexivity|].
  exfalso. apply (Hnone name), tree_children_in. rewrite Hl. left.
Qed.

Lemma tree_children_snoc cats x px parent :
  tree_children (cats ++ [(x, px)]) parent
  ≡ₚ tree_children cats parent ++ (if bool_decide (parent = px) then [x] else []).
Proof.
  rewrite !tree_children_perm, filter_app, map_app. apply Permutation_app; [reflexivity|].
  rewrite filter_cons, filter_nil. cbn [snd].
  destruct (decide _) as [Hp|Hp]; destruct (bool_decide (parent = px)) eqn:Hb;
    try reflexivity; exfalso.
  - apply bool_decide_unpack in Hp. apply bool_decide_eq_false in Hb. congruence.
  - apply bool_decide_eq_true in Hb. apply Hp, bool_decide_pack. congruence.
Qed.

Lemma dict_in_elem {V} (key : string) (d : list (string * V)) :
  dict_in key d = true <-> key ∈ map fst d.
Proof. rewrite list_elem_of_In. apply dict_in_In. Qed.

(** *** Counting a parent among names *)

Lemma occurrences_app px l l' :
  occurrences px (l ++ l') = (occurrences px l + occurrences px l')%nat.
Proof. unfold occurrences. rewrite map_app. apply sum_list_with_app. Qed.

Lemma occurrences_perm px l l' : l ≡ₚ l' -> occurrences px l = occurrences px l'.
Proof.
  intros Hperm. unfold occurrences. induction Hperm; cbn; lia.
Qed.

Lemma occurrences_none l : occurrences None l = 0%nat.
Proof. induction l as [|n l IH]; [reflexivity|]. exact IH. Qed.

Lemma occurrences_absent p l : p ∉ l -> occurrences (Some p) l = 0%nat.
Proof.
  induction l as [|n l IH]; intros Hp; [reflexivity|].
  apply not_elem_of_cons in Hp as [Hne Hp]. unfold occurrences. cbn [map].
  change (hits (Some p) (Some n) + occurrences (Some p) l = 0)%nat.
  rewrite (IH Hp). unfold hits. rewrite bool_decide_eq_false_2; [reflexivity|congruence].
Qed.

Lemma occurrences_once p l : NoDup l -> p ∈ l -> occurrences (Some p) l = 1%nat.
Proof.
  induction l as [|n l IH]; intros Hnd Hp; [inversion Hp|].
  apply NoDup_cons in Hnd as [Hn Hnd].
  change (hits (Some p) (Some n) + occurrences (Some p) l = 1)%nat. unfold hits.
  apply elem_of_cons in Hp as [->|Hp].
  - rewrite bool_decide_eq_true_2 by reflexivity. rewrite (occurrences_absent n l Hn).
    reflexivity.
  - rewrite bool_decide_eq_false_2; [exact (IH Hnd Hp)|].
    intros [= ->]. exact (Hn Hp).
Qed.

(** *** What the dictionary is built like *)

Lemma forest_nodup cats : forest cats -> NoDup (map fst cats).
Proof.
  induction 1 as [|cats name Hf IH Hnew _ _|cats p part Hf IH Hnew Hp _]; [constructor| |];
    rewrite map_app; cbn [map fst]; apply NoDup_app; (split; [exact IH|]);
    (split; [|apply NoDup_singleton]);
    intros x Hx Hx'; apply list_elem_of_singleton in Hx' as ->;
    apply dict_in_elem in Hx; congruence.
Qed.

Lemma forest_parents cats name p :
  forest cats -> (name, Some p) ∈ cats -> dict_in p cats = true.
Proof.
  induction 1 as [|cats name' Hf IH Hnew _ _|cats p' part Hf IH Hnew Hp _]; intros Hin.
  - inversion Hin.
  - apply elem_of_app in Hin as [Hin|Hin].
    + apply dict_in_grows, IH, Hin.
    + apply list_elem_of_singleton in Hin. discriminate Hin.
  - apply elem_of_app in Hin as [Hin|Hin].
    + apply dict_in_grows, IH, Hin.
    + apply list_elem_of_singleton in Hin as [= _ ->]. apply dict_in_grows, Hp.
Qed.

(** *** One more category *)

Lemma flat_map_extra (x : string) (g' g : string -> list string) (e : string -> nat)
    (l : list string) :
  (forall n, n ∈ l -> g' n ≡ₚ g n ++ repeat x (e n)) ->
  flat_map g' l ≡ₚ flat_map g l ++ repeat x (sum_list (map e l)).
Proof.
  induction l as [|n l IH]; intros Hg; [reflexivity|].
  cbn [flat_map map]. change (sum_list (e n :: map e l)) with (e n + sum_list (map e l))%nat.
  rewrite (Hg n) by left. rewrite IH by (intros n' Hn'; apply Hg; right; exact Hn').
  rewrite repeat_app, <- !app_assoc. apply Permutation_app_head.
  apply Permutation_app_swap_app.
Qed.

Lemma walk_hits_sum cats px d q :
  sum_list (map (fun n => walk_hits cats px d (Some n)) (tree_children cats q))
  = occurrences px (walk d cats q).
Proof.
  destruct d as [|d]; cbn [walk walk_hits].
  - induction (tree_children cats q) as [|n l IH]; [reflexivity|exact IH].
  - induction (tree_children cats q) as [|n l IH]; [reflexivity|].
    cbn [flat_map map].
    change (sum_list (?a :: ?l)) with (a + sum_list l)%nat.
    rewrite IH.
    change (?n :: ?w ++ ?r) with ((n :: w) ++ r). rewrite occurrences_app.
    reflexivity.
Qed.

(** Adding a new name [x] under [px] adds [x] to the walk wherever the
    walk reaches [px], and nothing else. *)
Lemma walk_snoc cats x px :
  dict_in x cats = false ->
  (forall name p, (name, Some p) ∈ cats -> dict_in p cats = true) ->
  px <> Some x ->
  forall d q,
    q <> Some x ->
    walk d (cats ++ [(x, px)]) q ≡ₚ walk d cats q ++ repeat x (walk_hits cats px d q).
Proof.
  intros Hnew Hparents Hpx. induction d as [|d IH]; intros q Hq; [reflexivity|].
  cbn [walk]. rewrite tree_children_snoc, flat_map_app.
  rewrite (flat_map_extra x _ (fun n => n :: walk d cats (Some n))
             (fun n => walk_hits cats px d (Some n))).
  2: { intros n Hn. cbn [app]. apply Permutation_cons; [reflexivity|].
       apply IH. intros [= ->]. apply tree_children_in in Hn.
       assert (x ∈ map fst cats) as Hx
         by (apply list_elem_of_In, in_map_iff; exists (x, q);
             split; [reflexivity|apply list_elem_of_In; exact Hn]).
       apply dict_in_elem in Hx. congruence. }
  rewrite walk_hits_sum. cbn [walk_hits]. unfold hits.
  rewrite <- app_assoc. apply Permutation_app_head.
  destruct (bool_decide (q = px)); cbn [flat_map app Nat.add repeat].
  - assert (walk d (cats ++ [(x, px)]) (Some x) = []) as ->.
    { destruct d as [|d']; [reflexivity|]. cbn [walk].
      rewrite tree_children_none; [reflexivity|].
      intros name Hin. apply elem_of_app in Hin as [Hin|Hin].
      - apply Hparents in Hin. congruence.
      - apply list_elem_of_singleton in Hin as [= _ Hp]. congruence. }
    cbn [app]. symmetry. apply Permutation_cons_append.
  - rewrite app_nil_r. reflexivity.
Qed.

(** With more levels than categories the walk from the roots lists
    every category once. *)
Lemma walk_complete cats :
  forest cats ->
  forall d, (length cats < d)%nat -> walk d cats None ≡ₚ map fst cats.
Proof.
  induction 1 as [|cats name Hf IH Hnew _ _|cats p part Hf IH Hnew Hp _]; intros d Hd.
  - destruct d as [|d]; reflexivity.
  - rewrite length_app in Hd. cbn [length] in Hd.
    destruct d as [|d]; [lia|].
    rewrite walk_snoc; [|exact Hnew|intros n q; apply forest_parents; exact Hf
                        |discriminate|discriminate].
    rewrite (IH (S d)) by lia. rewrite map_app. apply Permutation_app_head.
    cbn [walk_hits]. rewrite occurrences_none. reflexivity.
  - rewrite length_app in Hd. cbn [length] in Hd.
    destruct d as [|d]; [lia|].
    rewrite walk_snoc; [|exact Hnew|intros n q; apply forest_parents; exact Hf
                        |intros [= Hp']; rewrite <- Hp' in Hnew; congruence|discriminate].
    rewrite (IH (S d)) by lia. rewrite map_app. apply Permutation_app_head.
    cbn [walk_hits]. unfold hits. rewrite bool_decide_eq_false_2 by discriminate.
    rewrite (occurrences_perm _ _ _ (IH d ltac:(lia))).
    rewrite occurrences_once; [reflexivity|apply forest_nodup; exact Hf|].
    apply dict_in_elem. exact Hp.
Qed.

(** *** Parts and paths *)

Lemma colons_app (a b : string) : colons (a ++ b) = (colons a + colons b)%nat.
Proof.
  induction a as [|c a IH]; [reflexivity|].
  change (colons (String c (a ++ b)) = colons (String c a) + colons b)%nat.
  cbn [colons]. rewrite IH. lia.
Qed.

Lemma split_colons (s : string) : Forall (fun w => colons w = 0%nat) (PyStr.split ":" s).
Proof.
  induction s as [|c s IH]; cbn [PyStr.split]; [repeat constructor|].
  destruct (Ascii.eqb c ":") eqn:Hc; [constructor; [reflexivity|exact IH]|].
  destruct (PyStr.split ":" s) as [|w ws].
  - repeat constructor. cbn [colons]. rewrite Hc. reflexivity.
  - apply Forall_cons in IH as [Hw Hws]. constructor; [|exact Hws].
    cbn [colons]. rewrite Hc, Hw. reflexivity.
Qed.

Lemma colons_lstrip (s : string) : colons s = 0%nat -> colons (PyStr.lstrip s) = 0%nat.
Proof.
  induction s as [|c s IH]; [reflexivity|]. cbn [PyStr.lstrip].
  destruct (PyStr.isspace c); [|intros Hs; exact Hs].
  cbn [colons]. intros Hs. apply IH. lia.
Qed.

Lemma colons_rstrip (s : string) : colons s = 0%nat -> colons (PyStr.rstrip s) = 0%nat.
Proof.
  induction s as [|c s IH]; [reflexivity|]. cbn [colons PyStr.rstrip]. intros Hs.
  destruct (Ascii.eqb c ":") eqn:Hc; [discriminate Hs|].
  specialize (IH Hs). destruct (PyStr.rstrip s) as [|c' r].
  - destruct (PyStr.isspace c); [reflexivity|]. cbn [colons]. rewrite Hc. reflexivity.
  - cbn [colons] in IH |- *. rewrite Hc. exact IH.
Qed.

Lemma no_lead_lstrip (s : string) : no_lead (PyStr.lstrip s).
Proof.
  induction s as [|c s IH]; [exact I|]. cbn [PyStr.lstrip].
  destruct (PyStr.isspace c) eqn:Hc; [exact IH|exact Hc].
Qed.

Lemma no_lead_rstrip (s : string) : no_lead s -> no_lead (PyStr.rstrip s).
Proof.
  destruct s as [|c s]; [intros _; exact I|]. cbn [no_lead PyStr.rstrip]. intros Hc.
  destruct (PyStr.rstrip s); [rewrite Hc|]; exact Hc.
Qed.

Lemma lstrip_no_lead (s : string) : no_lead s -> PyStr.lstrip s = s.
Proof.
  destruct s as [|c s]; [reflexivity|]. cbn [no_lead PyStr.lstrip]. intros ->. reflexivity.
Qed.

Lemma no_lead_app (a b : string) : no_lead a -> no_lead b -> no_lead (a ++ b).
Proof. destruct a as [|c a]; intros Ha Hb; [exact Hb|exact Ha]. Qed.

(** The parts [cmd_cat] takes from a spec: stripped, and without colon. *)
Lemma parts_ok (spec : string) :
  Forall (fun part => no_lead part /\ colons part = 0%nat)
    (map PyStr.strip (PyStr.split ":" spec)).
Proof.
  pose proof (split_colons spec) as Hsplit.
  induction Hsplit as [|w ws Hw _ IH]; [constructor|].
  cbn [map]. constructor; [|exact IH]. unfold PyStr.strip. split.
  - apply no_lead_rstrip, no_lead_lstrip.
  - apply colons_rstrip, colons_lstrip, Hw.
Qed.

Lemma forest_names cats :
  forest cats -> forall name, name ∈ map fst cats -> no_lead name.
Proof.
  induction 1 as [|cats part Hf IH Hnew Hlead _|cats p part Hf IH Hnew Hp _];
    intros name Hin.
  - inversion Hin.
  - rewrite map_app in Hin. apply elem_of_app in Hin as [Hin|Hin]; [exact (IH _ Hin)|].
    apply list_elem_of_singleton in Hin as ->. exact Hlead.
  - rewrite map_app in Hin. apply elem_of_app in Hin as [Hin|Hin]; [exact (IH _ Hin)|].
    apply list_elem_of_singleton in Hin as ->.
    assert (no_lead p) as Hlead by (apply IH, dict_in_elem, Hp).
    apply no_lead_app; [exact Hlead|reflexivity].
Qed.

(** The level of a category is the number of colons of its path. *)
Lemma forest_levels cats :
  forest cats ->
  forall name parent,
    (name, parent) ∈ cats ->
    colons name = match parent with Some p => S (colons p) | None => 0%nat end.
Proof.
  induction 1 as [|cats part Hf IH Hnew _ Hcol|cats p part Hf IH Hnew Hp Hcol];
    intros name parent Hin.
  - inversion Hin.
  - apply elem_of_app in Hin as [Hin|Hin]; [exact (IH _ _ Hin)|].
    apply list_elem_of_singleton in Hin as [= -> ->]. exact Hcol.
  - apply elem_of_app in Hin as [Hin|Hin]; [exact (IH _ _ Hin)|].
    apply list_elem_of_singleton in Hin as [= -> ->].
    rewrite !colons_app, Hcol. cbn. lia.
Qed.

(** The loop of [cmd_cat] builds a forest. *)
Lemma cat_loop_forest {A} (n : nat) (l : list string) :
  forall k cats full parent (out : list (line A)),
    Forall (fun part => no_lead part /\ colons part = 0%nat) l ->
    forest cats ->
    (k = 0%nat /\ full = "" /\ parent = None)
    \/ ((0 < k)%nat /\ parent = Some full /\ dict_in full cats = true) ->
    forest (fst (fst (fst (fold_left (cat_step n) (imap (fun i p => (k + i, p)) l)
                             (cats, full, parent, out))))).
Proof.
  induction l as [|part l IH]; intros k cats full parent out Hparts Hf Hk.
  - exact Hf.
  - rewrite enumerate_cons. cbn [fold_left]. rewrite cat_step_eq. cbn zeta.
    apply Forall_cons in Hparts as [[Hlead Hcol] Hparts].
    set (full' := next_path k full part).
    destruct (dict_in full' cats) eqn:Hin.
    + apply IH; [exact Hparts|exact Hf|]. right.
      split; [apply Nat.lt_0_succ|]. split; [reflexivity|exact Hin].
    + apply IH; [exact Hparts| |].
      * destruct Hk as [(-> & -> & ->)|(Hk & -> & Hfull)].
        -- apply forest_root; [exact Hf|exact Hin|exact Hlead|exact Hcol].
        -- assert (full' = (full ++ ":" ++ part)%string) as Hfull'.
           { unfold full', next_path. apply Nat.ltb_lt in Hk. rewrite Hk.
             apply string_app_assoc. }
           rewrite Hfull' in Hin |- *.
           apply forest_child; [exact Hf|exact Hin|exact Hfull|exact Hcol].
      * right. split; [apply Nat.lt_0_succ|]. split; [reflexivity|].
        rewrite dict_in_app. apply orb_true_iff. right. cbn.
        rewrite String.eqb_refl. reflexivity.
Qed.

Lemma cmd_cat_forest {A} (st : State A) (spec : string) :
  forest (categories st) -> forest (categories (fst (cmd_cat st spec))).
Proof.
  intros Hf.
  pose proof (cat_loop_forest (A := A) (length (map PyStr.strip (PyStr.split ":" spec)))
                (map PyStr.strip (PyStr.split ":" spec)) 0 (categories st) "" None []
                (parts_ok spec) Hf (or_introl (conj eq_refl (conj eq_refl eq_refl))))
    as Hloop.
  unfold cmd_cat.
  change (imap (fun i p => (i, p)) (map PyStr.strip (PyStr.split ":" spec)))
    with (imap (fun i p => (0 + i, p))%nat (map PyStr.strip (PyStr.split ":" spec))).
  destruct (fold_left _ _ _) as [[[cats full] parent] out]. exact Hloop.
Qed.

Lemma forest_effect {A} `{Amount A} (st st' : State A) :
  forest (categories st) -> effect st st' -> forest (categories st').
Proof.
  intros Hf [|name typ Htyp Hname|spec|m amt Hm|m cat amt Hm Hc|m acc cat amt Hm Ha Hc
             |m src dst amt Hm Hs Hd|f t cm' Hf' Ht Hlook]; try exact Hf.
  apply cmd_cat_forest, Hf.
Qed.

Lemma forest_reachable {A} `{Amount A} (cs : list (command A)) :
  forest (categories (run fresh_state cs)).
Proof.
  apply (run_invariant (fun st => forest (categories st)) cs).
  - intros st st' _. apply forest_effect.
  - apply fresh_state_nodup.
  - constructor.
Qed.

(** *** The lines of the listing *)

Lemma lstrip_pad (k : nat) (s : string) : PyStr.lstrip (pad k ++ s) = PyStr.lstrip s.
Proof.
  revert s. induction k as [|k IH]; intros s; [reflexivity|]. cbn [pad].
  rewrite string_app_assoc, IH. reflexivity.
Qed.

Lemma lstrip_lines (names : list string) :
  Forall no_lead names -> map PyStr.lstrip (map indented names) = names.
Proof.
  induction 1 as [|name names Hname _ IH]; [reflexivity|].
  cbn [map]. unfold indented at 1. rewrite lstrip_pad, (lstrip_no_lead name Hname), IH.
  reflexivity.
Qed.

(** *** The bound on the nesting *)

Lemma sublist_same_length {B} (l k : list B) :
  l `sublist_of` k -> (length k <= length l)%nat -> l = k.
Proof.
  induction 1 as [|x l k Hsub IH|x l k Hsub IH]; cbn [length]; intros Hlen.
  - reflexivity.
  - f_equal. apply IH. lia.
  - apply sublist_length in Hsub. lia.
Qed.

Lemma flat_map_sublist {B C} (g1 g2 : B -> list C) (l : list B) :
  (forall n, g1 n `sublist_of` g2 n) -> flat_map g1 l `sublist_of` flat_map g2 l.
Proof.
  intros Hg. induction l as [|n l IH]; [constructor|].
  cbn [flat_map]. apply sublist_app; [apply Hg|exact IH].
Qed.

Lemma walk_mono cats d parent : walk d cats parent `sublist_of` walk (S d) cats parent.
Proof.
  revert parent. induction d as [|d IH]; intros parent; [apply sublist_nil_l|].
  cbn [walk]. apply flat_map_sublist. intros n. apply sublist_skip.
  exact (IH (Some n)).
Qed.

(** More levels than categories change nothing. *)
Lemma walk_stable cats :
  forest cats ->
  forall d, (length cats < d)%nat -> walk d cats None = walk (S (length cats)) cats None.
Proof.
  intros Hf. induction d as [|d IH]; intros Hd; [lia|].
  destruct (decide (d = length cats)) as [->|Hne]; [reflexivity|].
  rewrite <- IH by lia. symmetry. apply sublist_same_length; [apply walk_mono|].
  rewrite (Permutation_length (walk_complete cats Hf (S d) Hd)).
  rewrite (Permutation_length (walk_complete cats Hf d ltac:(lia))). reflexivity.
Qed.

Lemma flat_map_pointwise {B C} (g1 g2 : B -> list C) (l : list B) :
  (forall n, n ∈ l -> g1 n = g2 n) -> flat_map g1 l = flat_map g2 l.
Proof.
  induction l as [|n l IH]; intros Hg; [reflexivity|].
  cbn [flat_map]. rewrite (Hg n) by left.
  rewrite IH by (intros n' Hn'; apply Hg; right; exact Hn'). reflexivity.
Qed.

(** The names the walk lists from [parent] down are within its levels. *)
Lemma walk_levels cats :
  forest cats ->
  forall d parent name,
    name ∈ walk d cats parent -> (colons name < level parent + d)%nat.
Proof.
  intros Hf. induction d as [|d IH]; intros parent name Hname; [inversion Hname|].
  cbn [walk] in Hname. apply list_elem_of_In, in_flat_map in Hname as (n & Hn & Hname).
  apply list_elem_of_In, tree_children_in in Hn.
  pose proof (forest_levels cats Hf n parent Hn) as Hlevel. fold (level parent) in Hlevel.
  destruct Hname as [<-|Hname]; [lia|].
  apply list_elem_of_In, IH in Hname. cbn [level] in Hname. lia.
Qed.

(** Once the levels reach every category, a level more lists nothing
    more. *)
Lemma walk_enough cats :
  forest cats ->
  forall d parent,
    (forall name, name ∈ map fst cats -> (colons name < level parent + d)%nat) ->
    walk (S d) cats parent = walk d cats parent.
Proof.
  intros Hf. induction d as [|d IH]; intros parent Hall.
  - cbn [walk]. rewrite tree_children_none; [reflexivity|].
    intros name Hname.
    pose proof (forest_levels cats Hf name parent Hname) as Hlevel.
    fold (level parent) in Hlevel.
    assert (name ∈ map fst cats) as Hkey
      by (apply list_elem_of_In, in_map_iff; exists (name, parent);
          split; [reflexivity|apply list_elem_of_In; exact Hname]).
    specialize (Hall name Hkey). lia.
  - change (walk (S (S d)) cats parent)
      with (flat_map (fun name => name :: walk (S d) cats (Some name))
              (tree_children cats parent)).
    cbn [walk]. apply flat_map_pointwise. intros n Hn. f_equal.
    apply (IH (Some n)). intros name Hname. specialize (Hall name Hname).
    apply tree_children_in in Hn.
    pose proof (forest_levels cats Hf n parent Hn) as Hlevel.
    fold (level parent) in Hlevel. cbn [level]. lia.
Qed.

Lemma walk_constant cats (d0 : nat) :
  forest cats ->
  (forall name, name ∈ map fst cats -> (colons name < d0)%nat) ->
  forall d, (d0 <= d)%nat -> walk d cats None = walk d0 cats None.
Proof.
  intros Hf Hall. induction d as [|d IH]; intros Hd.
  - assert (d0 = 0%nat) as -> by lia. reflexivity.
  - destruct (decide (d0 = S d)) as [->|Hne]; [reflexivity|].
    rewrite <- IH by lia. apply walk_enough; [exact Hf|].
    intros name Hname. specialize (Hall name Hname). cbn [level]. lia.
Qed.

(** No category is nested deeper than there are categories. *)
Lemma forest_depth cats name :
  forest cats -> name ∈ map fst cats -> (colons name <= length cats)%nat.
Proof.
  intros Hf Hname.
  rewrite <- (walk_complete cats Hf (S (length cats)) (Nat.lt_succ_diag_r _)) in Hname.
  apply (walk_levels cats Hf) in Hname. cbn [level] in Hname. lia.
Qed.

(** *** [visit] and the recursion limit *)

Lemma visit_error cats :
  forall frames parent indent e,
    visit frames cats parent indent = inl e -> e = RecursionError.
Proof.
  induction frames as [|frames IH]; intros parent indent e; cbn [visit].
  - intros [= <-]. reflexivity.
  - induction (tree_children cats parent) as [|n l IHl]; cbn [foldr]; [discriminate|].
    destruct (visit frames cats (Some n) (indent ++ "  ")) as [e'|below] eqn:Hn.
    + intros [= <-]. exact (IH _ _ _ Hn).
    + destruct (foldr _ _ l) as [e'|out]; [|discriminate].
      intros [= <-]. apply IHl. reflexivity.
Qed.

(** The loop of [visit] over the children. *)
Lemma visit_children cats frames indent (g : string -> list string) (l : list string) :
  (forall n, n ∈ l ->
     visit frames cats (Some n) (indent ++ "  ") = inr (map indented (g n))) ->
  (forall n, n ∈ l -> (indent ++ n)%string = indented n) ->
  foldr
    (fun name rest =>
       match visit frames cats (Some name) (indent ++ "  ")%string with
       | inl e => inl e
       | inr below =>
           match rest with
           | inl e => inl e
           | inr out => inr ((indent ++ name)%string :: below ++ out)
           end
       end)
    (inr []) l
  = inr (map indented (flat_map (fun n => n :: g n) l)).
Proof.
  induction l as [|n l IH]; intros Hvisit Hline; [reflexivity|].
  cbn [foldr flat_map]. rewrite (Hvisit n) by left.
  rewrite IH; [|intros n' Hn'; apply Hvisit; right; exact Hn'
               |intros n' Hn'; apply Hline; right; exact Hn'].
  rewrite (Hline n) by left. cbn [app map]. rewrite map_app. reflexivity.
Qed.

(** With frames enough for every category, [visit] lists what the walk
    lists. *)
Lemma visit_fits cats :
  forest cats ->
  forall frames parent,
    (0 < frames)%nat ->
    (forall name, name ∈ map fst cats -> (colons name + 2 <= level parent + frames)%nat) ->
    visit frames cats parent (pad (level parent))
    = inr (map indented (walk frames cats parent)).
Proof.
  intros Hf. induction frames as [|frames IH]; intros parent Hpos Hall; [lia|].
  cbn [visit walk].
  assert (forall n, n ∈ tree_children cats parent ->
            n ∈ map fst cats /\ colons n = level parent) as Hchild.
  { intros n Hn. apply tree_children_in in Hn. split.
    - apply list_elem_of_In, in_map_iff. exists (n, parent).
      split; [reflexivity|apply list_elem_of_In; exact Hn].
    - exact (forest_levels cats Hf n parent Hn). }
  apply visit_children.
  - intros n Hn. destruct (Hchild n Hn) as [Hkey Hlevel].
    pose proof (Hall n Hkey) as Hdeep.
    change (pad (level parent) ++ "  ")%string with (pad (S (level parent))).
    rewrite <- Hlevel. apply (IH (Some n)); [lia|].
    intros name Hname. specialize (Hall name Hname). cbn [level]. lia.
  - intros n Hn. destruct (Hchild n Hn) as [_ Hlevel]. unfold indented.
    rewrite Hlevel. reflexivity.
Qed.

(** A call of [visit] that returns has found a frame for every call
    below it: the walk is over a level before the frames are. *)
Lemma visit_returns cats :
  forall frames parent indent out,
    visit frames cats parent indent = inr out ->
    forall d, (frames - 1 <= d)%nat -> walk d cats parent = walk (frames - 1) cats parent.
Proof.
  induction frames as [|frames IH]; intros parent indent out; [discriminate|].
  cbn [visit]. intros Hout.
  assert (forall n, n ∈ tree_children cats parent ->
            exists below, visit frames cats (Some n) (indent ++ "  ") = inr below) as Hall.
  { revert out Hout. induction (tree_children cats parent) as [|n0 l IHl];
      intros out Hout n Hn; [inversion Hn|].
    cbn [foldr] in Hout.
    destruct (visit frames cats (Some n0) (indent ++ "  ")) as [e|below] eqn:Hn0;
      [discriminate Hout|].
    destruct (foldr _ _ l) as [e|out'] eqn:Hl; [discriminate Hout|].
    apply elem_of_cons in Hn as [->|Hn]; [exists below; exact Hn0|].
    exact (IHl out' eq_refl n Hn). }
  clear Hout. intros d Hd. replace (S frames - 1)%nat with frames in * by lia.
  destruct frames as [|frames].
  - destruct (tree_children cats parent) as [|n l] eqn:Hl.
    + destruct d; cbn [walk]; rewrite ?Hl; reflexivity.
    + destruct (Hall n ltac:(left)) as [below Hn]. discriminate Hn.
  - destruct d as [|d]; [lia|]. cbn [walk]. apply flat_map_pointwise.
    intros n Hn. f_equal. destruct (Hall n Hn) as [below Hbelow].
    pose proof (IH (Some n) _ below Hbelow d ltac:(lia)) as Hwalk.
    replace (S frames - 1)%nat with frames in Hwalk by lia. exact Hwalk.
Qed.

Lemma nesting_fits_spec (frames : nat) (cats : list (string * option string)) :
  nesting_fits frames cats = true
  <-> (0 < frames)%nat
      /\ forall name, name ∈ map fst cats -> (colons name + 2 <= frames)%nat.
Proof.
  unfold nesting_fits. rewrite andb_true_iff, Nat.ltb_lt, forallb_forall. split.
  - intros [Hpos Hall]. split; [exact Hpos|]. intros name Hname.
    apply list_elem_of_In, in_map_iff in Hname as (kv & <- & Hkv).
    apply Nat.leb_le, Hall, Hkv.
  - intros [Hpos Hall]. split; [exact Hpos|]. intros kv Hkv. apply Nat.leb_le, Hall.
    apply list_elem_of_In, in_map. exact Hkv.
Qed.

(** [visit(None)] in a dictionary that [cmd_cat] built: the complete
    listing when the nesting fits in the frames, [RecursionError]
    otherwise. *)
Lemma visit_forest cats (frames : nat) :
  forest cats ->
  visit frames cats None ""
  = if nesting_fits frames cats
    then inr (map indented (walk (S (length cats)) cats None))
    else inl RecursionError.
Proof.
  intros Hf. destruct (nesting_fits frames cats) eqn:Hfits.
  - apply nesting_fits_spec in Hfits as [Hpos Hall].
    pose proof (visit_fits cats Hf frames None Hpos
                  (fun name Hname => Hall name Hname)) as Hvisit.
    cbn [level pad] in Hvisit. rewrite Hvisit.
    f_equal. f_equal.
    assert (forall d, (frames - 1 <= d)%nat -> walk d cats None = walk (frames - 1) cats None)
      as Hconst.
    { apply walk_constant; [exact Hf|]. intros name Hname. specialize (Hall name Hname). lia. }
    rewrite (Hconst frames) by lia.
    rewrite <- (Hconst (Nat.max frames (S (length cats)))) by lia.
    apply walk_stable; [exact Hf|lia].
  - destruct (visit frames cats None "") as [e|out] eqn:Hvisit.
    { f_equal. exact (visit_error cats _ _ _ e Hvisit). }
    exfalso. assert (nesting_fits frames cats = true) as Hyes; [|congruence].
    apply nesting_fits_spec.
    assert (0 < frames)%nat as Hpos by (destruct frames; [discriminate Hvisit|lia]).
    split; [exact Hpos|]. intros name Hname.
    pose proof (visit_returns cats frames None "" out Hvisit) as Hconst.
    rewrite <- (walk_complete cats Hf (Nat.max (frames - 1) (S (length cats)))) in Hname by lia.
    rewrite Hconst in Hname by lia.
    apply (walk_levels cats Hf) in Hname. cbn [level] in Hname. lia.
Qed.

(** *** The order of the listing *)

Lemma keys_functional {V} (d : list (string * V)) (k : string) (v v' : V) :
  NoDup (map fst d) -> (k, v) ∈ d -> (k, v') ∈ d -> v = v'.
Proof.
  induction d as [|[k0 v0] d IH]; intros Hnd Hv Hv'; [inversion Hv|].
  cbn [map fst] in Hnd. apply NoDup_cons in Hnd as [Hk0 Hnd].
  assert (forall w, (k0, w) ∈ d -> False) as Hfresh.
  { intros w Hw. apply Hk0, list_elem_of_In, in_map_iff. exists (k0, w).
    split; [reflexivity|apply list_elem_of_In; exact Hw]. }
  apply elem_of_cons in Hv as [Hv|Hv]; apply elem_of_cons in Hv' as [Hv'|Hv'].
  - congruence.
  - exfalso. assert (k = k0) as -> by congruence. exact (Hfresh _ Hv').
  - exfalso. assert (k = k0) as -> by congruence. exact (Hfresh _ Hv).
  - exact (IH Hnd Hv Hv').
Qed.

Lemma elem_of_flat_map {B C} (g : B -> list C) (l : list B) (y : C) :
  y ∈ flat_map g l ->
  exists la n lb, l = la ++ n :: lb /\ y ∈ g n.
Proof.
  intros Hy. apply list_elem_of_In, in_flat_map in Hy as (n & Hn & Hy).
  apply list_elem_of_In, list_elem_of_split in Hn as (la & lb & ->).
  exists la, n, lb. split; [reflexivity|apply list_elem_of_In; exact Hy].
Qed.

(** A name the walk lists is a child of where the walk starts, or
    comes after its parent. *)
Lemma walk_parent_first cats c :
  forall d parent,
    c ∈ walk d cats parent ->
    (c, parent) ∈ cats
    \/ exists p l1 l2 l3,
         (c, Some p) ∈ cats /\ walk d cats parent = l1 ++ p :: l2 ++ c :: l3.
Proof.
  induction d as [|d IH]; intros parent Hc; [inversion Hc|].
  cbn [walk] in Hc |- *. apply elem_of_flat_map in Hc as (la & n & lb & Hl & Hc).
  rewrite Hl, flat_map_app. cbn [flat_map].
  apply elem_of_cons in Hc as [->|Hc].
  - left. apply tree_children_in. rewrite Hl. apply elem_of_app. right. left.
  - right. destruct (IH (Some n) Hc) as [Hchild|(p & l1 & l2 & l3 & Hp & Hw)].
    + apply list_elem_of_split in Hc as (w1 & w2 & Hw).
      exists n, (flat_map (fun name => name :: walk d cats (Some name)) la), w1,
        (w2 ++ flat_map (fun name => name :: walk d cats (Some name)) lb).
      split; [exact Hchild|]. rewrite Hw. cbn [app]. rewrite <- !app_assoc. reflexivity.
    + exists p, (flat_map (fun name => name :: walk d cats (Some name)) la ++ n :: l1), l2,
        (l3 ++ flat_map (fun name => name :: walk d cats (Some name)) lb).
      split; [exact Hp|]. rewrite Hw. cbn [app]. rewrite <- !app_assoc. cbn [app].
      rewrite <- !app_assoc. reflexivity.
Qed.

Lemma insert_sorted_hd (y x : string) (l : list string) :
  String.leb y x = true ->
  HdRel (fun a b => String.leb a b = true) y l ->
  HdRel (fun a b => String.leb a b = true) y (insert_sorted x l).
Proof.
  intros Hyx Hyl. destruct l as [|z l]; cbn [insert_sorted]; [constructor; exact Hyx|].
  destruct (String.leb x z); constructor; [exact Hyx|].
  inversion Hyl; assumption.
Qed.

Lemma insert_sorted_sorted (x : string) (l : list string) :
  Sorted (fun a b => String.leb a b = true) l ->
  Sorted (fun a b => String.leb a b = true) (insert_sorted x l).
Proof.
  induction 1 as [|y l Hl IH Hy]; cbn [insert_sorted]; [repeat constructor|].
  destruct (String.leb x y) eqn:Hxy.
  - constructor; [constructor; assumption|constructor; exact Hxy].
  - constructor; [exact IH|]. apply insert_sorted_hd; [|exact Hy].
    destruct (String.leb_total x y) as [Hle|Hle]; [congruence|exact Hle].
Qed.

Lemma tree_children_sorted cats parent :
  Sorted (fun a b => String.leb a b = true) (tree_children cats parent).
Proof.
  unfold tree_children.
  induction (map fst (filter (fun kv => bool_decide (snd kv = parent)) cats)) as [|x l IH];
    [constructor|].
  cbn [foldr]. apply insert_sorted_sorted, IH.
Qed.

Lemma heads_sublist {B} (h : B -> list B) (l : list B) :
  l `sublist_of` flat_map (fun n => n :: h n) l.
Proof.
  induction l as [|n l IH]; [constructor|]. cbn [flat_map app].
  apply sublist_skip, sublist_inserts_l, IH.
Qed.

(** The children of a listed name follow, in their order, once there
    is a level more. *)
Lemma walk_children cats p :
  forall d parent,
    p ∈ walk d cats parent ->
    tree_children cats (Some p) `sublist_of` walk (S d) cats parent.
Proof.
  induction d as [|d IH]; intros parent Hp; [inversion Hp|].
  cbn [walk] in Hp. apply elem_of_flat_map in Hp as (la & n & lb & Hl & Hp).
  change (walk (S (S d)) cats parent)
    with (flat_map (fun name => name :: walk (S d) cats (Some name))
            (tree_children cats parent)).
  rewrite Hl, flat_map_app. cbn [flat_map].
  apply sublist_inserts_l, sublist_inserts_r, sublist_cons.
  apply elem_of_cons in Hp as [->|Hp]; [apply heads_sublist|exact (IH (Some n) Hp)].
Qed.

Lemma filter_sublist {B} (P : B -> Prop) `{!forall x, Decision (P x)} (l k : list B) :
  l `sublist_of` k -> filter P l `sublist_of` filter P k.
Proof.
  induction 1 as [|x l k Hsub IH|x l k Hsub IH]; [constructor| |];
    rewrite ?(filter_cons P x); destruct (decide (P x));
    [apply sublist_skip|..|apply sublist_cons|]; exact IH.
Qed.

Lemma filter_all {B} (P : B -> Prop) `{!forall x, Decision (P x)} (l : list B) :
  (forall x, x ∈ l -> P x) -> filter P l = l.
Proof.
  induction l as [|x l IH]; intros HP; [reflexivity|].
  rewrite filter_cons_True by (apply HP; left). f_equal.
  apply IH. intros y Hy. apply HP. right. exact Hy.
Qed.

(** The names of one parent, taken out of the walk, are that parent's
    sorted list. *)
Lemma walk_siblings cats parent :
  forest cats ->
  filter (fun name => (name, parent) ∈ cats) (walk (S (length cats)) cats None)
  = tree_children cats parent.
Proof.
  intros Hf. set (names := walk (S (length cats)) cats None).
  assert (names ≡ₚ map fst cats) as Hperm by (apply walk_complete; [exact Hf|lia]).
  assert (tree_children cats parent `sublist_of` names) as Hsub.
  { destruct parent as [p|]; [|apply heads_sublist].
    destruct (decide (p ∈ names)) as [Hp|Hp].
    - unfold names. rewrite <- (walk_stable cats Hf (S (S (length cats)))) by lia.
      apply walk_children. exact Hp.
    - rewrite tree_children_none; [apply sublist_nil_l|].
      intros name Hname. apply Hp. rewrite Hperm.
      apply dict_in_elem, (forest_parents cats name p Hf Hname). }
  symmetry. apply sublist_same_length.
  - rewrite <- (filter_all (fun name => (name, parent) ∈ cats) (tree_children cats parent))
      by (intros x Hx; apply tree_children_in; exact Hx).
    apply filter_sublist. exact Hsub.
  - apply submseteq_length, NoDup_submseteq.
    + apply NoDup_filter. rewrite Hperm. apply forest_nodup, Hf.
    + intros x Hx. apply list_elem_of_filter in Hx as [Hx _].
      apply tree_children_in. exact Hx.
Qed.

(** *** The listing of a reachable state *)

Lemma listing_reachable {A} `{Amount A} (cs : list (command A)) :
  let cats := categories (run fresh_state cs) in
  let names := walk (S (length cats)) cats None in
  forest cats
  /\ names ≡ₚ map fst cats
  /\ map PyStr.lstrip (map indented names) = names
  /\ forall frames,
       visit frames cats None ""
       = if nesting_fits frames cats then inr (map indented names) else inl RecursionError.
Proof.
  cbn zeta. pose proof (forest_reachable cs) as Hf.
  set (cats := categories (run fresh_state cs)) in *.
  pose proof (walk_complete cats Hf (S (length cats)) (Nat.lt_succ_diag_r _)) as Hperm.
  split; [exact Hf|]. split; [exact Hperm|]. split.
  - apply lstrip_lines, Forall_forall. intros name Hname.
    apply (forest_names cats Hf). rewrite <- Hperm. exact Hname.
  - intros frames. apply visit_forest, Hf.
Qed.

Lemma forest_closed cats : forest cats -> parents_closed cats.
Proof.
  induction 1 as [|cats part Hf IH Hnew _ Hcol|cats p part Hf IH Hnew Hp Hcol];
    intros name parent Hin.
  - destruct Hin.
  - apply in_app_or in Hin as [Hin|[[= <- <-]|[]]]; [|exact Hcol].
    specialize (IH name parent Hin). destruct parent as [q|]; [|exact IH].
    destruct IH as [Hq Hpart]. split; [apply dict_in_grows; exact Hq|exact Hpart].
  - apply in_app_or in Hin as [Hin|[[= <- <-]|[]]].
    + specialize (IH name parent Hin). destruct parent as [q|]; [|exact IH].
      destruct IH as [Hq Hpart]. split; [apply dict_in_grows; exact Hq|exact Hpart].
    + split; [apply dict_in_grows; exact Hp|]. exists part. split; [exact Hcol|reflexivity].
Qed.

(** X5. In every reachable state the category paths are distinct; a
    category without parent is a single part, without colon; the parent
    of any other category is itself a category, and the child's path is
    the parent's path followed by a colon and exactly one more part. *)
Theorem categories_closed_reachable {A} `{Amount A} (cs : list (command A)) :
  NoDup (map fst (categories (run fresh_state cs)))
  /\ parents_closed (categories (run fresh_state cs)).
Proof.
  split; [apply run_categories_nodup|]. apply forest_closed, forest_reachable.
Qed.

(** A chain of 996 categories, each the parent of the next, is more
    than the frames hold: one call of [cmd_cat] builds it. *)
Lemma deep_chain_unfit :
  nesting_fits visit_frames
    (categories (run fresh_state [@Cat float (String.concat ":" (repeat "a" 996))])) = false.
Proof.
  set (spec := String.concat ":" (repeat "a" 996)).
  change (run fresh_state [@Cat float spec]) with (fst (cmd_cat (@fresh_state float) spec)).
  destruct (cmd_cat_grows (@fresh_state float) spec) as (_ & Hall). cbn zeta in Hall.
  assert (map PyStr.strip (PyStr.split ":" spec) = repeat "a" 996) as Hparts
    by (vm_compute; reflexivity).
  rewrite Hparts in Hall.
  assert (last (cat_paths 0 "" (repeat "a" 996)) = Some spec) as Hlast
    by (change (repeat "a" 996) with ("a" :: repeat "a" 995); rewrite cat_paths_last;
        reflexivity).
  apply last_Some in Hlast as (l' & Hl'). rewrite Hl' in Hall.
  apply Forall_app in Hall as [_ Hleaf]. apply Forall_inv in Hleaf.
  destruct (nesting_fits _ _) eqn:Hfits; [exfalso|reflexivity].
  apply nesting_fits_spec in Hfits as [_ Hfits].
  specialize (Hfits spec (proj1 (dict_in_elem _ _) Hleaf)).
  assert (colons spec = 995%nat) as Hcolons by (vm_compute; reflexivity).
  rewrite Hcolons in Hfits. vm_compute in Hfits. lia.
Qed.

(** X15. In every reachable state [sorted_categories] either lists
    every category exactly once or raises [RecursionError].  It lists
    them when the nesting fits in the frames the recursion limit
    leaves: each line is the category's path behind two spaces per
    level, the level being the number of colons of the path, and
    [lstrip] gives the path back.  It raises when some category is
    nested too deep, which a single [cmd_cat] can bring about.  The
    same holds of [visit] for any number of frames. *)
Theorem sorted_categories_complete {A} `{Amount A} (cs : list (command A)) :
  let st := run fresh_state cs in
  exists names,
    names ≡ₚ map fst (categories st)
    /\ map PyStr.lstrip (map indented names) = names
    /\ (forall frames,
          visit frames (categories st) None ""
          = if nesting_fits frames (categories st)
            then inr (map indented names) else inl RecursionError)
    /\ sorted_categories st
       = if nesting_fits visit_frames (categories st)
         then inr (map indented names) else inl RecursionError.
Proof.
  cbn zeta. destruct (listing_reachable cs) as (_ & Hperm & Hstrip & Hvisit).
  eexists. split; [exact Hperm|]. split; [exact Hstrip|]. split; [exact Hvisit|].
  apply Hvisit.
Qed.

Lemma sorted_categories_complete_witness :
  (exists lines,
     sorted_categories (run fresh_state [@Cat float "Home:Rent"; Cat "Food"]) = inr lines
     /\ map PyStr.lstrip lines ≡ₚ ["Home"; "Home:Rent"; "Food"])
  /\ sorted_categories
       (run fresh_state [@Cat float (String.concat ":" (repeat "a" 996))])
     = inl RecursionError.
Proof.
  split.
  - destruct (sorted_categories_complete [@Cat float "Home:Rent"; Cat "Food"])
      as (names & Hperm & Hstrip & _ & Hlist).
    exists (map indented names). split; [exact Hlist|]. rewrite Hstrip. exact Hperm.
  - destruct (sorted_categories_complete
                [@Cat float (String.concat ":" (repeat "a" 996))])
      as (names & _ & _ & _ & Hlist).
    rewrite Hlist, deep_chain_unfit. reflexivity.
Defined.

(** X16. In every reachable state whose nesting fits in the frames the
    recursion limit leaves, the listing is in tree order: a category
    that has a parent is listed after its parent. *)
Theorem sorted_categories_parent_first {A} `{Amount A} (cs : list (command A))
    (c p : string) :
  let st := run fresh_state cs in
  nesting_fits visit_frames (categories st) = true ->
  In (c, Some p) (categories st) ->
  exists lines l1 l2 l3,
    sorted_categories st = inr lines
    /\ map PyStr.lstrip lines = l1 ++ p :: l2 ++ c :: l3.
Proof.
  cbn zeta. intros Hfits Hc.
  destruct (listing_reachable cs) as (Hf & Hperm & Hstrip & Hvisit). cbn zeta in *.
  set (cats := categories (run fresh_state cs)) in *.
  apply list_elem_of_In in Hc.
  assert (c ∈ walk (S (length cats)) cats None) as Hin.
  { rewrite Hperm. apply list_elem_of_In, in_map_iff.
    exists (c, Some p). split; [reflexivity|apply list_elem_of_In; exact Hc]. }
  exists (map indented (walk (S (length cats)) cats None)).
  destruct (walk_parent_first cats c _ None Hin) as [Hroot|(p' & l1 & l2 & l3 & Hp' & Hw)].
  - pose proof (keys_functional cats c _ _ (forest_nodup cats Hf) Hc Hroot) as Heq.
    discriminate Heq.
  - pose proof (keys_functional cats c _ _ (forest_nodup cats Hf) Hc Hp') as [= ->].
    exists l1, l2, l3. split.
    + unfold sorted_categories. fold cats. rewrite Hvisit, Hfits. reflexivity.
    + rewrite Hstrip. exact Hw.
Qed.

Lemma sorted_categories_parent_first_witness :
  exists lines l1 l2 l3,
    sorted_categories
      (run fresh_state [@Cat float "Home:Rent"; Cat "Food"; Cat "Home: Power "])
    = inr lines
    /\ map PyStr.lstrip lines = l1 ++ "Home" :: l2 ++ "Home:Power" :: l3.
Proof.
  apply (sorted_categories_parent_first
           [@Cat float "Home:Rent"; Cat "Food"; Cat "Home: Power "] "Home:Power" "Home").
  - reflexivity.
  - vm_compute. right. right. right. left. reflexivity.
Defined.

(** X17. In every reachable state whose nesting fits in the frames the
    recursion limit leaves, the categories of one parent (the roots,
    for no parent) are listed in ascending order of their paths,
    compared character by character as [sort] compares strings. *)
Theorem sorted_categories_siblings {A} `{Amount A} (cs : list (command A))
    (parent : option string) :
  let st := run fresh_state cs in
  nesting_fits visit_frames (categories st) = true ->
  exists lines,
    sorted_categories st = inr lines
    /\ Sorted (fun a b => String.leb a b = true)
         (filter (fun name => (name, parent) ∈ categories st) (map PyStr.lstrip lines)).
Proof.
  cbn zeta. intros Hfits.
  destruct (listing_reachable cs) as (Hf & Hperm & Hstrip & Hvisit). cbn zeta in *.
  eexists. split.
  - unfold sorted_categories. rewrite Hvisit, Hfits. reflexivity.
  - rewrite Hstrip, (walk_siblings _ parent Hf). apply tree_children_sorted.
Qed.

Lemma sorted_categories_siblings_witness :
  exists lines,
    sorted_categories
      (run fresh_state [@Cat float "Home:Rent"; Cat "Food"; Cat "Home: Power "])
    = inr lines
    /\ Sorted (fun a b => String.leb a b = true)
         (filter
            (fun name =>
               (name, Some "Home")
               ∈ categories
                   (run fresh_state [@Cat float "Home:Rent"; Cat "Food"; Cat "Home: Power "]))
            (map PyStr.lstrip lines)).
Proof.
  apply (sorted_categories_siblings
           [@Cat float "Home:Rent"; Cat "Food"; Cat "Home: Power "] (Some "Home")).
  reflexivity.
Defined.

(** ** The report *)

Lemma setdefault_entries {A} `{Amount A} (l : list string) :
  forall (cm : gmap string (CatEntry A)) (c : string),
    fold_left
      (fun cm c => match cm !! c with
                   | Some _ => cm
                   | None => <[c := zero_entry]> cm
                   end) l cm !! c
    = if bool_decide (c ∈ l) then Some (default zero_entry (cm !! c)) else cm !! c.
Proof.
  induction l as [|c0 l IH]; intros cm c; [reflexivity|].
  cbn [fold_left]. rewrite IH.
  assert ((match cm !! c0 with
           | Some _ => cm
           | None => <[c0 := zero_entry]> cm
           end) !! c
          = if bool_decide (c = c0) then Some (default zero_entry (cm !! c)) else cm !! c)
    as ->.
  { destruct (decide (c = c0)) as [->|Hne].
    - rewrite bool_decide_eq_true_2 by reflexivity.
      destruct (cm !! c0) as [e|] eqn:He; [exact He|apply lookup_insert_eq].
    - rewrite bool_decide_eq_false_2 by exact Hne.
      destruct (cm !! c0); [reflexivity|apply lookup_insert_ne; congruence]. }
  destruct (decide (c = c0)) as [->|Hne].
  - rewrite (bool_decide_eq_true_2 (c0 = c0)) by reflexivity.
    rewrite (bool_decide_eq_true_2 (c0 ∈ c0 :: l)) by left.
    destruct (bool_decide (c0 ∈ l)); reflexivity.
  - rewrite (bool_decide_eq_false_2 (c = c0)) by exact Hne.
    destruct (decide (c ∈ l)) as [Hin|Hin].
    + rewrite (bool_decide_eq_true_2 (c ∈ l)) by exact Hin.
      rewrite (bool_decide_eq_true_2 (c ∈ c0 :: l)) by (right; exact Hin). reflexivity.
    + rewrite (bool_decide_eq_false_2 (c ∈ l)) by exact Hin.
      rewrite (bool_decide_eq_false_2 (c ∈ c0 :: l)); [reflexivity|].
      intros [?|?]%elem_of_cons; contradiction.
Qed.

Lemma report_rows_ok {A} `{Amount A} (cm : gmap string (CatEntry A))
    (f : string -> CatEntry A) (names : list string) :
  forall (total_bud : A) (out : list (line A)),
    (forall c, c ∈ names -> cm !! PyStr.lstrip c = Some (f (PyStr.lstrip c))) ->
    report_rows cm names total_bud out
    = inr (fold_left (fun t c => (t + budgeted (f (PyStr.lstrip c)))%amt) names total_bud,
           out ++ map (fun c => Category_row c (f (PyStr.lstrip c))) names).
Proof.
  induction names as [|c names IH]; intros total_bud out Hcm.
  - cbn. rewrite app_nil_r. reflexivity.
  - cbn [report_rows fold_left map]. rewrite (Hcm c) by left.
    rewrite IH by (intros c' Hc'; apply Hcm; right; exact Hc').
    rewrite <- app_assoc. reflexivity.
Qed.

(** X18. The body of [cmd_rep] below its first line, run for a month
    [m] in a reachable state.  It first stores an all-zero entry in
    month [m] for every category that has none (so it is no pure read),
    and changes nothing else.  When the nesting of the categories fits
    in the frames the recursion limit leaves, it then never fails on
    [cm[c.lstrip()]]: it prints one row per category, in the order of
    [sorted_categories], with the entry the state holds for that
    category in [m] (all zeros without one), and ends on
    ready_to_assign less the budgeted amounts, added up in that order.
    Otherwise [sorted_categories] raises [RecursionError] and no row is
    printed. *)
Theorem report_reachable {A} `{Amount A} (cs : list (command A)) (m : string) :
  let st := run fresh_state cs in
  let st' := fst (report st m) in
  let val c := entry_at st m (PyStr.lstrip c) in
  exists lines,
    sorted_categories st
    = (if nesting_fits visit_frames (categories st) then inr lines else inl RecursionError)
    /\ snd (report st m)
       = (if nesting_fits visit_frames (categories st) then
            Printed
              ([Report_for m; Text "Accounts:"]
               ++ map (fun kv => Account_line (fst kv) (snd kv)) (accounts st)
               ++ [Text ""]
               ++ [Text "Categories:"; Text "Category               Budg     Actv     Avail";
                   Text "--------------------------------------------------"]
               ++ map (fun c => Category_row c (val c)) lines
               ++ [Text "--------------------------------------------------";
                   Remaining_tbb
                     (default 0%amt (month_summary st !! m)
                      - fold_left (fun t c => t + budgeted (val c)) lines 0)%amt])
          else Raised RecursionError)
    /\ (forall m' c,
          lookup_entry st' m' c
          = if String.eqb m' m && dict_in c (categories st)
            then Some (entry_at st m c) else lookup_entry st m' c)
    /\ st' = set_category_month st (category_month st').
Proof.
  cbn zeta. set (st := run fresh_state cs).
  destruct (listing_reachable cs) as (Hf & Hperm & Hstrip & Hvisit). cbn zeta in *.
  fold st in Hf, Hperm, Hstrip, Hvisit.
  set (names := walk (S (length (categories st))) (categories st) None) in *.
  exists (map indented names).
  assert (sorted_categories st
          = if nesting_fits visit_frames (categories st)
            then inr (map indented names) else inl RecursionError) as Hlist
    by apply Hvisit.
  split; [exact Hlist|]. unfold report.
  set (cm := fold_left _ (map fst (categories st)) _).
  assert (forall c, cm !! c
                    = if dict_in c (categories st) then Some (entry_at st m c)
                      else lookup_entry st m c) as Hcm.
  { intros c. unfold cm. rewrite setdefault_entries, lookup2_default.
    destruct (dict_in c (categories st)) eqn:Hc.
    - rewrite bool_decide_eq_true_2 by (apply dict_in_elem; exact Hc). reflexivity.
    - rewrite bool_decide_eq_false_2; [reflexivity|].
      intros Hin. apply dict_in_elem in Hin. congruence. }
  change (sorted_categories (set_category_month st (<[m:=cm]> (category_month st))))
    with (sorted_categories st).
  assert (forall m' c,
            lookup_entry (set_category_month st (<[m:=cm]> (category_month st))) m' c
            = if String.eqb m' m && dict_in c (categories st)
              then Some (entry_at st m c) else lookup_entry st m' c) as Hstate.
  { intros m' c. unfold lookup_entry at 1. cbn [category_month set_category_month].
    destruct (String.eqb m' m) eqn:Hm; cbn [andb].
    - apply String.eqb_eq in Hm as ->. unfold lookup2. rewrite lookup_insert_eq. cbn.
      apply Hcm.
    - apply String.eqb_neq in Hm. unfold lookup_entry, lookup2.
      rewrite lookup_insert_ne by congruence. reflexivity. }
  rewrite Hlist. destruct (nesting_fits visit_frames (categories st)).
  - rewrite (report_rows_ok cm (entry_at st m) (map indented names) 0%amt []).
    2: { intros c Hc. rewrite Hcm.
         assert (PyStr.lstrip c ∈ map PyStr.lstrip (map indented names)) as Hin
           by (apply list_elem_of_In, in_map, list_elem_of_In; exact Hc).
         rewrite Hstrip, Hperm in Hin. apply dict_in_elem in Hin. rewrite Hin.
         reflexivity. }
    cbn [fst snd]. split; [rewrite <- !app_assoc; reflexivity|].
    split; [exact Hstate|reflexivity].
  - cbn [fst snd]. split; [reflexivity|]. split; [exact Hstate|reflexivity].
Qed.

(** ** Whitespace around a month text *)

Lemma blank_cons (c : ascii) (s : string) :
  blank (String c s) -> PyStr.isspace c = true /\ blank s.
Proof.
  unfold blank. cbn [PyStr.lstrip]. destruct (PyStr.isspace c); [intros Hs|discriminate].
  split; [reflexivity|exact Hs].
Qed.

Lemma lstrip_blank_app (ws s : string) :
  blank ws -> PyStr.lstrip (ws ++ s) = PyStr.lstrip s.
Proof.
  induction ws as [|c ws IH]; intros Hws; [reflexivity|].
  apply blank_cons in Hws as [Hc Hws].
  change (PyStr.lstrip (String c (ws ++ s)) = PyStr.lstrip s).
  cbn [PyStr.lstrip]. rewrite Hc. exact (IH Hws).
Qed.

Lemma rstrip_blank (ws : string) : blank ws -> PyStr.rstrip ws = "".
Proof.
  induction ws as [|c ws IH]; intros Hws; [reflexivity|].
  apply blank_cons in Hws as [Hc Hws]. cbn [PyStr.rstrip].
  rewrite (IH Hws), Hc. reflexivity.
Qed.

Lemma rstrip_app_blank (s ws : string) :
  blank ws -> PyStr.rstrip (s ++ ws) = PyStr.rstrip s.
Proof.
  intros Hws. induction s as [|c s IH]; [exact (rstrip_blank ws Hws)|].
  change (PyStr.rstrip (String c (s ++ ws)) = PyStr.rstrip (String c s)).
  cbn [PyStr.rstrip]. rewrite IH. reflexivity.
Qed.

Lemma lstrip_app (s ws : string) :
  blank ws ->
  PyStr.lstrip (s ++ ws) = (PyStr.lstrip s ++ ws)%string \/ (blank s /\ blank (s ++ ws)).
Proof.
  intros Hws. induction s as [|c s IH].
  - right. split; [reflexivity|exact Hws].
  - change (String c s ++ ws)%string with (String c (s ++ ws)).
    unfold blank. cbn [PyStr.lstrip]. destruct (PyStr.isspace c); [exact IH|].
    left. reflexivity.
Qed.

Lemma strip_surrounded (ws1 text ws2 : string) :
  blank ws1 -> blank ws2 -> PyStr.strip (ws1 ++ text ++ ws2) = PyStr.strip text.
Proof.
  intros H1 H2. unfold PyStr.strip. rewrite (lstrip_blank_app ws1 _ H1).
  destruct (lstrip_app text ws2 H2) as [->|[Ht Hall]].
  - apply rstrip_app_blank, H2.
  - unfold blank in Ht, Hall. rewrite Ht, Hall. reflexivity.
Qed.

(** X19. [parse_month] ignores whitespace around the month text: with
    any whitespace before and after, the result is the same, the key as
    well as the error. *)
Theorem parse_month_surrounded (ws1 text ws2 : string) :
  blank ws1 -> blank ws2 ->
  parse_month (ws1 ++ text ++ ws2) = parse_month text.
Proof.
  intros H1 H2. unfold parse_month. rewrite (strip_surrounded ws1 text ws2 H1 H2).
  reflexivity.
Qed.

Lemma parse_month_surrounded_witness :
  parse_month ("  " ++ "March 2024" ++ " ") = parse_month "March 2024".
Proof. apply (parse_month_surrounded "  " "March 2024" " "); reflexivity. Defined.

(** ** The summary: months in order *)

Section Summary.
Import PyStr Datetime.

Lemma digit_compare (a b : Z) :
  (0 <= a < 10)%Z -> (0 <= b < 10)%Z ->
  Ascii.compare (ascii_of_N (Z.to_N a + 48)) (ascii_of_N (Z.to_N b + 48)) = (a ?= b)%Z.
Proof.
  intros Ha Hb.
  assert (a = 0 \/ a = 1 \/ a = 2 \/ a = 3 \/ a = 4 \/ a = 5 \/ a = 6 \/ a = 7
          \/ a = 8 \/ a = 9)%Z as Hacases by lia.
  assert (b = 0 \/ b = 1 \/ b = 2 \/ b = 3 \/ b = 4 \/ b = 5 \/ b = 6 \/ b = 7
          \/ b = 8 \/ b = 9)%Z as Hbcases by lia.
  clear Ha Hb.
  repeat (destruct Hacases as [->|Hacases]);
    repeat (destruct Hbcases as [->|Hbcases]); subst; reflexivity.
Qed.

(** From the year 1000 on, keys compare as their months do: four
    digits of year, two of month. *)
Lemma key_compare_lt (y1 mo1 y2 mo2 : Z) :
  (1000 <= y1 <= 9999)%Z -> (1 <= mo1 <= 12)%Z ->
  (1000 <= y2 <= 9999)%Z -> (1 <= mo2 <= 12)%Z ->
  (y1 < y2 \/ (y1 = y2 /\ mo1 < mo2))%Z ->
  String.compare (strftime_Ym (y1, mo1)) (strftime_Ym (y2, mo2)) = Lt.
Proof.
  intros Hy1 Hmo1 Hy2 Hmo2 Hlt. rewrite !strftime_four_digits by lia.
  rewrite !zfill4_chars.
  change (zfill 2 mo1)
    with (String (ascii_of_N (Z.to_N (mo1 / 10 mod 10) + 48))
            (String (ascii_of_N (Z.to_N (mo1 mod 10) + 48)) EmptyString)).
  change (zfill 2 mo2)
    with (String (ascii_of_N (Z.to_N (mo2 / 10 mod 10) + 48))
            (String (ascii_of_N (Z.to_N (mo2 mod 10) + 48)) EmptyString)).
  change (String ?a (String ?b (String ?c (String ?d EmptyString)))
          ++ "-" ++ String ?e (String ?f EmptyString))%string
    with (String a (String b (String c (String d (String "-" (String e (String f EmptyString))))))).
  cbn [String.compare].
  rewrite !digit_compare by (apply Z.mod_pos_bound; lia).
  change (Ascii.compare "-" "-") with Eq. cbv iota.
  repeat match goal with
         | |- context [(?a ?= ?b)%Z] => destruct (Z.compare_spec a b)
         end; try reflexivity; exfalso; Z.div_mod_to_equations; lia.
Qed.

(** A key on seven characters is the key of a month from the year
    1000 on. *)
Lemma long_key (k : string) :
  is_key k -> String.length k = 7%nat ->
  exists y mo : Z, (1000 <= y <= 9999)%Z /\ (1 <= mo <= 12)%Z /\ k = strftime_Ym (y, mo).
Proof.
  intros (y & mo & Hy & Hmo & ->) Hlen. exists y, mo.
  split; [|split; [exact Hmo|reflexivity]].
  destruct (Z.lt_ge_cases y 1000) as [Hshort|Hlong]; [exfalso|lia].
  destruct (parse_month_short_key y mo ltac:(lia)) as [Hlt _]. lia.
Qed.

Lemma key_leb_earlier (k1 k2 : string) :
  is_key k1 -> is_key k2 -> String.length k1 = 7%nat -> String.length k2 = 7%nat ->
  k1 <> k2 -> String.leb k1 k2 = true -> earlier k1 k2.
Proof.
  intros Hk1 Hk2 Hl1 Hl2.
  destruct (long_key k1 Hk1 Hl1) as (y1 & mo1 & Hy1 & Hmo1 & ->).
  destruct (long_key k2 Hk2 Hl2) as (y2 & mo2 & Hy2 & Hmo2 & ->).
  intros Hne Hle. exists y1, mo1, y2, mo2.
  split; [lia|]. split; [exact Hmo1|]. split; [reflexivity|].
  split; [lia|]. split; [exact Hmo2|]. split; [reflexivity|].
  destruct (Z.lt_trichotomy y1 y2) as [Hlt|[Heq|Hgt]]; [left; exact Hlt| |].
  - subst y2. destruct (Z.lt_trichotomy mo1 mo2) as [Hlt|[Heq|Hgt]].
    + right. split; [reflexivity|exact Hlt].
    + subst mo2. contradiction Hne. reflexivity.
    + exfalso. unfold String.leb in Hle. rewrite String.compare_antisym in Hle.
      rewrite (key_compare_lt y1 mo2 y1 mo1) in Hle by (try assumption; right; lia).
      discriminate Hle.
  - exfalso. unfold String.leb in Hle. rewrite String.compare_antisym in Hle.
    rewrite (key_compare_lt y2 mo2 y1 mo1) in Hle by (try assumption; left; lia).
    discriminate Hle.
Qed.

Lemma insert_item_perm {A} (x : string * A) (l : list (string * A)) :
  insert_item x l ≡ₚ x :: l.
Proof.
  induction l as [|y l IH]; [reflexivity|]. cbn [insert_item].
  destruct (String.leb (fst x) (fst y)); [reflexivity|].
  rewrite IH. apply perm_swap.
Qed.

Lemma sorted_items_perm {A} (d : gmap string A) : sorted_items d ≡ₚ map_to_list d.
Proof.
  unfold sorted_items. induction (map_to_list d) as [|x l IH]; [reflexivity|].
  cbn [foldr]. rewrite insert_item_perm, IH. reflexivity.
Qed.

Lemma insert_item_sorted {A} (x : string * A) (l : list (string * A)) :
  Sorted (fun a b => String.leb (fst a) (fst b) = true) l ->
  Sorted (fun a b => String.leb (fst a) (fst b) = true) (insert_item x l).
Proof.
  induction 1 as [|y l Hl IH Hy]; cbn [insert_item]; [repeat constructor|].
  destruct (String.leb (fst x) (fst y)) eqn:Hxy.
  - constructor; [constructor; assumption|constructor; exact Hxy].
  - constructor; [exact IH|].
    assert (String.leb (fst y) (fst x) = true) as Hyx
      by (destruct (String.leb_total (fst x) (fst y)) as [Hle|Hle]; [congruence|exact Hle]).
    destruct l as [|z l]; cbn [insert_item]; [constructor; exact Hyx|].
    destruct (String.leb (fst x) (fst z)); constructor; [exact Hyx|].
    inversion Hy; assumption.
Qed.

Lemma sorted_items_sorted {A} (d : gmap string A) :
  Sorted (fun a b => String.leb (fst a) (fst b) = true) (sorted_items d).
Proof.
  unfold sorted_items. induction (map_to_list d) as [|x l IH]; [constructor|].
  cbn [foldr]. apply insert_item_sorted, IH.
Qed.

(** Distinct seven-character month keys in ascending order are months
    in order. *)
Lemma sorted_keys_earlier {A} (l : list (string * A)) :
  Sorted (fun a b => String.leb (fst a) (fst b) = true) l ->
  NoDup (map fst l) ->
  Forall (fun kv => is_key (fst kv) /\ String.length (fst kv) = 7%nat) l ->
  Sorted earlier (map fst l).
Proof.
  induction 1 as [|a l Hl IH Ha]; intros Hnd Hkeys; [constructor|].
  cbn [map] in Hnd |- *. apply NoDup_cons in Hnd as [Hnew Hnd].
  apply Forall_cons in Hkeys as [[Hkey Hlen] Hkeys].
  constructor; [exact (IH Hnd Hkeys)|].
  destruct Ha as [|b l Hab]; [constructor|]. cbn [map]. constructor.
  apply Forall_cons in Hkeys as [[Hkeyb Hlenb] _].
  apply key_leb_earlier; [exact Hkey|exact Hkeyb|exact Hlen|exact Hlenb| |exact Hab].
  intros Heq. apply Hnew. cbn [map]. rewrite Heq. left.
Qed.

Lemma sorted_keys_ascending {A} (l : list (string * A)) :
  Sorted (fun a b => String.leb (fst a) (fst b) = true) l ->
  Sorted (fun a b => String.leb a b = true) (map fst l).
Proof.
  induction 1 as [|a l Hl IH Ha]; [constructor|]. cbn [map].
  constructor; [exact IH|]. destruct Ha as [|b l Hab]; constructor. exact Hab.
Qed.

Lemma shown_months_app {A} (l l' : list (show_line A)) :
  shown_months (l ++ l') = shown_months l ++ shown_months l'.
Proof. apply flat_map_app. Qed.

Lemma shown_months_head {A} (st : State A) :
  shown_months
    ([@Show_text A "Accounts:"]
     ++ map (fun kv => Show_account (fst kv) (snd kv)) (accounts st)
     ++ [Show_text ""; Show_text "Categories:"]) = [].
Proof.
  rewrite !shown_months_app. cbn [shown_months flat_map app].
  induction (accounts st) as [|kv l IH]; [reflexivity|exact IH].
Qed.

Lemma shown_months_show {A} (st : State A) :
  shown_months (fst (cmd_show st))
  = match sorted_categories st with
    | inl _ => []
    | inr _ => sorted_items (month_summary st)
    end.
Proof.
  unfold cmd_show. cbv zeta. destruct (sorted_categories st) as [e|names]; cbn [fst].
  - apply shown_months_head.
  - rewrite shown_months_app, shown_months_head, !shown_months_app. cbn [app].
    assert (shown_months (map (@Show_category A) names) = []) as ->
      by (induction names as [|c l IH]; [reflexivity|exact IH]).
    cbn [shown_months flat_map app].
    induction (sorted_items (month_summary st)) as [|[m x] l IH]; [reflexivity|].
    cbn [map fst snd]. change (shown_months (Show_month m x :: ?r))
      with ((m, x) :: shown_months r). f_equal. exact IH.
Qed.

(** X20. [cmd_show] in a reachable state.  When the nesting of the
    categories fits in the frames the recursion limit leaves, it ends
    normally and lists every month of [month_summary] once, with its
    ready_to_assign, in ascending order of the keys as texts; where
    every key has seven characters (every year is 1000 or later) that
    is the order of the calendar.  (The key of an earlier year is
    shorter and sorts by its first digit: 987-02 comes after 2024-10.)
    Otherwise [sorted_categories] raises [RecursionError] before any
    month is printed. *)
Theorem cmd_show_months {A} `{Amount A} (cs : list (command A)) :
  let st := run fresh_state cs in
  let months := shown_months (fst (cmd_show st)) in
  if nesting_fits visit_frames (categories st) then
    snd (cmd_show st) = None
    /\ months ≡ₚ map_to_list (month_summary st)
    /\ Sorted (fun a b => String.leb a b = true) (map fst months)
    /\ ((forall m x, month_summary st !! m = Some x -> String.length m = 7%nat) ->
        Sorted earlier (map fst months))
  else
    snd (cmd_show st) = Some RecursionError /\ months = [].
Proof.
  cbn zeta. set (st := run fresh_state cs). rewrite shown_months_show.
  destruct (listing_reachable cs) as (_ & _ & _ & Hvisit). cbn zeta in Hvisit.
  fold st in Hvisit. unfold cmd_show, sorted_categories. rewrite (Hvisit visit_frames).
  destruct (nesting_fits visit_frames (categories st)); [|split; reflexivity].
  split; [reflexivity|]. split; [apply sorted_items_perm|].
  split; [apply sorted_keys_ascending, sorted_items_sorted|].
  intros Hlen. apply sorted_keys_earlier.
  - apply sorted_items_sorted.
  - change (NoDup ((sorted_items (month_summary st)).*1)).
    rewrite sorted_items_perm. apply NoDup_fst_map_to_list.
  - assert (months_ok st) as [_ Hkeys].
    { apply (run_invariant months_ok cs).
      - intros st0 st' _. apply months_ok_effect.
      - apply fresh_state_nodup.
      - split.
        + intros m c e Hlook. unfold lookup_entry, lookup2 in Hlook. cbn in Hlook.
          rewrite lookup_empty in Hlook. discriminate Hlook.
        + intros m x Hlook. cbn in Hlook. rewrite lookup_empty in Hlook.
          discriminate Hlook. }
    apply Forall_forall. intros [m x] Hin. rewrite sorted_items_perm in Hin.
    apply elem_of_map_to_list in Hin. split; [exact (Hkeys m x Hin)|exact (Hlen m x Hin)].
Qed.

(** The key of a year before 1000 among keys of later years. *)
Lemma cmd_show_short_year :
  map fst
    (shown_months
       (fst (cmd_show (run fresh_state [Tbb "Feb 0987" 1%float; Tbb "2024-10" 2%float]))))
  = ["2024-10"; "987-02"].
Proof. vm_compute. reflexivity. Qed.

End Summary.
